(** * ProximityForest 2.0 / libtempo: MSM kernel, 1-NN splitters, command lines

    A shallow embedding of
    - [libtempo/distance/msm.hpp] (the early-abandoning and pruning MSM
      kernel, its public wrappers and the univariate split/merge cost),
    - the 1-NN splitter of the proximity forest ([TestSplitter_1NN],
      [TrainSplitter_1NN]),
    - the reference dynamic programs (ERP, DTW, TWE) and the 1-NN loops of
      the distance tests, with [mock::square_dist] of [mockseries.hpp],
    - [Result::make_probabilities_one] of [tempo/classifier/utils.hpp],
    - the command line driver of the LOOCV tool and the command line of
      the NN-k tool ([exec/nnkgridsearch/cli.cpp]),
    together with the properties the specification states about them.

    The C++ kernels are templates over a [Float] type; the embedding keeps
    that parameter: a type class of operations ([Float]) and the facts of
    IEEE-754 arithmetic the proofs rely on ([FloatLaws]).  Two instances are
    given: binary64 through [SpecFloat] (used to evaluate the code on real
    doubles) and an exact arithmetic over the extended integers (for which
    all laws are proved). *)

From Stdlib Require Import ZArith Bool Lia.
From Stdlib Require Import Floats.SpecFloat.
From stdpp Require Import base list gmap strings.

(* ===================================================================== *)
(** * The floating point interface *)
(* ===================================================================== *)

(** The operations of the [Float] concept that the modelled code uses. *)
Class Float (F : Type) := {
  Fzero : F;
  PINF : F;
  Fadd : F → F → F;
  Fsub : F → F → F;
  Fmul : F → F → F;
  Fabs : F → F;
  Fltb : F → F → bool;
  Fleb : F → F → bool;
  Feqb : F → F → bool;
  isinf : F → bool;
  isnan : F → bool;
  nextafter : F → F → F
}.

(** [std::min(a, b)]: [(b < a) ? b : a]. *)
Definition std_min `{Float F} (a b : F) : F := if Fltb b a then b else a.

(** Modelled from the spec: [utils::min] on three values is not part of the
    sources at hand; it is the nested [std::min]. *)
Definition min3 `{Float F} (a b c : F) : F := std_min a (std_min b c).

Section FloatFacts.
  Context `{Float F}.

Definition le (x y : F) : Prop := Fleb x y = true.
Definition lt (x y : F) : Prop := Fltb x y = true.
  (** a value that is not NaN compares equal to itself *)
Definition ok (x : F) : Prop := Fleb x x = true.
Definition nonneg (x : F) : Prop := le Fzero x.
  (** finite values: neither NaN nor an infinity *)
Definition finite (x : F) : Prop := lt (Fabs x) PINF.
  (** the zero [+0] itself, or a positive value *)
Definition pos_or_zero (x : F) : Prop := x = Fzero ∨ lt Fzero x.
End FloatFacts.

(** Facts of IEEE-754 arithmetic (round to nearest) used by the proofs.
    Every law is stated so that it holds of binary64, NaN included. *)
Class FloatLaws (F : Type) `{Float F} := {
  (* comparisons *)
  leb_ok_l : ∀ x y : F, le x y → ok x;
  leb_ok_r : ∀ x y : F, le x y → ok y;
  leb_trans : ∀ x y z : F, le x y → le y z → le x z;
  leb_total : ∀ x y : F, ok x → ok y → le x y ∨ le y x;
  ltb_spec : ∀ x y : F, Fltb x y = true ↔ (Fleb x y = true ∧ Fleb y x = false);
  eqb_spec : ∀ x y : F, Feqb x y = true ↔ (Fleb x y = true ∧ Fleb y x = true);
  isnan_spec : ∀ x : F, isnan x = negb (Fleb x x);
  isinf_pinf : isinf (PINF : F) = true;
  (* zero and infinity *)
  zero_ok : ok (Fzero : F);
  zero_finite : finite (Fzero : F);
  pinf_top : ∀ x : F, ok x → le x PINF;
  pinf_max : ∀ x : F, le PINF x → x = PINF;
  (* addition of non-negative values *)
  add_nonneg : ∀ a b : F, nonneg a → nonneg b → nonneg (Fadd a b);
  add_mono_l : ∀ a b c : F, nonneg a → le a b → nonneg c → le (Fadd a c) (Fadd b c);
  add_incr_l : ∀ a b : F, nonneg a → nonneg b → le a (Fadd a b);
  add_incr_r : ∀ a b : F, nonneg a → nonneg b → le b (Fadd a b);
  add_zero_zero : Fadd Fzero Fzero = (Fzero : F);
  add_pos_or_zero : ∀ a b : F, nonneg a → pos_or_zero b → pos_or_zero (Fadd a b);
  (* subtraction, absolute value, product *)
  sub_pinf_fin : ∀ x : F, nonneg x → lt x PINF → Fsub PINF x = PINF;
  sub_pinf_pinf : ¬ ok (Fsub PINF PINF : F);
  sub_self : ∀ x : F, finite x → Fsub x x = Fzero;
  sub_finite_ok : ∀ x y : F, finite x → finite y → ok (Fsub x y);
  abs_zero : Fabs Fzero = (Fzero : F);
  abs_nonneg : ∀ x : F, ok x → nonneg (Fabs x);
  mul_zero_zero : Fmul Fzero Fzero = (Fzero : F);
  mul_self_pos_or_zero : ∀ x : F, ok x → pos_or_zero (Fmul x x);
  (* nextafter *)
  nextafter_up : ∀ x : F, ok x → le x (nextafter x PINF);
  nextafter_nan : ∀ x y : F, ¬ ok y → ¬ ok (nextafter x y)
}.

(* ===================================================================== *)
(** * Two instances *)
(* ===================================================================== *)

(** ** binary64, through the reference implementation of [SpecFloat] *)
Module B64.
Definition prec : Z := 53.
Definition emax : Z := 1024.

Definition is_nan (x : spec_float) : bool :=
    match x with S754_nan => true | _ => false end.
Definition is_inf (x : spec_float) : bool :=
    match x with S754_infinity _ => true | _ => false end.

  (** [std::nextafter(x, y)] *)
Definition next_after (x y : spec_float) : spec_float :=
    if is_nan x || is_nan y then S754_nan
    else if SFeqb x y then y
    else if SFltb x y then SFsucc prec emax x
    else SFpred prec emax x.

#[global] Instance float : Float spec_float := {|
    Fzero := S754_zero false;
    PINF := S754_infinity false;
    Fadd := SFadd prec emax;
    Fsub := SFsub prec emax;
    Fmul := SFmul prec emax;
    Fabs := SFabs;
    Fltb := SFltb;
    Fleb := SFleb;
    Feqb := SFeqb;
    isinf := is_inf;
    isnan := is_nan;
    nextafter := next_after
  |}.

  (** the double nearest to the integer [z] *)
Definition of_Z (z : Z) : spec_float := binary_normalize prec emax z 0 false.
End B64.

(** ** exact arithmetic on the integers extended with the infinities and a
    NaN, with the special values of IEEE-754 *)
Module ZF.
Inductive t : Type := Fin (z : Z) | PInf | NInf | NaN.

Definition add (x y : t) : t :=
    match x, y with
    | NaN, _ | _, NaN => NaN
    | PInf, NInf | NInf, PInf => NaN
    | PInf, _ | _, PInf => PInf
    | NInf, _ | _, NInf => NInf
    | Fin a, Fin b => Fin (a + b)
    end.

Definition opp (x : t) : t :=
    match x with Fin a => Fin (- a) | PInf => NInf | NInf => PInf | NaN => NaN end.

Definition sub (x y : t) : t := add x (opp y).

Definition abs (x : t) : t :=
    match x with Fin a => Fin (Z.abs a) | PInf | NInf => PInf | NaN => NaN end.

Definition mul (x y : t) : t :=
    match x, y with
    | NaN, _ | _, NaN => NaN
    | Fin a, Fin b => Fin (a * b)
    | Fin a, PInf | PInf, Fin a =>
        if (a =? 0)%Z then NaN else if (0 <? a)%Z then PInf else NInf
    | Fin a, NInf | NInf, Fin a =>
        if (a =? 0)%Z then NaN else if (0 <? a)%Z then NInf else PInf
    | PInf, PInf | NInf, NInf => PInf
    | PInf, NInf | NInf, PInf => NInf
    end.

Definition leb (x y : t) : bool :=
    match x, y with
    | NaN, _ | _, NaN => false
    | NInf, _ | _, PInf => true
    | PInf, _ | _, NInf => false
    | Fin a, Fin b => (a <=? b)%Z
    end.

Definition ltb (x y : t) : bool := leb x y && negb (leb y x).
Definition eqb (x y : t) : bool := leb x y && leb y x.

Definition is_nan (x : t) : bool := match x with NaN => true | _ => false end.
Definition is_inf (x : t) : bool :=
    match x with PInf | NInf => true | _ => false end.

  (** the neighbour of [x] towards [y]; the infinities have no neighbour *)
Definition next_after (x y : t) : t :=
    if is_nan x || is_nan y then NaN
    else if eqb x y then y
    else match x with
         | Fin a => if ltb x y then Fin (a + 1) else Fin (a - 1)
         | _ => x
         end.

#[global] Instance float : Float t := {|
    Fzero := Fin 0;
    PINF := PInf;
    Fadd := add;
    Fsub := sub;
    Fmul := mul;
    Fabs := abs;
    Fltb := ltb;
    Fleb := leb;
    Feqb := eqb;
    isinf := is_inf;
    isnan := is_nan;
    nextafter := next_after
  |}.

Ltac crush :=
    repeat match goal with
      | x : t |- _ => destruct x
      end;
    cbn in *; unfold ltb, eqb, leb in *; cbn in *;
    repeat match goal with
      | |- context [(?a =? ?b)%Z] => destruct (Z.eqb_spec a b)
      | |- context [(?a <? ?b)%Z] => destruct (Z.ltb_spec a b)
      | |- context [(?a <=? ?b)%Z] => destruct (Z.leb_spec a b)
      | H : context [(?a <=? ?b)%Z] |- _ => destruct (Z.leb_spec a b)
      | H : context [(?a <? ?b)%Z] |- _ => destruct (Z.ltb_spec a b)
      end;
    cbn in *; intros; try congruence; try (f_equal; lia); try lia; try nia.

#[global] Instance laws : FloatLaws t.
  Proof.
    split; unfold pos_or_zero, nonneg, finite, ok, le, lt; cbn -[Z.add Z.mul Z.sub].
    - intros x y; crush.
    - intros x y; crush.
    - intros x y z; crush.
    - intros x y; crush; auto.
    - intros x y; crush; intuition congruence.
    - intros x y; crush; intuition congruence.
    - intros x; crush.
    - reflexivity.
    - reflexivity.
    - reflexivity.
    - intros x; crush.
    - intros x; crush.
    - intros a b; crush.
    - intros a b c; crush.
    - intros a b; crush.
    - intros a b; crush.
    - reflexivity.
    - intros a b Ha [-> | Hb]; revert Ha; [|revert Hb]; crush;
        try (destruct (decide (z = 0%Z)) as [->|]; [by left|right; crush]);
        try (right; crush); auto.
    - intros x; crush.
    - discriminate.
    - intros x; crush.
    - intros x y; crush.
    - reflexivity.
    - intros x; crush.
    - reflexivity.
    - intros x Hx; destruct x as [z| | |]; cbn in *; try discriminate; [|by right..].
      destruct (decide (z = 0%Z)) as [->|]; [by left|right; crush].
    - intros x; unfold next_after; crush.
    - intros x y; unfold next_after; crush.
  Qed.
End ZF.

(* ===================================================================== *)
(** * The MSM kernel ([libtempo/distance/msm.hpp]) *)
(* ===================================================================== *)

Section MSM.
  Context `{Float F}.

  (** [buffer[k]]: the kernel only reads cells it has allocated; a read out
      of the vector is not modelled and yields zero here. *)
Definition rd (buffer : list F) (k : nat) : F := default Fzero (buffer !! k).

  (** [std::vector::assign(n, x)]: the old contents are dropped. *)
Definition assign (buffer_v : list F) (n : nat) (x : F) : list F := replicate n x.

  (** The variables of one line of the main loop. *)
Record row_state := RowState {
    st_buffer : list F;
    st_cost : F;
    st_next_start : nat;
    st_curr_pp : nat;
    st_j : nat
  }.

  (** A line either leaves the function with a value or goes on. *)
Inductive outcome := Return (v : F) | Continue (s : row_state).

  Section Kernel.
    Variables nblines nbcols : nat.
    Variables dist_lines dist_cols dist : nat → nat → F.
    Variable cutoff : F.

    (** The [initBlock] computing the tightened bound [ub]. *)
Definition msm_ub : F :=
      if 2 <=? nbcols then
        let i := nblines - 1 in
        let j := nbcols - 1 in
        let la := min3 (dist i j) (dist_cols i j) (dist_lines i j) in
        nextafter cutoff (Fsub PINF la)
      else cutoff.

    Variable ub : F.

    (** Rest of the first line: [for (j = 1; j<nbcols; ++j)] with its [break];
        [fuel] is the number of columns left, [nbcols - j]. *)
Fixpoint first_line (fuel c j : nat) (buffer : list F) (cost : F) (prev_pp : nat)
      : list F * F * nat * nat :=
      match fuel with
      | 0 => (buffer, cost, prev_pp, j)
      | S fuel' =>
          let cost := Fadd cost (dist_cols 0 j) in
          let buffer := <[c + j := cost]> buffer in
          if Fleb cost ub then first_line fuel' c (S j) buffer cost (S j)
          else (buffer, cost, prev_pp, j)
      end.

    (** Stage 0: first column of the line, only the cell above. *)
Definition stage0 (i c p : nat) (buffer : list F) (next_start : nat) : row_state :=
      let j := next_start in
      let cost := Fadd (rd buffer (p + j)) (dist_lines i j) in
      let buffer := <[c + j := cost]> buffer in
      if Fleb cost ub then RowState buffer cost next_start (j + 1) (j + 1)
      else RowState buffer cost (next_start + 1) next_start (j + 1).

    (** Stage 1: [for (; j==next_start && j<prev_pp; ++j)], diagonal and above;
        [fuel] is [prev_pp - j]. *)
Fixpoint stage1 (fuel i c p prev_pp : nat) (s : row_state) : row_state :=
      match fuel with
      | 0 => s
      | S fuel' =>
          let j := st_j s in
          if (j =? st_next_start s) && (j <? prev_pp) then
            let cost := std_min (Fadd (rd (st_buffer s) (p + j - 1)) (dist i j))
                                (Fadd (rd (st_buffer s) (p + j)) (dist_lines i j)) in
            let buffer := <[c + j := cost]> (st_buffer s) in
            stage1 fuel' i c p prev_pp
              (if Fleb cost ub
               then RowState buffer cost (st_next_start s) (j + 1) (j + 1)
               else RowState buffer cost (st_next_start s + 1) (st_curr_pp s) (j + 1))
          else s
      end.

    (** Stage 2: [for (; j<prev_pp; ++j)], the three neighbours;
        [fuel] is [prev_pp - j]. *)
Fixpoint stage2 (fuel i c p prev_pp : nat) (s : row_state) : row_state :=
      match fuel with
      | 0 => s
      | S fuel' =>
          let j := st_j s in
          if j <? prev_pp then
            let cost := min3 (Fadd (rd (st_buffer s) (p + j - 1)) (dist i j))
                             (Fadd (st_cost s) (dist_cols i j))
                             (Fadd (rd (st_buffer s) (p + j)) (dist_lines i j)) in
            let buffer := <[c + j := cost]> (st_buffer s) in
            stage2 fuel' i c p prev_pp
              (RowState buffer cost (st_next_start s)
                 (if Fleb cost ub then j + 1 else st_curr_pp s) (j + 1))
          else s
      end.

    (** Stage 3: at the previous pruning point. *)
Definition stage3 (i c p : nat) (s : row_state) : outcome :=
      let j := st_j s in
      if j <? nbcols then
        if j =? st_next_start s then
          let cost := Fadd (rd (st_buffer s) (p + j - 1)) (dist i j) in
          let buffer := <[c + j := cost]> (st_buffer s) in
          if Fleb cost ub
          then Continue (RowState buffer cost (st_next_start s) (j + 1) (j + 1))
          else if (i =? nblines - 1) && (j =? nbcols - 1) && Fleb cost cutoff
               then Return cost
               else Return PINF
        else
          let cost := std_min (Fadd (rd (st_buffer s) (p + j - 1)) (dist i j))
                              (Fadd (st_cost s) (dist_cols i j)) in
          let buffer := <[c + j := cost]> (st_buffer s) in
          Continue (RowState buffer cost (st_next_start s)
                      (if Fleb cost ub then j + 1 else st_curr_pp s) (j + 1))
      else
        if j =? st_next_start s then
          if Fltb cutoff (st_cost s) then Return PINF
          else Continue (RowState (st_buffer s) (st_cost s) (nbcols - 1) (st_curr_pp s) j)
        else Continue s.

    (** Stage 4: [for (; j==curr_pp && j<nbcols; ++j)], only the left cell;
        [fuel] is [nbcols - j]. *)
Fixpoint stage4 (fuel i c : nat) (s : row_state) : row_state :=
      match fuel with
      | 0 => s
      | S fuel' =>
          let j := st_j s in
          if (j =? st_curr_pp s) && (j <? nbcols) then
            let cost := Fadd (st_cost s) (dist_cols i j) in
            let buffer := <[c + j := cost]> (st_buffer s) in
            stage4 fuel' i c
              (RowState buffer cost (st_next_start s)
                 (if Fleb cost ub then st_curr_pp s + 1 else st_curr_pp s) (j + 1))
          else s
      end.

    (** The body of the main loop for line [i], after the swap of [c] and [p]. *)
Definition msm_row (i c p : nat) (buffer : list F) (next_start prev_pp : nat) : outcome :=
      let s := stage0 i c p buffer next_start in
      let s := stage1 (prev_pp - st_j s) i c p prev_pp s in
      let s := stage2 (prev_pp - st_j s) i c p prev_pp s in
      match stage3 i c p s with
      | Return v => Return v
      | Continue s => Continue (stage4 (nbcols - st_j s) i c s)
      end.

    (** The main loop [for (; i<nblines; ++i)] followed by the finalisation;
        [fuel] is the number of lines left, [nblines - i]. *)
Fixpoint main_loop (fuel i c p : nat) (buffer : list F) (cost : F)
        (next_start prev_pp j : nat) : F :=
      match fuel with
      | 0 => if (j =? nbcols) && Fleb cost cutoff then cost else PINF
      | S fuel' =>
          match msm_row i p c buffer next_start prev_pp with
          | Return v => v
          | Continue s =>
              main_loop fuel' (S i) p c (st_buffer s) (st_cost s)
                (st_next_start s) (st_curr_pp s) (st_j s)
          end
      end.
  End Kernel.

  (** [internal::msm] *)
Definition internal_msm (nblines nbcols : nat) (dist_lines dist_cols dist : nat → nat → F)
      (cutoff : F) (buffer_v : list F) : F :=
    let ub := msm_ub nblines nbcols dist_lines dist_cols dist cutoff in
    let buffer := assign buffer_v (nbcols * 2) Fzero in
    let c := 0 in
    let p := nbcols in
    let cost := dist 0 0 in
    let buffer := <[c + 0 := cost]> buffer in
    if Fleb cost ub then
      let '(buffer, cost, prev_pp, j) :=
        first_line dist_cols ub (nbcols - 1) c 1 buffer cost 1 in
      main_loop nblines nbcols dist_lines dist_cols dist cutoff ub
        (nblines - 1) 1 c p buffer cost 0 prev_pp j
    else PINF.

  (** The cutoff computed along the diagonal when the caller gives an
      infinite bound. *)
Definition diagonal_ub (nblines nbcols : nat) (dist_lines dist_cols dist : nat → nat → F) : F :=
    let m := Nat.min nblines nbcols in
    let ub := fold_left (λ ub i, Fadd ub (dist i i)) (seq 0 m) Fzero in
    if nblines <? nbcols then
      fold_left (λ ub j, Fadd ub (dist_cols (nblines - 1) j)) (seq nblines (nbcols - nblines)) ub
    else if nbcols <? nblines then
      fold_left (λ ub i, Fadd ub (dist_lines i (nbcols - 1))) (seq nbcols (nblines - nbcols)) ub
    else ub.

  (** [msm] with a caller-supplied buffer *)
Definition msm (nblines nbcols : nat) (dist_lines dist_cols dist : nat → nat → F)
      (ub : F) (buffer_v : list F) : F :=
    if (nblines =? 0) && (nbcols =? 0) then Fzero
    else if negb (eqb (nblines =? 0) (nbcols =? 0)) then PINF
    else
      let ub :=
        if isinf ub then diagonal_ub nblines nbcols dist_lines dist_cols dist
        else if isnan ub then PINF
        else ub in
      internal_msm nblines nbcols dist_lines dist_cols dist ub buffer_v.

  (** Helper without having to provide a buffer *)
Definition msm_nobuffer (nblines nbcols : nat) (dist_lines dist_cols dist : nat → nat → F)
      (ub : F) : F :=
    let v : list F := [] in
    msm nblines nbcols dist_lines dist_cols dist ub v.

  (** ** Univariate costs *)

Definition _msm_cost_ad1 (X : list F) (xnew_ xi_ : nat) (Y : list F) (yj_ : nat) (cost : F) : F :=
    let xnew := rd X xnew_ in
    let xi := rd X xi_ in
    let yj := rd Y yj_ in
    if (Fleb xi xnew && Fleb xnew yj) || (Fleb yj xnew && Fleb xnew xi) then cost
    else Fadd cost (std_min (Fabs (Fsub xnew xi)) (Fabs (Fsub xnew yj))).

Definition msm_lines_ad1 (lines cols : list F) (c : F) : nat → nat → F :=
    λ i j, _msm_cost_ad1 lines i (i - 1) cols j c.

Definition msm_cols_ad1 (lines cols : list F) (c : F) : nat → nat → F :=
    λ i j, _msm_cost_ad1 cols j (j - 1) lines i c.

  (** Modelled from the spec: [ad1] of [cost_function.hpp] is not part of the
      sources at hand; section 4.1 gives [ade(e)(A, i, B, j) = |A[i]-B[j]|^e],
      here with [e = 1]. *)
Definition ad1 (lines cols : list F) : nat → nat → F :=
    λ i j, Fabs (Fsub (rd lines i) (rd cols j)).

  (** Specific overload for univariate vectors using [ad1] *)
Definition univariate_msm (lines cols : list F) (c : F) (ub : F) : F :=
    msm_nobuffer (length lines) (length cols)
      (msm_lines_ad1 lines cols c) (msm_cols_ad1 lines cols c) (ad1 lines cols) ub.

  (** The contract of the skeleton (section 4.2): the exact value of the
      dynamic program if it is [≤ cutoff], else [+∞]. *)
Definition eap_contract (v cutoff : F) : F := if Fleb v cutoff then v else PINF.

  (* =================================================================== *)
  (** ** The naive dynamic program *)
  (* =================================================================== *)

  (** The recurrence of section 4.2 of the specification, cell by cell:
      the first line and the first column have a single predecessor, every
      other cell takes the minimum over the move (diagonal), the
      split/merge along the line (left) and along the column (above). *)
Fixpoint naive_cell (dist_lines dist_cols dist : nat → nat → F) (i : nat) : nat → F :=
    match i with
    | 0 =>
        fix first (j : nat) : F :=
          match j with
          | 0 => dist 0 0
          | S j' => Fadd (first j') (dist_cols 0 j)
          end
    | S i' =>
        fix cur (j : nat) : F :=
          match j with
          | 0 => Fadd (naive_cell dist_lines dist_cols dist i' 0) (dist_lines i 0)
          | S j' =>
              min3 (Fadd (naive_cell dist_lines dist_cols dist i' j') (dist i j))
                   (Fadd (cur j') (dist_cols i j))
                   (Fadd (naive_cell dist_lines dist_cols dist i' j) (dist_lines i j))
          end
    end.

  (** The naive distance: the last cell of the full matrix, with the
      conventions of the skeleton for empty series. *)
Definition naive_msm (nblines nbcols : nat) (dist_lines dist_cols dist : nat → nat → F) : F :=
    match nblines, nbcols with
    | 0, 0 => Fzero
    | 0, _ | _, 0 => PINF
    | S i, S j => naive_cell dist_lines dist_cols dist i j
    end.
End MSM.

Arguments row_state F : clear implicits.
Arguments outcome F : clear implicits.
Arguments naive_cell : simpl never.

(* ===================================================================== *)
(** * Order and minimum on non-NaN values *)
(* ===================================================================== *)

Section Order.
  Context `{FloatLaws F}.
  Implicit Types x y z a b : F.

Lemma nonneg_ok x : nonneg x → ok x.
  Proof. apply leb_ok_r. Qed.

Lemma lt_le x y : lt x y → le x y.
  Proof. intros Hlt. apply ltb_spec in Hlt. apply Hlt. Qed.

Lemma lt_nle x y : lt x y → Fleb y x = false.
  Proof. intros Hlt. apply ltb_spec in Hlt. apply Hlt. Qed.

Lemma nle_lt x y : ok x → ok y → Fleb x y = false → lt y x.
  Proof.
    intros Hx Hy Hn. apply ltb_spec. split; [|done].
    destruct (leb_total x y Hx Hy) as [Hle|Hle]; [|done].
    unfold le in Hle. congruence.
  Qed.

Lemma nlt_le x y : ok x → ok y → Fltb x y = false → le y x.
  Proof.
    intros Hx Hy Hn. destruct (Fleb y x) eqn:Hyx; [done|].
    apply nle_lt in Hyx; [|done..]. unfold lt in Hyx. congruence.
  Qed.

Lemma lt_le_trans x y z : lt x y → le y z → lt x z.
  Proof.
    intros Hxy Hyz. apply ltb_spec. split.
    - eapply leb_trans; [by apply lt_le|done].
    - destruct (Fleb z x) eqn:Hzx; [|done].
      pose proof (leb_trans _ _ _ Hyz Hzx) as Hyx.
      apply lt_nle in Hxy. unfold le in Hyx. congruence.
  Qed.

Lemma le_lt_trans x y z : le x y → lt y z → lt x z.
  Proof.
    intros Hxy Hyz. apply ltb_spec. split.
    - eapply leb_trans; [done|by apply lt_le].
    - destruct (Fleb z x) eqn:Hzx; [|done].
      pose proof (leb_trans _ _ _ Hzx Hxy) as Hzy.
      apply lt_nle in Hyz. unfold le in Hzy. congruence.
  Qed.

Lemma lt_ok_l x y : lt x y → ok x.
  Proof. intros Hlt. eapply leb_ok_l, lt_le, Hlt. Qed.

Lemma lt_ok_r x y : lt x y → ok y.
  Proof. intros Hlt. eapply leb_ok_r, lt_le, Hlt. Qed.

Lemma pinf_ok : ok (PINF : F).
  Proof. eapply leb_ok_r, pinf_top, zero_ok. Qed.

Lemma le_pinf_eq x : le PINF x → x = PINF.
  Proof. apply pinf_max. Qed.

  (** ** [std::min] *)

Lemma std_min_cases a b : std_min a b = a ∨ std_min a b = b.
  Proof. unfold std_min. destruct (Fltb b a); auto. Qed.

Lemma std_min_le_l a b : ok a → ok b → le (std_min a b) a.
  Proof.
    intros Ha Hb. unfold std_min. destruct (Fltb b a) eqn:Hlt; [|done].
    by apply lt_le.
  Qed.

Lemma std_min_le_r a b : ok a → ok b → le (std_min a b) b.
  Proof.
    intros Ha Hb. unfold std_min. destruct (Fltb b a) eqn:Hlt; [done|].
    by apply nlt_le.
  Qed.

Lemma std_min_nonneg a b : nonneg a → nonneg b → nonneg (std_min a b).
  Proof. intros Ha Hb. destruct (std_min_cases a b) as [-> | ->]; done. Qed.

Lemma min3_nonneg a b c : nonneg a → nonneg b → nonneg c → nonneg (min3 a b c).
  Proof. intros. unfold min3. auto using std_min_nonneg. Qed.

Lemma min3_le_1 a b c : ok a → ok b → ok c → le (min3 a b c) a.
  Proof.
    intros Ha Hb Hc. unfold min3. apply std_min_le_l; [done|].
    destruct (std_min_cases b c) as [-> | ->]; done.
  Qed.

Lemma min3_le_2 a b c : ok a → ok b → ok c → le (min3 a b c) b.
  Proof.
    intros Ha Hb Hc. unfold min3.
    assert (ok (std_min b c)) by (destruct (std_min_cases b c) as [-> | ->]; done).
    eapply leb_trans; [by apply std_min_le_r|by apply std_min_le_l].
  Qed.

Lemma min3_le_3 a b c : ok a → ok b → ok c → le (min3 a b c) c.
  Proof.
    intros Ha Hb Hc. unfold min3.
    assert (ok (std_min b c)) by (destruct (std_min_cases b c) as [-> | ->]; done).
    eapply leb_trans; [by apply std_min_le_r|by apply std_min_le_r].
  Qed.

  (** ** Values above a bound, and agreement up to the bound *)

  Variable ub : F.

  (** strictly above the pruning bound *)
Definition big (x : F) : Prop := lt ub x.

  (** A computed cell [x] agrees with the exact cell [y]: they are the same
      value, or both lie above the bound. *)
Definition agree (x y : F) : Prop := nonneg x ∧ (x = y ∨ (big x ∧ big y)).

Lemma agree_refl x : nonneg x → agree x x.
  Proof. intros. split; auto. Qed.

Lemma agree_big x y : nonneg x → big x → big y → agree x y.
  Proof. intros. split; auto. Qed.

Lemma agree_big_l x y : agree x y → big x → big y.
  Proof. intros [_ [<- | [_ ?]]] ?; done. Qed.

Lemma agree_big_r x y : agree x y → big y → big x.
  Proof. intros [_ [-> | [? _]]] ?; done. Qed.

Lemma agree_nonneg_l x y : agree x y → nonneg x.
  Proof. by intros [? _]. Qed.

Lemma agree_le_eq x y : agree x y → le y ub → x = y.
  Proof.
    intros [_ [-> | [_ Hy]]] Hle; [done|].
    apply lt_nle in Hy. unfold le in Hle. congruence.
  Qed.

Lemma big_nle x : big x → Fleb x ub = false.
  Proof. apply lt_nle. Qed.

Lemma nle_big x : ok ub → ok x → Fleb x ub = false → big x.
  Proof. intros. by apply nle_lt. Qed.

Lemma big_le x y : big x → le x y → big y.
  Proof. apply lt_le_trans. Qed.

Lemma big_add x s : big x → nonneg x → nonneg s → big (Fadd x s).
  Proof. intros Hx Hn Hs. eapply big_le; [done|]. by apply add_incr_l. Qed.

Lemma big_std_min x y : big x → big y → big (std_min x y).
  Proof. intros. destruct (std_min_cases x y) as [-> | ->]; done. Qed.

Lemma agree_add x y s : agree x y → nonneg y → nonneg s → agree (Fadd x s) (Fadd y s).
  Proof.
    intros [Hx [-> | [Hbx Hby]]] Hy Hs.
    - apply agree_refl. by apply add_nonneg.
    - apply agree_big; [by apply add_nonneg|by apply big_add..].
  Qed.

  (** [std::min] of agreeing arguments *)
Lemma agree_std_min x y x' y' :
    agree x y → agree x' y' → nonneg y → nonneg y' →
    agree (std_min x x') (std_min y y').
  Proof.
    intros [Hx Hxy] [Hx' Hxy'] Hy Hy'.
    assert (nonneg (std_min x x')) as Hm by (by apply std_min_nonneg).
    pose proof (nonneg_ok _ Hx) as Hox. pose proof (nonneg_ok _ Hx') as Hox'.
    pose proof (nonneg_ok _ Hy) as Hoy. pose proof (nonneg_ok _ Hy') as Hoy'.
    destruct Hxy as [-> | [Hbx Hby]], Hxy' as [-> | [Hbx' Hby']].
    - by apply agree_refl.
    - (* second pair above the bound *)
      unfold std_min in *.
      destruct (Fltb x' y) eqn:E1, (Fltb y' y) eqn:E2.
      + by apply agree_big.
      + apply agree_big; [done..|]. eapply big_le; [exact Hbx'|]. by apply lt_le.
      + split; [done|]. right. split; [|done].
        eapply big_le; [exact Hby'|]. by apply lt_le.
      + by apply agree_refl.
    - (* first pair above the bound *)
      unfold std_min in *.
      destruct (Fltb y' x) eqn:E1, (Fltb y' y) eqn:E2.
      + by apply agree_refl.
      + split; [done|]. right. split; [|done].
        eapply big_le; [exact Hby|]. by apply nlt_le.
      + split; [done|]. right. split; [done|].
        eapply big_le; [exact Hbx|]. by apply nlt_le.
      + by apply agree_big.
    - apply agree_big; [done|by apply big_std_min..].
  Qed.

  (** a neighbour above the bound does not change the minimum *)
Lemma agree_std_min_drop_l x y g :
    agree x y → nonneg y → big g → agree x (std_min g y).
  Proof.
    intros [Hx Hxy] Hy Hg. split; [done|].
    unfold std_min. destruct (Fltb y g) eqn:E; [done|].
    right. apply nlt_le in E; [|by apply nonneg_ok|by eapply lt_ok_r].
    assert (big y) by (by eapply big_le).
    split; [|done]. by eapply agree_big_r.
  Qed.

Lemma agree_std_min_drop_r x y g :
    agree x y → nonneg y → big g → agree x (std_min y g).
  Proof.
    intros [Hx Hxy] Hy Hg. split; [done|].
    unfold std_min. destruct (Fltb g y) eqn:E; [|done].
    right. assert (big y) by (eapply big_le; [exact Hg|by apply lt_le]).
    split; [|done]. by eapply agree_big_r.
  Qed.
End Order.

(* ===================================================================== *)
(** * The kernel computes the naive dynamic program *)
(* ===================================================================== *)

Section KernelProof.
  Context `{FloatLaws F}.
  Variables dist_lines dist_cols dist : nat → nat → F.
  Hypothesis dist_lines_nonneg : ∀ i j, nonneg (dist_lines i j).
  Hypothesis dist_cols_nonneg : ∀ i j, nonneg (dist_cols i j).
  Hypothesis dist_nonneg : ∀ i j, nonneg (dist i j).

  Abbreviation M := (naive_cell dist_lines dist_cols dist).

Lemma naive_cell_0_S j : M 0 (S j) = Fadd (M 0 j) (dist_cols 0 (S j)).
  Proof. reflexivity. Qed.

Lemma naive_cell_S_0 i : M (S i) 0 = Fadd (M i 0) (dist_lines (S i) 0).
  Proof. reflexivity. Qed.

Lemma naive_cell_S_S i j :
    M (S i) (S j) =
      min3 (Fadd (M i j) (dist (S i) (S j)))
           (Fadd (M (S i) j) (dist_cols (S i) (S j)))
           (Fadd (M i (S j)) (dist_lines (S i) (S j))).
  Proof. reflexivity. Qed.

Lemma naive_cell_nonneg i j : nonneg (M i j).
  Proof.
    revert j. induction i as [|i IHi]; intros j.
    - induction j as [|j IHj]; [apply dist_nonneg|].
      rewrite naive_cell_0_S. by apply add_nonneg.
    - induction j as [|j IHj].
      + rewrite naive_cell_S_0. by apply add_nonneg.
      + rewrite naive_cell_S_S. apply min3_nonneg; by apply add_nonneg.
  Qed.

Lemma naive_cell_ok i j : ok (M i j).
  Proof. apply nonneg_ok, naive_cell_nonneg. Qed.

  (** The cost cannot decrease along a step. *)
Lemma naive_cell_left i j : le (M i (S j)) (Fadd (M i j) (dist_cols i (S j))).
  Proof.
    assert (∀ x s, nonneg x → nonneg s → ok (Fadd x s)) as Hok
        by (intros; by apply nonneg_ok, add_nonneg).
    destruct i as [|i].
    - rewrite naive_cell_0_S. apply Hok; [apply naive_cell_nonneg|done].
    - rewrite naive_cell_S_S. apply min3_le_2; apply Hok; auto using naive_cell_nonneg.
  Qed.

Lemma naive_cell_above i j : le (M (S i) j) (Fadd (M i j) (dist_lines (S i) j)).
  Proof.
    assert (∀ x s, nonneg x → nonneg s → ok (Fadd x s)) as Hok
        by (intros; by apply nonneg_ok, add_nonneg).
    destruct j as [|j].
    - rewrite naive_cell_S_0. apply Hok; [apply naive_cell_nonneg|done].
    - rewrite naive_cell_S_S. apply min3_le_3; apply Hok; auto using naive_cell_nonneg.
  Qed.

Lemma naive_cell_diag i j : le (M (S i) (S j)) (Fadd (M i j) (dist (S i) (S j))).
  Proof.
    assert (∀ x s, nonneg x → nonneg s → ok (Fadd x s)) as Hok
        by (intros; by apply nonneg_ok, add_nonneg).
    rewrite naive_cell_S_S. apply min3_le_1; apply Hok; auto using naive_cell_nonneg.
  Qed.

  Section Bound.
    Variable ub : F.

    Abbreviation big := (big ub).
    Abbreviation agree := (agree ub).

Lemma big_min3 x y z : big x → big y → big z → big (min3 x y z).
    Proof. intros. unfold min3. auto using big_std_min. Qed.

Lemma big_step i j s : big (M i j) → nonneg s → big (Fadd (M i j) s).
    Proof. intros. apply big_add; [done|apply naive_cell_nonneg|done]. Qed.

    (** columns above the bound at the start of a line stay so on the next line *)
Lemma big_prefix_next r n :
      (∀ k, k < n → big (M r k)) → ∀ k, k < n → big (M (S r) k).
    Proof.
      intros Hr k. induction k as [|k IHk]; intros Hk.
      - rewrite naive_cell_S_0. apply big_step; auto.
      - rewrite naive_cell_S_S.
        apply big_min3; apply big_step; auto with lia.
    Qed.

Lemma big_prefix_rows r n :
      (∀ k, k < n → big (M r k)) → ∀ i k, k < n → big (M (i + r) k).
    Proof.
      intros Hr i. induction i as [|i IHi]; [done|].
      cbn [Nat.add]. by apply big_prefix_next.
    Qed.

    (** once a cell of the line is above the bound past the pruning point of
        the previous line, so is the rest of the line *)
Lemma big_suffix r pp n j0 :
      (∀ k, pp ≤ k < n → big (M r k)) →
      pp ≤ j0 → big (M (S r) j0) →
      ∀ k, j0 ≤ k < n → big (M (S r) k).
    Proof.
      intros Hr Hpp Hj0 k. induction k as [|k IHk]; intros Hk.
      - by replace 0 with j0 by lia.
      - destruct (decide (j0 = S k)) as [<-|Hne]; [done|].
        rewrite naive_cell_S_S.
        apply big_min3; apply big_step; auto with lia.
    Qed.

    (** ** One cell, by the neighbours that are read *)

Lemma cell_above_only r j xa :
      (∀ k, k < j → big (M r k)) →
      agree xa (M r j) →
      agree (Fadd xa (dist_lines (S r) j)) (M (S r) j).
    Proof.
      intros Hlo Ha. destruct j as [|j].
      - rewrite naive_cell_S_0. apply agree_add; auto using naive_cell_nonneg.
      - rewrite naive_cell_S_S. unfold min3.
        apply agree_std_min_drop_l; [| |apply big_step; auto].
        + apply agree_std_min_drop_l; [| |apply big_step; auto].
          * apply agree_add; auto using naive_cell_nonneg.
          * apply add_nonneg; auto using naive_cell_nonneg.
          * apply big_prefix_next with (n := S j); auto.
        + apply std_min_nonneg; apply add_nonneg; auto using naive_cell_nonneg.
    Qed.

Lemma cell_diag_above r j xd xa :
      big (M (S r) j) →
      agree xd (M r j) → agree xa (M r (S j)) →
      agree (std_min (Fadd xd (dist (S r) (S j))) (Fadd xa (dist_lines (S r) (S j))))
            (M (S r) (S j)).
    Proof.
      intros Hl Hd Ha. rewrite naive_cell_S_S. unfold min3.
      apply agree_std_min; try (apply agree_add; auto using naive_cell_nonneg);
        try (apply add_nonneg; auto using naive_cell_nonneg).
      - apply agree_std_min_drop_l; [| |apply big_step; auto].
        + apply agree_add; auto using naive_cell_nonneg.
        + apply add_nonneg; auto using naive_cell_nonneg.
      - apply std_min_nonneg; apply add_nonneg; auto using naive_cell_nonneg.
    Qed.

Lemma cell_all r j xd xl xa :
      agree xd (M r j) → agree xl (M (S r) j) → agree xa (M r (S j)) →
      agree (min3 (Fadd xd (dist (S r) (S j))) (Fadd xl (dist_cols (S r) (S j)))
                  (Fadd xa (dist_lines (S r) (S j))))
            (M (S r) (S j)).
    Proof.
      intros Hd Hl Ha. rewrite naive_cell_S_S. unfold min3.
      repeat apply agree_std_min;
        try (apply agree_add; auto using naive_cell_nonneg);
        try (apply std_min_nonneg);
        try (apply add_nonneg; auto using naive_cell_nonneg).
    Qed.

Lemma cell_diag_only r j xd :
      big (M (S r) j) → big (M r (S j)) →
      agree xd (M r j) →
      agree (Fadd xd (dist (S r) (S j))) (M (S r) (S j)).
    Proof.
      intros Hl Ha Hd. rewrite naive_cell_S_S. unfold min3.
      apply agree_std_min_drop_r.
      - apply agree_add; auto using naive_cell_nonneg.
      - apply add_nonneg; auto using naive_cell_nonneg.
      - apply big_std_min; apply big_step; auto.
    Qed.

Lemma cell_diag_left r j xd xl :
      big (M r (S j)) →
      agree xd (M r j) → agree xl (M (S r) j) →
      agree (std_min (Fadd xd (dist (S r) (S j))) (Fadd xl (dist_cols (S r) (S j))))
            (M (S r) (S j)).
    Proof.
      intros Ha Hd Hl. rewrite naive_cell_S_S. unfold min3.
      apply agree_std_min; try (apply agree_add; auto using naive_cell_nonneg);
        try (apply add_nonneg; auto using naive_cell_nonneg).
      - apply agree_std_min_drop_r; [| |apply big_step; auto].
        + apply agree_add; auto using naive_cell_nonneg.
        + apply add_nonneg; auto using naive_cell_nonneg.
      - apply std_min_nonneg; apply add_nonneg; auto using naive_cell_nonneg.
    Qed.

Lemma cell_left_only r j xl :
      big (M r j) → big (M r (S j)) →
      agree xl (M (S r) j) →
      agree (Fadd xl (dist_cols (S r) (S j))) (M (S r) (S j)).
    Proof.
      intros Hd Ha Hl. rewrite naive_cell_S_S. unfold min3.
      apply agree_std_min_drop_l; [| |apply big_step; auto].
      - apply agree_std_min_drop_r; [| |apply big_step; auto].
        + apply agree_add; auto using naive_cell_nonneg.
        + apply add_nonneg; auto using naive_cell_nonneg.
      - apply std_min_nonneg; apply add_nonneg; auto using naive_cell_nonneg.
    Qed.
  End Bound.
End KernelProof.


(** ** One line of the main loop *)

Section RowProof.
Context `{FloatLaws F}.
Variables nblines nbcols : nat.
Variables dist_lines dist_cols dist : nat → nat → F.
Hypothesis dist_lines_nonneg : ∀ i j, nonneg (dist_lines i j).
Hypothesis dist_cols_nonneg : ∀ i j, nonneg (dist_cols i j).
Hypothesis dist_nonneg : ∀ i j, nonneg (dist i j).
Variables cutoff ub : F.
Hypothesis ub_ok : ok ub.
Hypothesis cutoff_le_ub : le cutoff ub.

Abbreviation M := (naive_cell dist_lines dist_cols dist).
Abbreviation big := (big ub).
Abbreviation agree := (agree ub).

Lemma rd_insert_eq (buf : list F) k v : k < length buf → rd (<[k:=v]> buf) k = v.
Proof. intros Hk. unfold rd. by rewrite list_lookup_insert_eq. Qed.

Lemma rd_insert_ne (buf : list F) k k' v : k ≠ k' → rd (<[k:=v]> buf) k' = rd buf k'.
Proof. intros Hk. unfold rd. by rewrite list_lookup_insert_ne. Qed.

Lemma agree_test_false x y : agree x y → Fleb x ub = false → big y.
Proof.
  intros Ha Hf. eapply agree_big_l; [done|].
  apply nle_big; [done| |done]. eapply nonneg_ok, agree_nonneg_l, Ha.
Qed.

Lemma big_above_cutoff x : big x → Fleb x cutoff = false.
Proof.
  intros Hb. destruct (Fleb x cutoff) eqn:E; [|done].
  pose proof (leb_trans _ _ _ E cutoff_le_ub) as Hle.
  apply big_nle in Hb. unfold le in Hle. congruence.
Qed.

Lemma big_lt_cutoff x : big x → Fltb cutoff x = true.
Proof. intros Hb. eapply le_lt_trans; [exact cutoff_le_ub|exact Hb]. Qed.

(** The two halves of the double buffer. *)
Definition offsets (c p : nat) : Prop := (c = 0 ∧ p = nbcols) ∨ (c = nbcols ∧ p = 0).

(** What is known of line [r], stored at offset [c], once it is computed:
    the cells before [ns] and from [pp] on are above the bound, the cells
    in between are stored and agree with the naive ones. *)
Record line_inv (r c : nat) (buf : list F) (cost : F) (ns pp j : nat) : Prop := {
  li_len : length buf = nbcols * 2;
  li_ns : ns < pp;
  li_pp : pp ≤ j ≤ nbcols;
  li_lo : ∀ k, k < ns → big (M r k);
  li_mid : ∀ k, ns ≤ k < pp → agree (rd buf (c + k)) (M r k);
  li_hi : ∀ k, pp ≤ k < nbcols → big (M r k);
  li_last : j = nbcols → agree cost (M r (nbcols - 1))
}.

Section Row.
Variables r c p ns0 pp : nat.
Hypothesis Hoff : offsets c p.
Hypothesis Hns0 : ns0 < pp.
Hypothesis Hpp : pp ≤ nbcols.
Hypothesis Hlo : ∀ k, k < ns0 → big (M r k).
Hypothesis Hhi : ∀ k, pp ≤ k < nbcols → big (M r k).

(** What holds of line [S r], stored at offset [c], while it is computed
    from line [r], stored at offset [p]. *)
Record cur_inv (s : row_state F) : Prop := {
  ci_len : length (st_buffer s) = nbcols * 2;
  ci_prev : ∀ k, ns0 ≤ k < pp → agree (rd (st_buffer s) (p + k)) (M r k);
  ci_ns : ns0 ≤ st_next_start s ≤ st_j s;
  ci_j : ns0 < st_j s ≤ nbcols;
  ci_big : ∀ k, k < st_next_start s → big (M (S r) k);
  ci_cur : ∀ k, st_next_start s ≤ k < st_j s →
           agree (rd (st_buffer s) (c + k)) (M (S r) k);
  ci_cpp : st_curr_pp s ≤ st_j s;
  ci_cpp_big : ∀ k, st_curr_pp s ≤ k < st_j s → big (M (S r) k);
  ci_ns_cpp : st_next_start s < st_j s → st_next_start s < st_curr_pp s;
  ci_cost : agree (st_cost s) (M (S r) (st_j s - 1))
}.

Lemma off_ne k k' : k < nbcols → k' < nbcols → c + k ≠ p + k'.
Proof. destruct Hoff as [[? ?]|[? ?]]; lia. Qed.

Lemma off_lt k : k < nbcols → c + k < nbcols * 2.
Proof. destruct Hoff as [[? ?]|[? ?]]; lia. Qed.

Ltac buf_simpl :=
  repeat first
    [ rewrite rd_insert_eq by
        (rewrite ?length_insert;
         match goal with Hl : length _ = _ |- _ => rewrite Hl end; apply off_lt; lia)
    | rewrite rd_insert_ne by (first [lia | apply off_ne; lia]) ].

Ltac ci_fields :=
  constructor; cbn [st_buffer st_cost st_next_start st_curr_pp st_j];
  rewrite ?length_insert.

Lemma stage0_inv buf :
  length buf = nbcols * 2 →
  (∀ k, ns0 ≤ k < pp → agree (rd buf (p + k)) (M r k)) →
  cur_inv (stage0 dist_lines ub (S r) c p buf ns0).
Proof.
  intros Hlen Hprev. unfold stage0.
  assert (agree (Fadd (rd buf (p + ns0)) (dist_lines (S r) ns0)) (M (S r) ns0)) as Hcell.
  { apply cell_above_only; auto with lia. }
  set (cost := Fadd _ _) in *.
  pose proof (big_prefix_next _ _ _ dist_lines_nonneg dist_cols_nonneg dist_nonneg ub r ns0 Hlo)
    as Hlo'.
  destruct (Fleb cost ub) eqn:Htest; ci_fields; try lia; try done;
    try (intros k Hk; buf_simpl; auto with lia; fail);
    try (replace (ns0 + 1 - 1) with ns0 by lia; done).
  all: try (intros k Hk; destruct (decide (k = ns0)) as [->|]; [|lia || auto with lia];
            first [ buf_simpl; done | eapply agree_test_false; eauto ]).
Qed.

Lemma stage1_inv fuel : ∀ s,
  cur_inv s → st_j s ≤ pp → fuel = pp - st_j s →
  let s' := stage1 dist_lines dist ub fuel (S r) c p pp s in
  cur_inv s' ∧ st_j s' ≤ pp ∧ (st_next_start s' < st_j s' ∨ pp ≤ st_j s').
Proof.
  induction fuel as [|fuel IH]; intros s Hinv Hj Hfuel; cbn zeta.
  { cbn. split; [done|split; [done|right; lia]]. }
  cbn [stage1].
  destruct (Nat.eqb_spec (st_j s) (st_next_start s)) as [Heq|Hne]; cbn [andb];
    [destruct (Nat.ltb_spec (st_j s) pp) as [Hlt|Hge]|].
  2: { split; [done|split; [done|right; lia]]. }
  2: { split; [done|split; [done|left; destruct Hinv; lia]]. }
  destruct s as [buf cost ns cpp j]. destruct Hinv. cbn [st_buffer st_cost st_next_start st_curr_pp st_j] in *.
  subst ns. destruct j as [|j]; [lia|].
  replace (p + S j - 1) with (p + j) by lia.
  assert (agree (std_min (Fadd (rd buf (p + j)) (dist (S r) (S j)))
                         (Fadd (rd buf (p + S j)) (dist_lines (S r) (S j))))
                (M (S r) (S j))) as Hcell.
  { apply cell_diag_above; auto with lia. }
  set (cost' := std_min _ _) in *.
  apply IH; [|destruct (Fleb cost' ub); cbn; lia..].
  destruct (Fleb cost' ub) eqn:Htest; ci_fields; try lia; try done;
    try (intros k Hk; buf_simpl; auto with lia; fail);
    try (replace (S j + 1 - 1) with (S j) by lia; done).
  all: try (intros k Hk; destruct (decide (k = S j)) as [->|]; [|lia || auto with lia];
            first [ buf_simpl; done | eapply agree_test_false; eauto ]).
Qed.

Lemma stage2_inv fuel : ∀ s,
  cur_inv s → st_j s ≤ pp → (st_next_start s < st_j s ∨ pp ≤ st_j s) →
  fuel = pp - st_j s →
  let s' := stage2 dist_lines dist_cols dist ub fuel (S r) c p pp s in
  cur_inv s' ∧ st_j s' = pp ∧ (st_next_start s' < st_j s' ∨ st_next_start s' = st_next_start s).
Proof.
  induction fuel as [|fuel IH]; intros s Hinv Hj Hns Hfuel; cbn zeta.
  { cbn. split; [done|split; [lia|by right]]. }
  cbn [stage2].
  destruct (Nat.ltb_spec (st_j s) pp) as [Hlt|Hge]; [|lia].
  destruct s as [buf cost ns cpp j]. destruct Hinv. cbn [st_buffer st_cost st_next_start st_curr_pp st_j] in *.
  destruct j as [|j]; [lia|].
  replace (p + S j - 1) with (p + j) by lia.
  replace (S j - 1) with j in * by lia.
  assert (ns < S j) as Hnsj by lia.
  assert (agree (min3 (Fadd (rd buf (p + j)) (dist (S r) (S j)))
                      (Fadd cost (dist_cols (S r) (S j)))
                      (Fadd (rd buf (p + S j)) (dist_lines (S r) (S j))))
                (M (S r) (S j))) as Hcell.
  { apply cell_all; auto with lia. }
  set (cost' := min3 _ _ _) in *.
  match goal with |- context [stage2 _ _ _ _ _ _ _ _ _ ?st] => specialize (IH st) end.
  cbn [st_buffer st_cost st_next_start st_curr_pp st_j] in IH.
  destruct IH as (IH1 & IH2 & IH3); [|lia|lia|lia|].
  2: { split; [done|]. split; [done|]. left. destruct IH3; lia. }
  ci_fields; try lia; try done;
    try (intros k Hk; buf_simpl; auto with lia; fail);
    try (replace (S j + 1 - 1) with (S j) by lia; done).
  - intros k Hk. destruct (decide (k = S j)) as [->|]; buf_simpl; auto with lia.
  - destruct (Fleb cost' ub); lia.
  - intros k Hk. destruct (Fleb cost' ub) eqn:Htest; [lia|].
    destruct (decide (k = S j)) as [->|]; [|auto with lia].
    eapply agree_test_false; eauto.
  - intros _. destruct (Fleb cost' ub); lia.
Qed.

Lemma stage3_inv s :
  cur_inv s → st_j s = pp →
  match stage3 nblines nbcols dist_cols dist cutoff ub (S r) c p s with
  | Return v => v = PINF ∧ ∀ k, k < nbcols → big (M (S r) k)
  | Continue s' =>
      cur_inv s' ∧ (pp < st_j s' ∨ st_j s' = nbcols) ∧ st_next_start s' < st_j s'
  end.
Proof.
  intros Hinv Hj. unfold stage3.
  destruct s as [buf cost ns cpp j]. destruct Hinv.
  cbn [st_buffer st_cost st_next_start st_curr_pp st_j] in *.
  destruct (Nat.ltb_spec j nbcols) as [Hlt|Hge];
    destruct (Nat.eqb_spec j ns) as [Heq|Hne].
  - (* advancing next_start: only the diagonal *)
    subst ns. destruct j as [|j]; [lia|].
    replace (p + S j - 1) with (p + j) by lia.
    replace (S j - 1) with j in * by lia.
    assert (agree (Fadd (rd buf (p + j)) (dist (S r) (S j))) (M (S r) (S j))) as Hcell.
    { apply cell_diag_only; auto with lia. }
    set (cost' := Fadd _ _) in *.
    destruct (Fleb cost' ub) eqn:Htest.
    + split; [|cbn; lia]. ci_fields; try lia; try done;
        try (intros k Hk; buf_simpl; auto with lia; fail);
        try (replace (S j + 1 - 1) with (S j) by lia; done).
      intros k Hk. replace k with (S j) by lia. by buf_simpl.
    + assert (big (M (S r) (S j))) as Hbig by (eapply agree_test_false; eauto).
      assert (Fleb cost' cutoff = false) as ->.
      { apply big_above_cutoff. eapply agree_big_r; eauto. }
      rewrite andb_false_r. split; [done|].
      intros k Hk. destruct (decide (k < S j)); [auto|].
      eapply (big_suffix _ _ _ dist_lines_nonneg dist_cols_nonneg dist_nonneg ub r pp nbcols (S j));
        auto with lia.
  - (* left and diagonal *)
    assert (ns < j) as Hnsj by lia.
    destruct j as [|j]; [lia|].
    replace (p + S j - 1) with (p + j) by lia.
    replace (S j - 1) with j in * by lia.
    assert (agree (std_min (Fadd (rd buf (p + j)) (dist (S r) (S j)))
                           (Fadd cost (dist_cols (S r) (S j))))
                  (M (S r) (S j))) as Hcell.
    { apply cell_diag_left; auto with lia. }
    set (cost' := std_min _ _) in *.
    split; [|cbn; lia]. ci_fields; try lia; try done;
      try (intros k Hk; buf_simpl; auto with lia; fail);
      try (replace (S j + 1 - 1) with (S j) by lia; done).
    + intros k Hk. destruct (decide (k = S j)) as [->|]; buf_simpl; auto with lia.
    + destruct (Fleb cost' ub); lia.
    + intros k Hk. destruct (Fleb cost' ub) eqn:Htest; [lia|].
      destruct (decide (k = S j)) as [->|]; [|auto with lia].
      eapply agree_test_false; eauto.
    + intros _. destruct (Fleb cost' ub); lia.
  - (* the whole line is above the bound *)
    subst ns. assert (j = nbcols) as Hjn by lia.
    assert (big cost) as Hbig.
    { eapply agree_big_r; [done|]. apply ci_big0. lia. }
    rewrite (big_lt_cutoff _ Hbig). split; [done|].
    intros k Hk. apply ci_big0. lia.
  - split; [|cbn; lia]. constructor; cbn [st_buffer st_cost st_next_start st_curr_pp st_j]; done.
Qed.

Lemma stage4_inv fuel : ∀ s,
  cur_inv s → (pp < st_j s ∨ st_j s = nbcols) → st_next_start s < st_j s →
  fuel = nbcols - st_j s →
  let s' := stage4 nbcols dist_cols ub fuel (S r) c s in
  cur_inv s' ∧ st_next_start s' < st_j s' ∧
  (∀ k, st_curr_pp s' ≤ k < nbcols → big (M (S r) k)).
Proof.
  induction fuel as [|fuel IH]; intros s Hinv Hj Hns Hfuel; cbn zeta.
  { cbn [stage4]. split; [done|split; [done|]]. intros k Hk.
    apply (ci_cpp_big _ Hinv). destruct Hinv. lia. }
  cbn [stage4].
  destruct (Nat.eqb_spec (st_j s) (st_curr_pp s)) as [Heq|Hne]; cbn [andb];
    [destruct (Nat.ltb_spec (st_j s) nbcols) as [Hlt|Hge]; [|lia]|].
  2: { split; [done|split; [done|]]. intros k Hk.
       destruct Hinv. destruct (decide (k < st_j s)); [auto with lia|].
       eapply (big_suffix _ _ _ dist_lines_nonneg dist_cols_nonneg dist_nonneg ub r pp nbcols
                 (st_j s - 1)); auto with lia. }
  destruct s as [buf cost ns cpp j]. destruct Hinv.
  cbn [st_buffer st_cost st_next_start st_curr_pp st_j] in *. subst cpp.
  destruct j as [|j]; [lia|].
  replace (S j - 1) with j in * by lia.
  assert (agree (Fadd cost (dist_cols (S r) (S j))) (M (S r) (S j))) as Hcell.
  { apply cell_left_only; auto with lia. }
  set (cost' := Fadd _ _) in *.
  apply IH; cbn [st_buffer st_cost st_next_start st_curr_pp st_j]; [|lia..].
  ci_fields; try lia; try done;
    try (intros k Hk; buf_simpl; auto with lia; fail);
    try (replace (S j + 1 - 1) with (S j) by lia; done).
  - intros k Hk. destruct (decide (k = S j)) as [->|]; buf_simpl; auto with lia.
  - destruct (Fleb cost' ub); lia.
  - intros k Hk. destruct (Fleb cost' ub) eqn:Htest; [lia|].
    replace k with (S j) by lia. eapply agree_test_false; eauto.
  - intros _. destruct (Fleb cost' ub); lia.
Qed.

Lemma msm_row_inv buf :
  length buf = nbcols * 2 →
  (∀ k, ns0 ≤ k < pp → agree (rd buf (p + k)) (M r k)) →
  match msm_row nblines nbcols dist_lines dist_cols dist cutoff ub (S r) c p buf ns0 pp with
  | Return v => v = PINF ∧ ∀ k, k < nbcols → big (M (S r) k)
  | Continue s =>
      line_inv (S r) c (st_buffer s) (st_cost s) (st_next_start s) (st_curr_pp s) (st_j s)
  end.
Proof.
  intros Hlen Hprev. unfold msm_row.
  pose proof (stage0_inv buf Hlen Hprev) as I0.
  set (s0 := stage0 _ _ _ _ _ _ _) in *.
  assert (st_j s0 ≤ pp) as Hj0.
  { subst s0. unfold stage0. destruct (Fleb _ ub); cbn; lia. }
  destruct (stage1_inv (pp - st_j s0) s0 I0 Hj0 eq_refl) as (I1 & Hj1 & Hns1).
  set (s1 := stage1 _ _ _ _ _ _ _ _ _) in *.
  destruct (stage2_inv (pp - st_j s1) s1 I1 Hj1 Hns1 eq_refl) as (I2 & Hj2 & _).
  set (s2 := stage2 _ _ _ _ _ _ _ _ _ _) in *.
  pose proof (stage3_inv s2 I2 Hj2) as I3.
  destruct (stage3 _ _ _ _ _ _ _ _ _ s2) as [v|s3]; [done|].
  destruct I3 as (I3 & Hj3 & Hns3).
  destruct (stage4_inv (nbcols - st_j s3) s3 I3 Hj3 Hns3 eq_refl) as (I4 & Hns4 & Hhi4).
  set (s4 := stage4 _ _ _ _ _ _ _) in *.
  destruct I4. constructor; auto with lia.
  intros Hn. by rewrite <- Hn.
Qed.

End Row.

Hypothesis nbcols_pos : 0 < nbcols.

Lemma offsets_sym c p : offsets c p → offsets p c.
Proof. unfold offsets. tauto. Qed.

Lemma big_contract x : big x → eap_contract x cutoff = PINF.
Proof. intros Hb. unfold eap_contract. by rewrite big_above_cutoff. Qed.

Lemma main_loop_correct fuel : ∀ r c p buf cost ns pp j,
  fuel + S r = nblines →
  offsets c p →
  line_inv r c buf cost ns pp j →
  main_loop nblines nbcols dist_lines dist_cols dist cutoff ub fuel (S r) c p buf cost ns pp j
  = eap_contract (M (nblines - 1) (nbcols - 1)) cutoff.
Proof.
  induction fuel as [|fuel IH]; intros r c p buf cost ns pp j Hfuel Hoff Hinv.
  - cbn [main_loop]. replace (nblines - 1) with r by lia. destruct Hinv.
    destruct (Nat.eqb_spec j nbcols) as [Hj|Hj]; cbn [andb].
    + destruct (li_last0 Hj) as [_ [-> | [Hb1 Hb2]]]; [done|].
      rewrite (big_above_cutoff _ Hb1). by rewrite big_contract.
    + rewrite big_contract; [done|]. apply li_hi0. lia.
  - cbn [main_loop]. destruct Hinv.
    pose proof (msm_row_inv r p c ns pp (offsets_sym _ _ Hoff) li_ns0 ltac:(lia) li_lo0 li_hi0
                  buf li_len0 li_mid0) as Hrow.
    destruct (msm_row _ _ _ _ _ _ _ _ _ _ _ _ _) as [v|s].
    + destruct Hrow as [-> Hbig]. rewrite big_contract; [done|].
      replace (nblines - 1) with (fuel + S r) by lia.
      apply big_prefix_rows with (n := nbcols); auto with lia.
    + apply IH; [lia|by apply offsets_sym|done].
Qed.

Lemma first_line_big j : big (M 0 j) → ∀ k, j ≤ k → big (M 0 k).
Proof.
  intros Hj k. induction k as [|k IHk]; intros Hk.
  - by assert (j = 0) as -> by lia.
  - destruct (decide (j = S k)) as [<-|]; [done|].
    rewrite naive_cell_0_S. apply big_step; auto with lia.
Qed.

Lemma big_everywhere : big (M 0 0) → ∀ i j, big (M i j).
Proof.
  intros H00 i j. replace i with (i + 0) by lia.
  apply big_prefix_rows with (n := S j); auto with lia.
  intros k _. apply first_line_big with (j := 0); auto with lia.
Qed.

Lemma first_line_inv fuel : ∀ j buf cost buf' cost' pp' j',
  fuel = nbcols - j → 1 ≤ j ≤ nbcols →
  length buf = nbcols * 2 →
  (∀ k, k < j → rd buf k = M 0 k) →
  cost = M 0 (j - 1) →
  first_line dist_cols ub fuel 0 j buf cost j = (buf', cost', pp', j') →
  line_inv 0 0 buf' cost' 0 pp' j'.
Proof.
  induction fuel as [|fuel IH]; intros j buf cost buf' cost' pp' j' Hfuel Hj Hlen Hbuf Hcost;
    cbn [first_line].
  - intros [= <- <- <- <-]. constructor; try lia; try done.
    + intros k Hk. cbn [Nat.add]. rewrite Hbuf by lia. apply agree_refl, naive_cell_nonneg; done.
    + intros Hn. rewrite Hcost, Hn. apply agree_refl, naive_cell_nonneg; done.
  - destruct j as [|j]; [lia|]. replace (S j - 1) with j in Hcost by lia.
    cbn [Nat.add]. subst cost. rewrite <- naive_cell_0_S.
    destruct (Fleb (M 0 (S j)) ub) eqn:Htest.
    + apply IH; rewrite ?length_insert; try lia.
      * intros k Hk. destruct (decide (k = S j)) as [->|].
        -- rewrite rd_insert_eq; [done|lia].
        -- rewrite rd_insert_ne by lia. apply Hbuf. lia.
      * by replace (S (S j) - 1) with (S j) by lia.
    + intros [= <- <- <- <-]. constructor; rewrite ?length_insert; try lia; try done.
      * intros k Hk. cbn [Nat.add]. rewrite rd_insert_ne by lia. rewrite Hbuf by lia.
        apply agree_refl, naive_cell_nonneg; done.
      * intros k Hk. apply first_line_big with (j := S j); [|lia].
        apply nle_big; [done| |done]. apply naive_cell_ok; done.
Qed.

(** The kernel, given a bound [ub] that is not below the cutoff. *)
Lemma internal_msm_good_ub buffer_v :
  0 < nblines →
  msm_ub nblines nbcols dist_lines dist_cols dist cutoff = ub →
  internal_msm nblines nbcols dist_lines dist_cols dist cutoff buffer_v
  = eap_contract (M (nblines - 1) (nbcols - 1)) cutoff.
Proof.
  intros Hnl Hub. unfold internal_msm. rewrite Hub. cbn zeta.
  change (dist 0 0) with (M 0 0).
  destruct (Fleb (M 0 0) ub) eqn:Htest.
  - destruct (first_line _ _ _ _ _ _ _ _) as [[[buf' cost'] pp'] j'] eqn:Hfl.
    apply first_line_inv in Hfl; unfold assign; rewrite ?length_insert, ?length_replicate;
      try lia; try done.
    + destruct (decide (nblines = 1)) as [E1|E1].
      * (* a single line *)
        replace (nblines - 1) with 0 by lia.
        cbn [main_loop]. destruct Hfl.
        destruct (Nat.eqb_spec j' nbcols) as [Hj|Hj]; cbn [andb].
        -- destruct (li_last0 Hj) as [_ [-> | [Hb1 Hb2]]]; [done|].
           rewrite (big_above_cutoff _ Hb1). by rewrite big_contract.
        -- rewrite big_contract; [done|]. apply li_hi0. lia.
      * apply main_loop_correct; [lia|left; lia|done].
    + intros k Hk. replace k with 0 by lia. rewrite rd_insert_eq; [done|].
      rewrite length_replicate. lia.
  - rewrite big_contract; [done|]. apply big_everywhere.
    apply nle_big; [done| |done]. apply naive_cell_ok; done.
Qed.

End RowProof.

(** ** The bound [ub], the diagonal cutoff, and the public function *)

Section MsmCorrect.
Context `{FloatLaws F}.
Variables dist_lines dist_cols dist : nat → nat → F.
Hypothesis dist_lines_nonneg : ∀ i j, nonneg (dist_lines i j).
Hypothesis dist_cols_nonneg : ∀ i j, nonneg (dist_cols i j).
Hypothesis dist_nonneg : ∀ i j, nonneg (dist i j).

Abbreviation N := (naive_cell dist_lines dist_cols dist).

Lemma min3_pinf (a b c : F) :
  ok a → ok b → ok c → min3 a b c = PINF → a = PINF ∧ b = PINF ∧ c = PINF.
Proof.
  intros Ha Hb Hc Hm.
  pose proof (min3_le_1 a b c Ha Hb Hc) as H1.
  pose proof (min3_le_2 a b c Ha Hb Hc) as H2.
  pose proof (min3_le_3 a b c Ha Hb Hc) as H3.
  rewrite Hm in H1, H2, H3. auto using le_pinf_eq.
Qed.

Lemma add_pinf (x : F) : nonneg x → Fadd x PINF = PINF.
Proof.
  intros Hx. apply le_pinf_eq, add_incr_r; [done|]. apply pinf_top, zero_ok.
Qed.

Lemma contract_pinf (cutoff : F) : eap_contract PINF cutoff = PINF.
Proof. unfold eap_contract. by destruct (Fleb PINF cutoff). Qed.

(** When the three steps into the last cell are infinite, so is the cell. *)
Lemma last_cell_pinf i j :
  min3 (dist i (S j)) (dist_cols i (S j)) (dist_lines i (S j)) = PINF →
  N i (S j) = PINF.
Proof.
  intros Hla. apply min3_pinf in Hla as (Hd & Hc & Hl); try (by apply nonneg_ok).
  destruct i as [|i].
  - rewrite naive_cell_0_S, Hc. apply add_pinf, naive_cell_nonneg; done.
  - rewrite naive_cell_S_S, Hd, Hc, Hl.
    rewrite !add_pinf by (apply naive_cell_nonneg; done).
    unfold min3. by destruct (std_min_cases PINF PINF) as [-> | ->];
      destruct (std_min_cases PINF PINF) as [-> | ->].
Qed.

(** [internal::msm] satisfies the contract of the skeleton. *)
Lemma internal_msm_correct nblines nbcols cutoff buffer_v :
  0 < nblines → 0 < nbcols → ok cutoff →
  internal_msm nblines nbcols dist_lines dist_cols dist cutoff buffer_v
  = eap_contract (N (nblines - 1) (nbcols - 1)) cutoff.
Proof.
  intros Hnl Hnc Hcut.
  pose proof (eq_refl (msm_ub nblines nbcols dist_lines dist_cols dist cutoff)) as Hub.
  unfold msm_ub in Hub at 2.
  destruct (Nat.leb_spec 2 nbcols) as [H2|H2].
  - cbn zeta in Hub.
    set (la := min3 _ _ _) in Hub.
    assert (nonneg la) as Hla by (apply min3_nonneg; done).
    destruct (Fltb la PINF) eqn:Hfin.
    + rewrite sub_pinf_fin in Hub by done.
      eapply internal_msm_good_ub with (ub := nextafter cutoff PINF); try done.
      * eapply leb_ok_r. by apply nextafter_up.
      * by apply nextafter_up.
    + assert (la = PINF) as Hinf.
      { apply le_pinf_eq, nlt_le; [by apply nonneg_ok|apply pinf_ok|done]. }
      rewrite Hinf in Hub.
      assert (N (nblines - 1) (nbcols - 1) = PINF) as ->.
      { replace (nbcols - 1) with (S (nbcols - 2)) by lia. apply last_cell_pinf.
        replace (S (nbcols - 2)) with (nbcols - 1) by lia. exact Hinf. }
      rewrite contract_pinf. unfold internal_msm. rewrite Hub. cbn zeta.
      destruct (Fleb (dist 0 0) _) eqn:Htest; [|done].
      apply leb_ok_r in Htest. exfalso. revert Htest.
      apply nextafter_nan, sub_pinf_pinf.
  - eapply internal_msm_good_ub with (ub := cutoff); try done.
Qed.

(** The cutoff computed along the diagonal is the cost of a path: the
    naive value cannot exceed it. *)
Lemma diagonal_bound m :
  let diag := fold_left (λ ub i, Fadd ub (dist i i)) (seq 0 (S m)) Fzero in
  nonneg diag ∧ le (N m m) diag.
Proof.
  induction m as [|m [IH1 IH2]]; cbn zeta.
  - cbn. split.
    + apply add_nonneg; [apply zero_ok|done].
    + apply add_incr_r; [apply zero_ok|done].
  - rewrite seq_S, fold_left_app. cbn [fold_left Nat.add]. split.
    + by apply add_nonneg.
    + eapply leb_trans; [apply naive_cell_diag; done|].
      apply add_mono_l; [apply naive_cell_nonneg; done|done..].
Qed.

Lemma extend_cols i n : ∀ j acc,
  le (N i j) acc →
  le (N i (j + n)) (fold_left (λ ub k, Fadd ub (dist_cols i k)) (seq (S j) n) acc).
Proof.
  induction n as [|n IH]; intros j acc Hacc.
  - by rewrite Nat.add_0_r.
  - cbn [seq fold_left]. replace (j + S n) with (S j + n) by lia. apply IH.
    eapply leb_trans; [apply naive_cell_left; done|].
    apply add_mono_l; [apply naive_cell_nonneg; done|done..].
Qed.

Lemma extend_lines j n : ∀ i acc,
  le (N i j) acc →
  le (N (i + n) j) (fold_left (λ ub k, Fadd ub (dist_lines k j)) (seq (S i) n) acc).
Proof.
  induction n as [|n IH]; intros i acc Hacc.
  - by rewrite Nat.add_0_r.
  - cbn [seq fold_left]. replace (i + S n) with (S i + n) by lia. apply IH.
    eapply leb_trans; [apply naive_cell_above; done|].
    apply add_mono_l; [apply naive_cell_nonneg; done|done..].
Qed.

Lemma diagonal_ub_admissible nblines nbcols :
  0 < nblines → 0 < nbcols →
  le (N (nblines - 1) (nbcols - 1)) (diagonal_ub nblines nbcols dist_lines dist_cols dist).
Proof.
  intros Hnl Hnc. unfold diagonal_ub.
  destruct nblines as [|m]; [lia|]. destruct nbcols as [|n]; [lia|].
  replace (S m - 1) with m by lia. replace (S n - 1) with n by lia.
  destruct (Nat.ltb_spec (S m) (S n)) as [Hlt|Hge];
    [|destruct (Nat.ltb_spec (S n) (S m)) as [Hlt|Hge']].
  - rewrite Nat.min_l by lia.
    replace n with (m + (S n - S m)) at 1 by lia.
    apply extend_cols, diagonal_bound.
  - rewrite Nat.min_r by lia.
    replace m with (n + (S m - S n)) at 1 by lia.
    apply extend_lines, diagonal_bound.
  - assert (m = n) as -> by lia. rewrite Nat.min_id.
    apply diagonal_bound.
Qed.

Lemma contract_le (v cutoff : F) : le v cutoff → eap_contract v cutoff = v.
Proof. intros Hle. unfold eap_contract. by rewrite Hle. Qed.

Lemma contract_cases (v cutoff : F) :
  eap_contract v cutoff = v ∨ eap_contract v cutoff = PINF.
Proof. unfold eap_contract. destruct (Fleb v cutoff); auto. Qed.

(** [msm] on two non-empty series: the naive value when the bound is
    infinite or NaN, the contract of the skeleton otherwise. *)
Lemma msm_nonempty nblines nbcols ub buffer_v :
  0 < nblines → 0 < nbcols →
  msm nblines nbcols dist_lines dist_cols dist ub buffer_v =
    if isinf ub || isnan ub
    then naive_msm nblines nbcols dist_lines dist_cols dist
    else eap_contract (naive_msm nblines nbcols dist_lines dist_cols dist) ub.
Proof.
  intros Hnl Hnc. unfold msm, naive_msm.
  destruct nblines as [|i]; [lia|]. destruct nbcols as [|j]; [lia|].
  cbn [Nat.eqb andb eqb negb].
  pose proof (diagonal_ub_admissible (S i) (S j) Hnl Hnc) as Hdiag.
  replace (S i - 1) with i in Hdiag by lia. replace (S j - 1) with j in Hdiag by lia.
  destruct (isinf ub) eqn:Hinf; cbn [orb].
  - rewrite internal_msm_correct; [|lia..|by eapply leb_ok_r].
    replace (S i - 1) with i by lia. replace (S j - 1) with j by lia.
    by apply contract_le.
  - destruct (isnan ub) eqn:Hnan.
    + rewrite internal_msm_correct; [|lia..|apply pinf_ok].
      replace (S i - 1) with i by lia. replace (S j - 1) with j by lia.
      apply contract_le, pinf_top, naive_cell_ok; done.
    + rewrite internal_msm_correct; [|lia..|].
      * by replace (S i - 1) with i by lia; replace (S j - 1) with j by lia.
      * rewrite isnan_spec in Hnan. unfold ok. by destruct (Fleb ub ub).
Qed.

(** [msm] returns the naive value or [+∞], whatever the bound. *)
Lemma msm_sound nblines nbcols ub buffer_v :
  msm nblines nbcols dist_lines dist_cols dist ub buffer_v
    = naive_msm nblines nbcols dist_lines dist_cols dist
  ∨ msm nblines nbcols dist_lines dist_cols dist ub buffer_v = PINF.
Proof.
  destruct (decide (0 < nblines ∧ 0 < nbcols)) as [[Hnl Hnc]|Hz].
  - rewrite msm_nonempty by done.
    destruct (isinf ub || isnan ub); [by left|apply contract_cases].
  - left. unfold msm, naive_msm.
    destruct nblines as [|i], nbcols as [|j]; try done. lia.
Qed.

(** [msm] returns the naive value whenever it is within the bound. *)
Lemma msm_complete nblines nbcols ub buffer_v :
  le (naive_msm nblines nbcols dist_lines dist_cols dist) ub →
  msm nblines nbcols dist_lines dist_cols dist ub buffer_v
    = naive_msm nblines nbcols dist_lines dist_cols dist.
Proof.
  intros Hle.
  destruct (decide (0 < nblines ∧ 0 < nbcols)) as [[Hnl Hnc]|Hz].
  - rewrite msm_nonempty by done.
    destruct (isinf ub || isnan ub); [done|by apply contract_le].
  - unfold msm, naive_msm.
    destruct nblines as [|i], nbcols as [|j]; try done. lia.
Qed.

Lemma msm_no_cutoff nblines nbcols buffer_v :
  msm nblines nbcols dist_lines dist_cols dist PINF buffer_v
    = naive_msm nblines nbcols dist_lines dist_cols dist.
Proof.
  destruct (decide (0 < nblines ∧ 0 < nbcols)) as [[Hnl Hnc]|Hz].
  - rewrite msm_nonempty by done. by rewrite isinf_pinf.
  - unfold msm, naive_msm.
    destruct nblines as [|i], nbcols as [|j]; try done. lia.
Qed.

End MsmCorrect.

(* ===================================================================== *)
(** * The univariate MSM distance *)
(* ===================================================================== *)

Section Univariate.
Context `{FloatLaws F}.
Implicit Types lines cols X Y : list F.

Lemma rd_finite X k : Forall finite X → finite (rd X k).
Proof.
  intros HX. unfold rd. destruct (X !! k) as [x|] eqn:Hk; cbn.
  - eapply Forall_lookup_1; eauto.
  - apply zero_finite.
Qed.

Lemma abs_sub_nonneg (x y : F) : finite x → finite y → nonneg (Fabs (Fsub x y)).
Proof. intros Hx Hy. by apply abs_nonneg, sub_finite_ok. Qed.

Lemma ad1_nonneg lines cols i j :
  Forall finite lines → Forall finite cols → nonneg (ad1 lines cols i j).
Proof. intros Hl Hc. unfold ad1. apply abs_sub_nonneg; by apply rd_finite. Qed.

Lemma msm_cost_ad1_nonneg X xnew_ xi_ Y yj_ c :
  Forall finite X → Forall finite Y → nonneg c →
  nonneg (_msm_cost_ad1 X xnew_ xi_ Y yj_ c).
Proof.
  intros HX HY Hc. unfold _msm_cost_ad1. cbn zeta.
  destruct (_ || _); [done|].
  apply add_nonneg; [done|].
  apply std_min_nonneg; apply abs_sub_nonneg; by apply rd_finite.
Qed.

Lemma msm_lines_ad1_nonneg lines cols c i j :
  Forall finite lines → Forall finite cols → nonneg c →
  nonneg (msm_lines_ad1 lines cols c i j).
Proof. intros. unfold msm_lines_ad1. by apply msm_cost_ad1_nonneg. Qed.

Lemma msm_cols_ad1_nonneg lines cols c i j :
  Forall finite lines → Forall finite cols → nonneg c →
  nonneg (msm_cols_ad1 lines cols c i j).
Proof. intros. unfold msm_cols_ad1. by apply msm_cost_ad1_nonneg. Qed.


Lemma nonneg_not_lt_zero (x : F) : nonneg x → Fltb x Fzero = false.
Proof.
  intros Hx. destruct (Fltb x Fzero) eqn:E; [|done].
  apply lt_nle in E. unfold nonneg, le in Hx. congruence.
Qed.




End Univariate.

(* ===================================================================== *)
(** * Properties of the MSM kernel *)
(* ===================================================================== *)

(** C1 (EAP equivalence).  For finite (hence NaN-free) series [A] and [B],
    the columns no longer than the lines as the kernel requires, and a
    non-negative split/merge cost, the MSM distance without cutoff ([+∞])
    is the value of the naive full-matrix dynamic program, the very same
    floating point value, and with any cutoff whatsoever it is either that
    value or [+∞]. *)
Theorem msm_eap_equivalence `{FloatLaws F} (A B : list F) (c : F) :
  Forall finite A → Forall finite B → nonneg c → length B ≤ length A →
  let naive_dp :=
    naive_msm (length A) (length B) (msm_lines_ad1 A B c) (msm_cols_ad1 A B c) (ad1 A B) in
  univariate_msm A B c PINF = naive_dp ∧
  ∀ cutoff, univariate_msm A B c cutoff = naive_dp ∨ univariate_msm A B c cutoff = PINF.
Proof.
  intros HA HB Hc _ naive_dp. unfold univariate_msm, msm_nobuffer. cbn zeta. split.
  - apply msm_no_cutoff; auto using ad1_nonneg, msm_lines_ad1_nonneg, msm_cols_ad1_nonneg.
  - intros cutoff.
    apply msm_sound; auto using ad1_nonneg, msm_lines_ad1_nonneg, msm_cols_ad1_nonneg.
Qed.

Lemma msm_eap_equivalence_witness :
  let A := [ZF.Fin 1; ZF.Fin 5; ZF.Fin 2] in
  let B := [ZF.Fin 2; ZF.Fin 2] in
  let c := ZF.Fin 1 in
  let naive_dp :=
    naive_msm (length A) (length B) (msm_lines_ad1 A B c) (msm_cols_ad1 A B c) (ad1 A B) in
  univariate_msm A B c PINF = naive_dp ∧
  ∀ cutoff, univariate_msm A B c cutoff = naive_dp ∨ univariate_msm A B c cutoff = PINF.
Proof.
  apply (msm_eap_equivalence [ZF.Fin 1; ZF.Fin 5; ZF.Fin 2] [ZF.Fin 2; ZF.Fin 2] (ZF.Fin 1));
    [repeat constructor..|cbn; lia].
Defined.

(** C3 (monotone in the upper bound).  For finite series within the
    precondition of the kernel and two bounds [ub1 ≤ ub2], if both calls
    return a finite value (not [+∞]) the two values are equal; and unless
    [ub1] is an infinity, the tighter call returns the same value as the
    looser one or [+∞]. *)
Theorem msm_monotone_in_ub `{FloatLaws F} (A B : list F) (c ub1 ub2 : F) :
  Forall finite A → Forall finite B → nonneg c → length B ≤ length A →
  le ub1 ub2 →
  (univariate_msm A B c ub1 ≠ PINF → univariate_msm A B c ub2 ≠ PINF →
   univariate_msm A B c ub1 = univariate_msm A B c ub2) ∧
  (isinf ub1 = false →
   univariate_msm A B c ub1 = univariate_msm A B c ub2 ∨ univariate_msm A B c ub1 = PINF).
Proof.
  intros HA HB Hc _ Hle. unfold univariate_msm, msm_nobuffer. cbn zeta.
  set (dl := msm_lines_ad1 A B c). set (dc := msm_cols_ad1 A B c). set (d := ad1 A B).
  assert (∀ i j, nonneg (dl i j)) as Hdl by (intros; by apply msm_lines_ad1_nonneg).
  assert (∀ i j, nonneg (dc i j)) as Hdc by (intros; by apply msm_cols_ad1_nonneg).
  assert (∀ i j, nonneg (d i j)) as Hd by (intros; by apply ad1_nonneg).
  split.
  - intros H1 H2.
    destruct (msm_sound dl dc d Hdl Hdc Hd (length A) (length B) ub1 []) as [E1|E1]; [|done].
    destruct (msm_sound dl dc d Hdl Hdc Hd (length A) (length B) ub2 []) as [E2|E2]; [|done].
    congruence.
  - intros Hinf.
    destruct (decide (0 < length A ∧ 0 < length B)) as [[HnA HnB]|Hz].
    + rewrite (msm_nonempty dl dc d Hdl Hdc Hd (length A) (length B) ub1) by done.
      rewrite Hinf. cbn [orb].
      assert (isnan ub1 = false) as ->.
      { rewrite isnan_spec. apply leb_ok_l in Hle. unfold ok in Hle. by rewrite Hle. }
      unfold eap_contract.
      destruct (Fleb (naive_msm (length A) (length B) dl dc d) ub1) eqn:E; [|by right].
      left. symmetry. apply msm_complete; [done..|]. by eapply leb_trans.
    + left. unfold msm.
      destruct (length A) as [|i], (length B) as [|j]; try done. lia.
Qed.

Lemma msm_monotone_in_ub_witness :
  let A := [ZF.Fin 1; ZF.Fin 5; ZF.Fin 2] in
  let B := [ZF.Fin 2; ZF.Fin 2] in
  let c := ZF.Fin 1 in
  let ub1 := ZF.Fin 3 in
  let ub2 := ZF.Fin 7 in
  (univariate_msm A B c ub1 ≠ PINF → univariate_msm A B c ub2 ≠ PINF →
   univariate_msm A B c ub1 = univariate_msm A B c ub2) ∧
  (isinf ub1 = false →
   univariate_msm A B c ub1 = univariate_msm A B c ub2 ∨ univariate_msm A B c ub1 = PINF).
Proof.
  apply (msm_monotone_in_ub [ZF.Fin 1; ZF.Fin 5; ZF.Fin 2] [ZF.Fin 2; ZF.Fin 2]
           (ZF.Fin 1) (ZF.Fin 3) (ZF.Fin 7));
    [repeat constructor..|cbn; lia|reflexivity].
Defined.

(** C10 (the scratch buffer).  The result of [msm], and of [internal::msm],
    does not depend on what the caller's buffer holds: the kernel drops
    the incoming contents ([assign]) before its first read.  The helper
    without buffer therefore returns the same value. *)
Theorem msm_buffer_independent `{Float F} (nblines nbcols : nat)
    (dist_lines dist_cols dist : nat → nat → F) (ub : F) (v1 v2 : list F) :
  internal_msm nblines nbcols dist_lines dist_cols dist ub v1
    = internal_msm nblines nbcols dist_lines dist_cols dist ub v2 ∧
  msm nblines nbcols dist_lines dist_cols dist ub v1
    = msm nblines nbcols dist_lines dist_cols dist ub v2 ∧
  msm nblines nbcols dist_lines dist_cols dist ub v1
    = msm_nobuffer nblines nbcols dist_lines dist_cols dist ub.
Proof.
  assert (∀ cutoff v v',
    internal_msm nblines nbcols dist_lines dist_cols dist cutoff v
    = internal_msm nblines nbcols dist_lines dist_cols dist cutoff v') as Hint.
  { intros cutoff v v'. unfold internal_msm, assign. reflexivity. }
  split; [apply Hint|]. unfold msm_nobuffer, msm. cbn zeta.
  split; repeat (destruct (_ : bool); try reflexivity); apply Hint.
Qed.

(** With a finite best step into the last cell, the bound computed by the
    [initBlock] is the neighbour of the cutoff towards [+∞]: the step is
    subtracted from the direction argument of [nextafter], not from its
    result. *)
Lemma msm_ub_finite_step `{FloatLaws F} (nblines nbcols : nat)
    (dist_lines dist_cols dist : nat → nat → F) (cutoff : F) :
  2 ≤ nbcols →
  let la := min3 (dist (nblines - 1) (nbcols - 1)) (dist_cols (nblines - 1) (nbcols - 1))
                 (dist_lines (nblines - 1) (nbcols - 1)) in
  nonneg la → lt la PINF →
  msm_ub nblines nbcols dist_lines dist_cols dist cutoff = nextafter cutoff PINF.
Proof.
  intros Hnc la Hla Hfin. unfold msm_ub.
  destruct (Nat.leb_spec 2 nbcols); [|lia]. cbn zeta. fold la.
  by rewrite sub_pinf_fin.
Qed.

(** C2 (the tightened bound), evaluated on binary64 at lines [0; 3],
    columns [0; 1], split/merge cost 1 and cutoff 10: the best step into
    the last cell costs 1, the code computes [ub = nextafter(10, +∞)]
    and not [nextafter(10, +∞) - 1]. *)
Theorem msm_ub_not_tightened :
  let lines := map B64.of_Z [0; 3]%Z in
  let cols := map B64.of_Z [0; 1]%Z in
  let c := B64.of_Z 1 in
  let cutoff := B64.of_Z 10 in
  let la := min3 (ad1 lines cols 1 1) (msm_cols_ad1 lines cols c 1 1)
                 (msm_lines_ad1 lines cols c 1 1) in
  let ub := msm_ub 2 2 (msm_lines_ad1 lines cols c) (msm_cols_ad1 lines cols c)
                   (ad1 lines cols) cutoff in
  la = B64.of_Z 1 ∧
  ub = nextafter cutoff PINF ∧
  ub ≠ Fsub (nextafter cutoff PINF) la.
Proof. vm_compute. split; [reflexivity|split; [reflexivity|discriminate]]. Qed.

(* ===================================================================== *)
(** * The reference dynamic programs of the distance tests *)
(* ===================================================================== *)

Section Reference.
Context `{Float F}.

(** [matrix[i][j]] on a [vector<vector<double>>] *)
Definition matrix_get (matrix : list (list F)) (i j : nat) : F :=
  rd (default [] (matrix !! i)) j.

(** [matrix[i][j] = v] *)
Definition matrix_set (matrix : list (list F)) (i j : nat) (v : F) : list (list F) :=
  alter (<[j:=v]>) i matrix.

(** [mock::square_dist] of [test/distance/mock/mockseries.hpp], the header
    that [erp.cpp] includes: [FloatType d = a-b; return d*d;] *)
Definition square_dist (a b : F) : F := let d := Fsub a b in Fmul d d.

(** The conversion of a [size_t] to a [long], as at the calls
    [reference::erp_matrix(s, s, gv, w)] of the tests, where [w] is a
    [size_t]: the value modulo 2^64 read in two's complement, so that a
    [size_t] from 2^63 on becomes a negative [long]. *)
Definition size_t_to_long (n : nat) : Z :=
  let z := (Z.of_nat n mod 2 ^ 64)%Z in
  if (z <? 2 ^ 63)%Z then z else (z - 2 ^ 64)%Z.

(** [reference::erp_matrix] of [test/distance/univariate/erp.cpp]: the naive
    ERP with a window, on a full matrix with borders.  The lengths and the
    counters are naturals, the window [w] is a [long]. *)
Definition erp_matrix (series1 series2 : list F) (gValue : F) (w : Z) : F :=
  let length1 := length series1 in
  let length2 := length series2 in
  if (length1 =? 0) && (length2 =? 0) then Fzero
  else if (length1 =? 0) && negb (length2 =? 0) then PINF
  else if negb (length1 =? 0) && (length2 =? 0) then PINF
  else
    let cols := if length1 <? length2 then series1 else series2 in
    let lines := if length1 <? length2 then series2 else series1 in
    let nbcols := Nat.min length1 length2 in
    let nblines := Nat.max length1 length2 in
    let w := if (Z.of_nat nblines <? w)%Z then Z.of_nat nblines else w in
    if (w <? Z.of_nat nblines - Z.of_nat nbcols)%Z then PINF
    else
      let matrix := replicate (nblines + 1) (replicate (nbcols + 1) PINF) in
      let matrix := matrix_set matrix 0 0 Fzero in
      let matrix :=
        fold_left (λ matrix j,
            matrix_set matrix 0 j
              (Fadd (matrix_get matrix 0 (j - 1)) (square_dist gValue (rd cols (j - 1)))))
          (seq 1 nbcols) matrix in
      let matrix :=
        fold_left (λ matrix i,
            matrix_set matrix i 0
              (Fadd (matrix_get matrix (i - 1) 0) (square_dist (rd lines (i - 1)) gValue)))
          (seq 1 nblines) matrix in
      let matrix :=
        fold_left (λ matrix i,
            let li := rd lines (i - 1) in
            let l := Z.to_nat (Z.max (Z.of_nat i - w) 1) in
            let r := Z.to_nat (Z.min (Z.of_nat i + w + 1) (Z.of_nat nbcols + 1)) in
            fold_left (λ matrix j,
                matrix_set matrix i j
                  (std_min
                     (Fadd (matrix_get matrix i (j - 1)) (square_dist gValue (rd cols (j - 1))))
                     (std_min
                        (Fadd (matrix_get matrix (i - 1) (j - 1)) (square_dist li (rd cols (j - 1))))
                        (Fadd (matrix_get matrix (i - 1) j) (square_dist li gValue)))))
              (seq l (r - l)) matrix)
          (seq 1 nblines) matrix in
      matrix_get matrix nblines nbcols.

(** [sqedN] of [test/distance/multivariate_dep/m_dtw.cpp] *)
Definition sqedN (a : list F) (astart : nat) (b : list F) (bstart dim : nat) : F :=
  let aoffset := astart * dim in
  let boffset := bstart * dim in
  fold_left (λ acc i,
      let di := Fsub (rd a (aoffset + i)) (rd b (boffset + i)) in
      Fadd acc (Fmul di di))
    (seq 0 dim) Fzero.

(** [dtw_matrix] of [test/distance/multivariate_dep/m_dtw.cpp]: the naive
    multivariate DTW on a full matrix with borders; [dim] is not zero. *)
Definition dtw_matrix (a b : list F) (dim : nat) : F :=
  let la := length a / dim in
  let lb := length b / dim in
  if (la =? 0) && (lb =? 0) then Fzero
  else if (la =? 0) && negb (lb =? 0) then PINF
  else if negb (la =? 0) && (lb =? 0) then PINF
  else
    let msize := Nat.max la lb + 1 in
    let matrix := replicate msize (replicate msize PINF) in
    let matrix := matrix_set matrix 0 0 Fzero in
    let matrix :=
      fold_left (λ matrix i,
          fold_left (λ matrix j,
              let prev := matrix_get matrix i (j - 1) in
              let diag := matrix_get matrix (i - 1) (j - 1) in
              let top := matrix_get matrix (i - 1) j in
              matrix_set matrix i j
                (Fadd (std_min prev (std_min diag top)) (sqedN a (i - 1) b (j - 1) dim)))
            (seq 1 lb) matrix)
        (seq 1 la) matrix in
    matrix_get matrix la lb.

(** Modelled from the spec: the kernels [erp] and [dtw] themselves
    ([erp.hpp], [dtw.hpp]) are not part of the sources at hand.  By the
    contract of the skeleton (section 4.2) and the interface of section 6
    a kernel returns the exact value of the dynamic program when the bound
    is [+∞] or NaN, and otherwise that value if it is within the bound,
    else [+∞]; the dynamic programs are the references of the tests,
    called as the tests call them, the window of [erp] a [size_t]. *)
Definition kernel_contract (v ub : F) : F :=
  if isinf ub || isnan ub then v else eap_contract v ub.

Definition erp (series1 series2 : list F) (gValue : F) (w : nat) (ub : F) : F :=
  kernel_contract (erp_matrix series1 series2 gValue (size_t_to_long w)) ub.


End Reference.

Section ReferenceProof.
Context `{FloatLaws F}.
Implicit Types matrix : list (list F).

Lemma pos_or_zero_nonneg (x : F) : pos_or_zero x → nonneg x.
Proof. intros [-> | Hx]; [apply zero_ok|by apply lt_le]. Qed.

Lemma pos_or_zero_zero : pos_or_zero (Fzero : F).
Proof. by left. Qed.

Lemma pos_or_zero_pinf : pos_or_zero (PINF : F).
Proof.
  right. pose proof (zero_finite (F := F)) as Hz.
  unfold finite in Hz. by rewrite abs_zero in Hz.
Qed.

Lemma pos_or_zero_std_min (a b : F) :
  pos_or_zero a → pos_or_zero b → pos_or_zero (std_min a b).
Proof. intros. destruct (std_min_cases a b) as [-> | ->]; done. Qed.

Lemma std_min_zero_l (b : F) : nonneg b → std_min Fzero b = Fzero.
Proof. intros Hb. unfold std_min. by rewrite nonneg_not_lt_zero. Qed.

Lemma std_min_zero_r (a : F) : pos_or_zero a → std_min a Fzero = Fzero.
Proof.
  intros [-> | Ha]; unfold std_min.
  - by destruct (Fltb Fzero Fzero).
  - unfold lt in Ha. by rewrite Ha.
Qed.

Lemma square_dist_pos_or_zero (a b : F) : finite a → finite b → pos_or_zero (square_dist a b).
Proof. intros. unfold square_dist. cbn zeta. by apply mul_self_pos_or_zero, sub_finite_ok. Qed.


(** ** Matrices *)

Definition shape (n m : nat) matrix : Prop :=
  length matrix = n ∧ Forall (λ row, length row = m) matrix.

Lemma shape_set n m matrix i j v : shape n m matrix → shape n m (matrix_set matrix i j v).
Proof.
  intros [Hn Hm]. unfold matrix_set. split; [by rewrite length_alter|].
  apply Forall_lookup. intros k row Hk.
  destruct (decide (i = k)) as [->|Hne].
  - rewrite list_lookup_alter_eq in Hk.
    destruct (matrix !! k) as [row'|] eqn:Hrow; [|done].
    injection Hk as <-. rewrite length_insert. exact (Forall_lookup_1 _ _ _ _ Hm Hrow).
  - rewrite list_lookup_alter_ne in Hk by done. exact (Forall_lookup_1 _ _ _ _ Hm Hk).
Qed.

Lemma matrix_get_set_eq n m matrix i j v :
  shape n m matrix → i < n → j < m → matrix_get (matrix_set matrix i j v) i j = v.
Proof.
  intros [Hn Hm] Hi Hj. unfold matrix_get, matrix_set.
  rewrite list_lookup_alter_eq.
  destruct (matrix !! i) as [row|] eqn:Hrow.
  - cbn. unfold rd. rewrite list_lookup_insert_eq; [done|].
    by rewrite (Forall_lookup_1 _ _ _ _ Hm Hrow).
  - apply lookup_ge_None in Hrow. lia.
Qed.

Lemma matrix_get_set_ne matrix i j v i' j' :
  i ≠ i' ∨ j ≠ j' → matrix_get (matrix_set matrix i j v) i' j' = matrix_get matrix i' j'.
Proof.
  intros Hne. unfold matrix_get, matrix_set.
  destruct (decide (i = i')) as [<-|Hi].
  - rewrite list_lookup_alter_eq. destruct (matrix !! i) as [row|]; [|done].
    cbn. unfold rd. rewrite list_lookup_insert_ne; [done|]. destruct Hne; done.
  - by rewrite list_lookup_alter_ne.
Qed.

Lemma shape_replicate n m (x : F) : shape n m (replicate n (replicate m x)).
Proof.
  split; [apply length_replicate|].
  apply Forall_forall. intros row Hrow. apply elem_of_replicate in Hrow as [-> _].
  apply length_replicate.
Qed.

Lemma matrix_get_replicate n m (x : F) i j :
  i < n → j < m → matrix_get (replicate n (replicate m x)) i j = x.
Proof.
  intros Hi Hj. unfold matrix_get, rd.
  rewrite lookup_replicate_2 by done. cbn. by rewrite lookup_replicate_2.
Qed.

(** An invariant of a [for] loop over [start, start + len). *)
Lemma fold_seq_inv {A} (f : A → nat → A) (P : nat → A → Prop) len : ∀ start a,
  P start a →
  (∀ k a, start ≤ k < start + len → P k a → P (S k) (f a k)) →
  P (start + len) (fold_left f (seq start len) a).
Proof.
  induction len as [|len IH]; intros start a Ha Hstep.
  - by rewrite Nat.add_0_r.
  - cbn [seq fold_left]. replace (start + S len) with (S start + len) by lia.
    apply IH; [apply Hstep; [lia|done]|].
    intros k a' Hk. apply Hstep. lia.
Qed.

(** The matrices of the references: every cell is zero or positive, and
    the first [d] cells of the diagonal are zero. *)
Record cells_inv (n m d : nat) matrix : Prop := {
  ci_shape : shape n m matrix;
  ci_cells : ∀ i j, i < n → j < m → pos_or_zero (matrix_get matrix i j);
  ci_diag : ∀ k, k < d → k < n → k < m → matrix_get matrix k k = Fzero
}.

Lemma cells_inv_init n m :
  0 < n → 0 < m →
  cells_inv n m 1 (matrix_set (replicate n (replicate m PINF)) 0 0 Fzero).
Proof.
  intros Hn Hm. pose proof (shape_replicate n m (PINF : F)) as Hshape.
  constructor.
  - by apply shape_set.
  - intros i j Hi Hj. destruct (decide (i = 0 ∧ j = 0)) as [[-> ->]|Hne].
    + erewrite matrix_get_set_eq by done. apply pos_or_zero_zero.
    + rewrite matrix_get_set_ne by lia. rewrite matrix_get_replicate by done.
      apply pos_or_zero_pinf.
  - intros k Hk _ _. replace k with 0 by lia. by erewrite matrix_get_set_eq.
Qed.

(** Writing a cell that is not on the diagonal. *)
Lemma cells_inv_set_off n m d matrix i j v :
  cells_inv n m d matrix → i ≠ j ∨ d ≤ i → pos_or_zero v →
  cells_inv n m d (matrix_set matrix i j v).
Proof.
  intros [Hs Hc Hd] Hij Hv. constructor.
  - by apply shape_set.
  - intros i' j' Hi' Hj'. destruct (decide (i = i' ∧ j = j')) as [[<- <-]|Hne].
    + by erewrite matrix_get_set_eq.
    + rewrite matrix_get_set_ne by lia. auto.
  - intros k Hk Hkn Hkm. rewrite matrix_get_set_ne by lia. auto.
Qed.

(** Writing zero on the next cell of the diagonal. *)
Lemma cells_inv_set_diag n m d matrix :
  cells_inv n m d matrix → d < n → d < m →
  cells_inv n m (S d) (matrix_set matrix d d Fzero).
Proof.
  intros [Hs Hc Hd] Hn Hm. constructor.
  - by apply shape_set.
  - intros i' j' Hi' Hj'. destruct (decide (d = i' ∧ d = j')) as [[<- <-]|Hne].
    + erewrite matrix_get_set_eq by done. apply pos_or_zero_zero.
    + rewrite matrix_get_set_ne by lia. auto.
  - intros k Hk Hkn Hkm. destruct (decide (k = d)) as [->|Hne].
    + by erewrite matrix_get_set_eq.
    + rewrite matrix_get_set_ne by lia. apply Hd; lia.
Qed.

Lemma cells_inv_weaken n m d d' matrix :
  cells_inv n m d matrix → d' ≤ d → cells_inv n m d' matrix.
Proof. intros [Hs Hc Hd] Hle. constructor; auto with lia. Qed.

(** ** [sqedN] *)

Lemma sqedN_pos_or_zero (a b : list F) i j dim :
  Forall finite a → Forall finite b → pos_or_zero (sqedN a i b j dim).
Proof.
  intros Ha Hb. unfold sqedN. cbn zeta.
  apply (fold_seq_inv _ (λ _ acc, pos_or_zero acc) dim 0); [apply pos_or_zero_zero|].
  intros k acc _ Hacc. apply add_pos_or_zero; [by apply pos_or_zero_nonneg|].
  apply mul_self_pos_or_zero, sub_finite_ok; by apply rd_finite.
Qed.

Lemma sqedN_self (a : list F) i dim : Forall finite a → sqedN a i a i dim = Fzero.
Proof.
  intros Ha. unfold sqedN. cbn zeta.
  apply (fold_seq_inv _ (λ _ acc, acc = Fzero) dim 0); [done|].
  intros k acc _ ->. rewrite sub_self by (by apply rd_finite).
  by rewrite mul_zero_zero, add_zero_zero.
Qed.

(** ** The references on a series and itself *)

(** One line [i] of a reference: the cells written are zero or positive,
    and the cell of the diagonal is zero. *)
Lemma line_loop_inv n (f : list (list F) → nat → F) i start len matrix :
  cells_inv n n i matrix →
  1 ≤ i < n → 1 ≤ start → start ≤ i < start + len → start + len ≤ n →
  (∀ m j, start ≤ j < start + len →
     cells_inv n n (if i <? j then S i else i) m → pos_or_zero (f m j)) →
  (∀ m, cells_inv n n i m → f m i = Fzero) →
  cells_inv n n (S i) (fold_left (λ m j, matrix_set m i j (f m j)) (seq start len) matrix).
Proof.
  intros Hinv Hi Hstart Hin Hend Hpos Hzero.
  pose proof (fold_seq_inv (λ m j, matrix_set m i j (f m j))
                (λ j m, cells_inv n n (if i <? j then S i else i) m) len start matrix) as Hfold.
  cbn beta in Hfold.
  destruct (Nat.ltb_spec i (start + len)) as [_|]; [|lia].
  apply Hfold.
  - destruct (Nat.ltb_spec i start); [lia|done].
  - intros j m Hj Hm. specialize (Hpos m j Hj Hm).
    destruct (Nat.ltb_spec i j) as [Hlt|Hge]; destruct (Nat.ltb_spec i (S j)) as [Hlt'|Hge'];
      try lia.
    + apply cells_inv_set_off; [done|lia|done].
    + assert (j = i) as -> by lia. rewrite Hzero by done.
      apply cells_inv_set_diag; [done|lia..].
    + apply cells_inv_set_off; [done|lia|done].
Qed.




Lemma size_t_to_long_large (n : nat) :
  (2 ^ 63 ≤ Z.of_nat n < 2 ^ 64)%Z → (size_t_to_long n < 0)%Z.
Proof.
  intros Hn. unfold size_t_to_long. cbn zeta.
  rewrite Z.mod_small by lia.
  destruct (Z.ltb_spec (Z.of_nat n) (2 ^ 63)); lia.
Qed.

(** With a negative window the reference gives [+∞] as soon as a series is
    not empty: the band is empty, whatever the lengths. *)
Lemma erp_matrix_negative_window (series1 series2 : list F) (gValue : F) (w : Z) :
  series1 ≠ [] ∨ series2 ≠ [] → (w < 0)%Z → erp_matrix series1 series2 gValue w = PINF.
Proof.
  intros Hne Hw. unfold erp_matrix. cbn zeta.
  destruct (Nat.eqb_spec (length series1) 0) as [H1|H1],
           (Nat.eqb_spec (length series2) 0) as [H2|H2]; cbn [andb negb]; try done.
  { apply length_zero_iff_nil in H1, H2. by destruct Hne. }
  destruct (Z.ltb_spec (Z.of_nat (length series1 `max` length series2)) w); [lia|].
  destruct (Z.ltb_spec w (Z.of_nat (length series1 `max` length series2)
                          - Z.of_nat (length series1 `min` length series2))); [done|lia].
Qed.

End ReferenceProof.



(* ===================================================================== *)
(** * The 1-NN loops of the distance tests *)
(* ===================================================================== *)

Section NN1.
Context `{Float F}.

(** [if (v<bsf) { idx = j; bsf = v; }] *)
Definition nn1_update (j : nat) (v : F) (st : nat * F) : nat * F :=
  if Fltb v (snd st) then (j, v) else st.

(** The candidates of a query in scan order: the index [j] of each and the
    distance to it as a function of the upper bound (a measure with its
    parameters applied to the query and the candidate). *)
Definition trials : Type := list (nat * (F → F)).

(** The loop with the base variables: every distance is computed without
    cutoff (the bound defaults to [+∞]). *)
Definition nn1_base (ts : trials) : nat * F :=
  fold_left (λ st t, nn1_update (fst t) (snd t PINF) st) ts (0, PINF).

(** The loop with the EAP variables: the best-so-far is the bound. *)
Definition nn1_eap (ts : trials) : nat * F :=
  fold_left (λ st t, nn1_update (fst t) (snd t (snd st)) st) ts (0, PINF).

(** What the loops need of a kernel: without cutoff it returns a value
    that is not NaN; with a bound it returns that value or [+∞], and that
    value whenever it is within the bound. *)
Definition kernel_ok (k : F → F) : Prop :=
  ok (k PINF) ∧
  ∀ ub, ok ub → (k ub = k PINF ∨ k ub = PINF) ∧ (le (k PINF) ub → k ub = k PINF).

End NN1.

Section NN1Proof.
Context `{FloatLaws F}.

Lemma pinf_not_lt (x : F) : ok x → Fltb PINF x = false.
Proof.
  intros Hx. destruct (Fltb PINF x) eqn:E; [|done].
  apply lt_nle in E. pose proof (pinf_top x Hx) as Hle. unfold le in Hle. congruence.
Qed.

Lemma nn1_update_cutoff (k : F → F) j st :
  kernel_ok k → ok (snd st) →
  nn1_update j (k (snd st)) st = nn1_update j (k PINF) st ∧
  ok (snd (nn1_update j (k PINF) st)).
Proof.
  intros [Hk0 Hk] Hst. destruct (Hk (snd st) Hst) as [Hcases Hle].
  unfold nn1_update.
  destruct (Fltb (k PINF) (snd st)) eqn:Hlt.
  - rewrite Hle by (by apply lt_le). rewrite Hlt. done.
  - destruct Hcases as [-> | ->].
    + by rewrite Hlt.
    + by rewrite pinf_not_lt.
Qed.

Lemma nn1_scan_cutoff (ts : trials) : ∀ st,
  Forall (λ t, kernel_ok (snd t)) ts → ok (snd st) →
  fold_left (λ st t, nn1_update (fst t) (snd t (snd st)) st) ts st
  = fold_left (λ st t, nn1_update (fst t) (snd t PINF) st) ts st.
Proof.
  induction ts as [|t ts IH]; intros st Hts Hst; [done|].
  inversion Hts as [|? ? Ht Hts']; subst. cbn [fold_left].
  destruct (nn1_update_cutoff (snd t) (fst t) st Ht Hst) as [-> Hok].
  by apply IH.
Qed.

Lemma kernel_contract_ok (v : F) : ok v → kernel_ok (kernel_contract v).
Proof.
  intros Hv. unfold kernel_ok, kernel_contract. rewrite isinf_pinf. cbn [orb].
  split; [done|]. intros ub Hub.
  destruct (isinf ub); cbn [orb]; [by split; [left|]|].
  assert (isnan ub = false) as -> by (rewrite isnan_spec; unfold ok in Hub; by rewrite Hub).
  split; [apply contract_cases|apply contract_le].
Qed.

Lemma univariate_msm_kernel_ok (A B : list F) (c : F) :
  Forall finite A → Forall finite B → nonneg c →
  kernel_ok (univariate_msm A B c).
Proof.
  intros HA HB Hc. unfold kernel_ok, univariate_msm, msm_nobuffer. cbn zeta.
  set (dl := msm_lines_ad1 A B c). set (dc := msm_cols_ad1 A B c). set (d := ad1 A B).
  assert (∀ i j, nonneg (dl i j)) as Hdl by (intros; by apply msm_lines_ad1_nonneg).
  assert (∀ i j, nonneg (dc i j)) as Hdc by (intros; by apply msm_cols_ad1_nonneg).
  assert (∀ i j, nonneg (d i j)) as Hd by (intros; by apply ad1_nonneg).
  rewrite (msm_no_cutoff dl dc d Hdl Hdc Hd). split.
  - unfold naive_msm. destruct (length A), (length B);
      auto using zero_ok, pinf_ok, naive_cell_ok.
  - intros ub Hub. split; [by apply msm_sound|by apply msm_complete].
Qed.

End NN1Proof.

(** C5 (1-NN identity under shared cutoff).  Scanning the candidates in a
    fixed order, the loop that gives the running best-so-far to the kernel
    as upper bound ends with the same index (and the same best distance)
    as the loop that computes every distance without cutoff, for all
    kernels that meet the contract of the skeleton. *)
Theorem nn1_same_index_under_cutoff `{FloatLaws F} (ts : trials) :
  Forall (λ t, kernel_ok (snd t)) ts →
  fst (nn1_eap ts) = fst (nn1_base ts) ∧ nn1_eap ts = nn1_base ts.
Proof.
  intros Hts. assert (nn1_eap ts = nn1_base ts) as Heq.
  { unfold nn1_eap, nn1_base. apply nn1_scan_cutoff; [done|]. apply pinf_ok. }
  by rewrite Heq.
Qed.

Lemma nn1_same_index_under_cutoff_witness :
  let query := [ZF.Fin 1; ZF.Fin 5; ZF.Fin 2] in
  let c := ZF.Fin 1 in
  let ts : trials :=
    [ (0, univariate_msm query [ZF.Fin 2; ZF.Fin 2] c);
      (5, univariate_msm query [ZF.Fin 1; ZF.Fin 5; ZF.Fin 3] c);
      (10, univariate_msm query [ZF.Fin 9; ZF.Fin 9] c);
      (15, kernel_contract (erp_matrix query [ZF.Fin 1; ZF.Fin 4] (ZF.Fin 0) 1)) ] in
  fst (nn1_eap ts) = fst (nn1_base ts) ∧ nn1_eap ts = nn1_base ts.
Proof.
  assert (∀ l : list Z, Forall finite (map ZF.Fin l)) as Hfin.
  { intros l. induction l; constructor; done. }
  apply (nn1_same_index_under_cutoff (F := ZF.t)).
  repeat apply Forall_cons_2; try apply Forall_nil_2; cbn [snd].
  - apply univariate_msm_kernel_ok; [apply (Hfin [1; 5; 2]%Z)|apply (Hfin [2; 2]%Z)|done].
  - apply univariate_msm_kernel_ok; [apply (Hfin [1; 5; 2]%Z)|apply (Hfin [1; 5; 3]%Z)|done].
  - apply univariate_msm_kernel_ok; [apply (Hfin [1; 5; 2]%Z)|apply (Hfin [9; 9]%Z)|done].
  - apply kernel_contract_ok. by vm_compute.
Defined.

(* ===================================================================== *)
(** * The 1-NN splitter of the proximity forest *)
(* ===================================================================== *)

Section Splitter.
Context `{Float F} `{Countable L}.

(** A series of the dataset: its values and its label, if it has one. *)
Record TSeries := mkTSeries {
  ts_data : list F;
  ts_label : option L
}.

(** The state of a tree: the run's PRNG, here the sequence of its future
    draws, and the datasets by transformation name. *)
Record TreeState := mkTreeState {
  st_prng : list nat;
  dataset_shared_map : gmap string (list TSeries)
}.

(** Modelled from the spec: [utils::pick_one] is not part of the sources at
    hand; section 4.3 has a label drawn uniformly from the ties with the
    run's PRNG: the next draw, reduced to the size of the vector.  Picking
    in an empty vector has no result. *)
Definition pick_one {A} (v : list A) (prng : list nat) : option (A * list nat) :=
  x ← v !! (hd 0 prng `mod` length v);
  Some (x, tl prng).

(** [Distance function between two series, with a cutoff 'Best So Far'] *)
Definition distance_t : Type := TSeries → TSeries → F → F.

(** The NN1 loop of [get_branch_index] and of [generate]: the exemplars are
    scanned in order with the best-so-far as cutoff; a strictly better
    distance resets the labels, an equal one adds the label if absent. *)
Fixpoint nn1_loop (distance : distance_t) (train_dataset : list TSeries) (query : TSeries)
    (train_indexset : list nat) (bsf : F) (labels : list L) : option (F * list L) :=
  match train_indexset with
  | [] => Some (bsf, labels)
  | train_idx :: rest =>
      train_exemplar ← train_dataset !! train_idx;
      let d := distance train_exemplar query bsf in
      if Fltb d bsf then
        l ← ts_label train_exemplar;
        nn1_loop distance train_dataset query rest d [l]
      else if Feqb bsf d then
        l ← ts_label train_exemplar;
        nn1_loop distance train_dataset query rest bsf
          (if decide (l ∈ labels) then labels else labels ++ [l])
      else nn1_loop distance train_dataset query rest bsf labels
  end.

(** [TestSplitter_1NN] *)
Record TestSplitter_1NN := mkTestSplitter {
  train_dataset : list TSeries;
  train_indexset : list nat;
  labels_to_index : gmap L nat;
  transformation_name : string;
  distance : distance_t
}.

(** [TestSplitter_1NN::get_branch_index]: the branch and the PRNG after the
    draw; no result where the C++ throws ([at], [value]) or reads out of a
    vector. *)
Definition get_branch_index (sp : TestSplitter_1NN) (state : TreeState) (test_idx : nat)
    : option (nat * list nat) :=
  test_dataset ← dataset_shared_map state !! transformation_name sp;
  test_exemplar ← test_dataset !! test_idx;
  '(bsf, labels) ← nn1_loop (distance sp) (train_dataset sp) test_exemplar
                     (train_indexset sp) PINF [];
  '(predicted_label, prng) ← pick_one labels (st_prng state);
  branch ← labels_to_index sp !! predicted_label;
  Some (branch, prng).

(** ** [ByClassMap] *)

(** Modelled from the spec: [ByClassMap] and [IndexSet] are not part of the
    sources at hand.  Section 3: a map from label to an ordered sequence of
    row indices; [classes()] returns the keys in a deterministic order;
    [labels_to_index()] numbers the classes in that order; the index set of
    a map holds the rows of all its classes; [pick_one_by_class] keeps one
    row of each class, drawn with the PRNG. *)
Definition classes (bcm : gmap L (list nat)) : list L := (map_to_list bcm).*1.

Definition nb_classes (bcm : gmap L (list nat)) : nat := size bcm.

Definition bcm_labels_to_index (bcm : gmap L (list nat)) : gmap L nat :=
  list_to_map (zip (classes bcm) (seq 0 (nb_classes bcm))).

Definition IndexSet (bcm : gmap L (list nat)) : list nat := mjoin (map_to_list bcm).*2.

Fixpoint pick_one_each (vs : list (list nat)) (prng : list nat) : option (list nat * list nat) :=
  match vs with
  | [] => Some ([], prng)
  | v :: vs =>
      '(idx, prng) ← pick_one v prng;
      '(idxs, prng) ← pick_one_each vs prng;
      Some (idx :: idxs, prng)
  end.

Definition pick_one_by_class (bcm : gmap L (list nat)) (prng : list nat)
    : option (list nat * list nat) :=
  pick_one_each (map_to_list bcm).*2 prng.

(** ** [TrainSplitter_1NN::generate] *)

(** [m[k].push_back(x)] on a [std::map<L, std::vector<size_t>>] *)
Definition map_push_back (k : L) (x : nat) (m : gmap L (list nat)) : gmap L (list nat) :=
  <[k := default [] (m !! k) ++ [x]]> m.

(** The body of the loop over the rows of the incoming map. *)
Definition route (distance : distance_t) (train_dataset : list TSeries)
    (train_indexset : list nat) (labels_to_index : gmap L nat) (query_idx : nat)
    (result_bcmvec : list (gmap L (list nat))) (prng : list nat)
    : option (list (gmap L (list nat)) * list nat) :=
  query ← train_dataset !! query_idx;
  '(bsf, labels) ← nn1_loop distance train_dataset query train_indexset PINF [];
  '(predicted_label, prng) ← pick_one labels prng;
  predicted_index ← labels_to_index !! predicted_label;
  real_label ← ts_label query;
  _ ← result_bcmvec !! predicted_index;
  Some (alter (map_push_back real_label query_idx) predicted_index result_bcmvec, prng).

Fixpoint route_all (distance : distance_t) (train_dataset : list TSeries)
    (train_indexset : list nat) (labels_to_index : gmap L nat) (queries : list nat)
    (result_bcmvec : list (gmap L (list nat))) (prng : list nat)
    : option (list (gmap L (list nat)) * list nat) :=
  match queries with
  | [] => Some (result_bcmvec, prng)
  | query_idx :: rest =>
      '(result_bcmvec, prng) ←
        route distance train_dataset train_indexset labels_to_index query_idx
          result_bcmvec prng;
      route_all distance train_dataset train_indexset labels_to_index rest
        result_bcmvec prng
  end.

(** The conversion of the vector of maps: an empty map gets the mapping
    from the label of its branch to the empty vector. *)
Definition no_empty_bcm (label : L) (m : gmap L (list nat)) : gmap L (list nat) :=
  if decide (m = ∅) then <[label := []]> m else m.

(** [generate]: the children, the splitter and the PRNG after the draws. *)
Definition generate (distance : distance_t) (transformation_name : string)
    (state : TreeState) (bcm : gmap L (list nat))
    : option (list (gmap L (list nat)) * TestSplitter_1NN * list nat) :=
  '(train_indexset, prng) ← pick_one_by_class bcm (st_prng state);
  train_dataset ← dataset_shared_map state !! transformation_name;
  let labels_to_index := bcm_labels_to_index bcm in
  let result_bcmvec := replicate (nb_classes bcm) (∅ : gmap L (list nat)) in
  '(result_bcmvec, prng) ←
    route_all distance train_dataset train_indexset labels_to_index (IndexSet bcm)
      result_bcmvec prng;
  let v_bcm :=
    (λ label,
       let idx := default 0 (labels_to_index !! label) in
       no_empty_bcm label (default ∅ (result_bcmvec !! idx))) <$> classes bcm in
  Some (v_bcm,
        mkTestSplitter train_dataset train_indexset labels_to_index transformation_name distance,
        prng).

(** The rows of a child, and of all the children. *)
Definition bcm_rows (m : gmap L (list nat)) : list nat := mjoin (map_to_list m).*2.

Definition all_rows (children : list (gmap L (list nat))) : list nat :=
  mjoin (bcm_rows <$> children).

(** The labels in the order of their first occurrence. *)
Definition first_occurrences (ls : list L) : list L :=
  fold_left (λ acc l, if decide (l ∈ acc) then acc else acc ++ [l]) ls [].

End Splitter.

Arguments TSeries F L : clear implicits.
Arguments TreeState F L : clear implicits.
Arguments distance_t F L : clear implicits.
Arguments TestSplitter_1NN F L {_ _}.

Section SplitterProof.
Context `{FloatLaws F} `{Countable L}.
Implicit Types (ds : list (TSeries F L)) (idxs : list nat) (labels : list L).

(** Every exemplar is a row of the dataset and has a label. *)
Definition labelled ds idxs : Prop :=
  Forall (λ idx, ∃ ts l, ds !! idx = Some ts ∧ ts_label ts = Some l) idxs.

(** The labels of the exemplars, in scan order. *)
Definition exemplar_labels ds idxs : list L :=
  omap (λ idx, ts ← ds !! idx; ts_label ts) idxs.

Lemma feqb_refl (x : F) : ok x → Feqb x x = true.
Proof. intros Hx. by apply eqb_spec. Qed.

Lemma not_lt_pinf (d : F) : ok d → Fltb d PINF = false → d = PINF.
Proof. intros Hd Hlt. apply le_pinf_eq, nlt_le; [done|apply pinf_ok|done]. Qed.

Lemma pick_one_is_Some {A} (v : list A) (prng : list nat) :
  v ≠ [] → ∃ x, pick_one v prng = Some (x, tl prng) ∧ x ∈ v.
Proof.
  intros Hv. unfold pick_one.
  assert (hd 0 prng `mod` length v < length v) as Hlt.
  { apply Nat.mod_upper_bound. destruct v; [done|cbn; lia]. }
  apply lookup_lt_is_Some_2 in Hlt as [x Hx]. exists x. rewrite Hx. cbn.
  split; [done|]. by eapply list_elem_of_lookup_2.
Qed.

Lemma pick_one_elem_of {A} (v : list A) (prng prng' : list nat) x :
  pick_one v prng = Some (x, prng') → x ∈ v ∧ prng' = tl prng.
Proof.
  unfold pick_one. destruct (v !! _) as [y|] eqn:Hy; cbn; [|done].
  intros [= <- <-]. split; [|done]. by eapply list_elem_of_lookup_2.
Qed.

Lemma exemplar_labels_cons ds idx idxs ts l :
  ds !! idx = Some ts → ts_label ts = Some l →
  exemplar_labels ds (idx :: idxs) = l :: exemplar_labels ds idxs.
Proof. intros Hts Hl. unfold exemplar_labels. cbn. rewrite Hts. cbn. by rewrite Hl. Qed.

(** The NN1 loop: it ends, the labels are pairwise distinct, they are
    labels of exemplars, and the list is empty only if nothing was scanned. *)
Lemma nn1_loop_inv (distance : distance_t F L) ds q idxs : ∀ bsf labels,
  labelled ds idxs → (∀ a b u, ok (distance a b u)) →
  ok bsf → NoDup labels → (labels = [] → bsf = PINF) →
  ∃ bsf' labels',
    nn1_loop distance ds q idxs bsf labels = Some (bsf', labels') ∧
    ok bsf' ∧ NoDup labels' ∧
    (labels' = [] → labels = [] ∧ idxs = []) ∧
    (∀ l, l ∈ labels' → l ∈ labels ∨ l ∈ exemplar_labels ds idxs).
Proof.
  induction idxs as [|idx idxs IH]; intros bsf labels Hlab Hd Hbsf Hnd Hempty.
  { exists bsf, labels. cbn. split_and!; auto. }
  inversion Hlab as [|? ? (ts & l & Hts & Hl) Hlab']; subst.
  rewrite (exemplar_labels_cons _ _ _ _ _ Hts Hl).
  cbn [nn1_loop]. rewrite Hts. cbn. rewrite Hl. cbn.
  destruct (Fltb (distance ts q bsf) bsf) eqn:Hlt.
  - destruct (IH (distance ts q bsf) [l]) as (bsf' & labels' & -> & ? & ? & Hne & Hin);
      [done..|apply NoDup_singleton|done|].
    exists bsf', labels'. split_and!; auto.
    + intros E. by destruct (Hne E).
    + intros x Hx. right. apply elem_of_cons.
      destruct (Hin x Hx) as [Hx'|]; [|by right]. left. by apply list_elem_of_singleton in Hx'.
  - destruct (Feqb bsf (distance ts q bsf)) eqn:Heq.
    + set (labels1 := if decide (l ∈ labels) then labels else labels ++ [l]).
      assert (NoDup labels1) as Hnd1.
      { subst labels1. destruct (decide (l ∈ labels)); [done|].
        apply NoDup_app. split_and!; [done| |apply NoDup_singleton].
        intros x Hx Hx'. apply list_elem_of_singleton in Hx'. by subst. }
      assert (labels1 ≠ []) as Hne1.
      { subst labels1. destruct (decide (l ∈ labels)) as [Hin|].
        - intros ->. by apply not_elem_of_nil in Hin.
        - by destruct labels. }
      destruct (IH bsf labels1) as (bsf' & labels' & -> & ? & ? & Hne & Hin); [done..|].
      exists bsf', labels'. split_and!; auto.
      * intros E. by destruct (Hne E).
      * intros x Hx. destruct (Hin x Hx) as [Hx'|]; [|right; apply elem_of_cons; by right].
        subst labels1. destruct (decide (l ∈ labels)); [by left|].
        apply elem_of_app in Hx' as [|Hx']; [by left|].
        right. apply elem_of_cons. left. by apply list_elem_of_singleton in Hx'.
    + assert (labels ≠ []) as Hne0.
      { intros E. rewrite (Hempty E) in Hlt, Heq.
        apply not_lt_pinf in Hlt; [|done]. rewrite Hlt in Heq.
        rewrite feqb_refl in Heq; [done|apply pinf_ok]. }
      destruct (IH bsf labels) as (bsf' & labels' & -> & ? & ? & Hne & Hin); [done..|].
      exists bsf', labels'. split_and!; auto.
      * intros E. by destruct (Hne E).
      * intros x Hx. destruct (Hin x Hx); [by left|right; apply elem_of_cons; by right].
Qed.

End SplitterProof.


(** ** Routing when every distance is infinite *)

Section InfiniteDistances.
Context `{FloatLaws F} `{Countable L}.

(** The distance of the row [q] to every stored exemplar evaluates to
    [+∞]: the loop starts from the best-so-far [+∞], which is the cutoff
    of each of these evaluations as long as none is below it. *)
Definition all_exemplars_infinite (distance : distance_t F L) (ds : list (TSeries F L))
    (idxs : list nat) (q : TSeries F L) : Prop :=
  ∀ idx ex, idx ∈ idxs → ds !! idx = Some ex → distance ex q PINF = PINF.

Lemma nn1_loop_row_pinf (distance : distance_t F L) (ds : list (TSeries F L)) q idxs :
  all_exemplars_infinite distance ds idxs q → labelled ds idxs →
  ∀ labels,
    nn1_loop distance ds q idxs PINF labels
    = Some (PINF,
            fold_left (λ acc l, if decide (l ∈ acc) then acc else acc ++ [l])
              (exemplar_labels ds idxs) labels).
Proof.
  intros Hd Hlab. induction Hlab as [|idx idxs (ts & l & Hts & Hl) _ IH]; intros labels.
  { done. }
  rewrite (exemplar_labels_cons _ _ _ _ _ Hts Hl).
  cbn [nn1_loop fold_left]. rewrite Hts. cbn. rewrite Hl. cbn.
  rewrite (Hd idx ts) by (done || left).
  rewrite pinf_not_lt by apply pinf_ok.
  rewrite feqb_refl by apply pinf_ok. apply IH.
  intros idx' ex Hin. apply Hd. by right.
Qed.

(** The labels in the order of their first occurrence: each label of the
    list, once. *)
Lemma first_occurrences_elements (ls : list L) :
  NoDup (first_occurrences ls) ∧ ∀ l, l ∈ first_occurrences ls ↔ l ∈ ls.
Proof.
  unfold first_occurrences.
  assert (∀ acc, NoDup acc →
            NoDup (fold_left (λ acc l, if decide (l ∈ acc) then acc else acc ++ [l]) ls acc) ∧
            ∀ l, l ∈ fold_left (λ acc l, if decide (l ∈ acc) then acc else acc ++ [l]) ls acc
                 ↔ l ∈ acc ∨ l ∈ ls) as Hgen.
  { induction ls as [|x ls IH]; intros acc Hacc; cbn [fold_left].
    { split; [done|]. intros l. rewrite elem_of_nil. tauto. }
    destruct (decide (x ∈ acc)) as [Hx|Hx].
    - destruct (IH acc Hacc) as [Hnd Hin]. split; [done|].
      intros l. rewrite Hin, elem_of_cons.
      split; [tauto|]. intros [?|[->|?]]; auto.
    - destruct (IH (acc ++ [x])) as [Hnd Hin].
      { apply NoDup_app. split_and!; [done| |apply NoDup_singleton].
        intros y Hy Hy'. apply list_elem_of_singleton in Hy'. by subst. }
      split; [done|]. intros l. rewrite Hin, elem_of_app, list_elem_of_singleton, elem_of_cons.
      tauto. }
  destruct (Hgen [] (NoDup_nil_2 (A := L))) as [Hnd Hin]. split; [done|].
  intros l. rewrite Hin, elem_of_nil. tauto.
Qed.

(** The claim as the specification states it: the row goes to the branch
    with the largest stored label index. *)
Definition routed_to_largest_label_index (sp : TestSplitter_1NN F L)
    (state : TreeState F L) (test_idx : nat) : Prop :=
  ∃ branch prng,
    get_branch_index sp state test_idx = Some (branch, prng) ∧
    ∀ l k, labels_to_index sp !! l = Some k → k ≤ branch.

End InfiniteDistances.

(** C6, as amended.  When the distance of a row to every stored exemplar
    evaluates to [+∞] (whatever the distance is for other rows), the ties
    are the labels of all the exemplars, each once and in scan order, and
    the row is routed to the branch of the label that the PRNG draws among
    them, at prediction ([get_branch_index]) and at training ([route], the
    body of the loop of [generate]). *)
Theorem infinite_distances_routing `{FloatLaws F} `{Countable L}
    (sp : TestSplitter_1NN F L) (state : TreeState F L) (test_idx : nat)
    (test_dataset : list (TSeries F L)) (test_exemplar : TSeries F L) :
  labelled (train_dataset sp) (train_indexset sp) →
  dataset_shared_map state !! transformation_name sp = Some test_dataset →
  test_dataset !! test_idx = Some test_exemplar →
  (∀ idx ex, idx ∈ train_indexset sp → train_dataset sp !! idx = Some ex →
     distance sp ex test_exemplar PINF = PINF) →
  let ties := first_occurrences (exemplar_labels (train_dataset sp) (train_indexset sp)) in
  (NoDup ties ∧
   ∀ l, l ∈ ties ↔ l ∈ exemplar_labels (train_dataset sp) (train_indexset sp)) ∧
  nn1_loop (distance sp) (train_dataset sp) test_exemplar (train_indexset sp) PINF []
    = Some (PINF, ties) ∧
  get_branch_index sp state test_idx
    = ('(predicted_label, prng) ← pick_one ties (st_prng state);
       branch ← labels_to_index sp !! predicted_label;
       Some (branch, prng)) ∧
  ∀ query_idx query result_bcmvec prng,
    train_dataset sp !! query_idx = Some query →
    (∀ idx ex, idx ∈ train_indexset sp → train_dataset sp !! idx = Some ex →
       distance sp ex query PINF = PINF) →
    route (distance sp) (train_dataset sp) (train_indexset sp) (labels_to_index sp)
      query_idx result_bcmvec prng
    = ('(predicted_label, prng) ← pick_one ties prng;
       predicted_index ← labels_to_index sp !! predicted_label;
       real_label ← ts_label query;
       _ ← result_bcmvec !! predicted_index;
       Some (alter (map_push_back real_label query_idx) predicted_index result_bcmvec, prng)).
Proof.
  intros Hlab Hmap Hq Hd ties.
  assert (∀ q, all_exemplars_infinite (distance sp) (train_dataset sp) (train_indexset sp) q →
               nn1_loop (distance sp) (train_dataset sp) q (train_indexset sp) PINF []
               = Some (PINF, ties)) as Hloop.
  { intros q Hinf. by rewrite nn1_loop_row_pinf. }
  split; [|split; [|split]].
  - apply first_occurrences_elements.
  - by apply Hloop.
  - unfold get_branch_index. rewrite Hmap. cbn. rewrite Hq. cbn. by rewrite Hloop.
  - intros query_idx query result_bcmvec prng Hquery Hinf.
    unfold route. rewrite Hquery. cbn. by rewrite Hloop.
Qed.

(** ** A splitter with two exemplars whose distances are all infinite *)

Definition toy_series (label : nat) : TSeries ZF.t nat :=
  mkTSeries [ZF.Fin (Z.of_nat label)] (Some label).

Definition toy_splitter : TestSplitter_1NN ZF.t nat :=
  mkTestSplitter [toy_series 0; toy_series 1] [0; 1] {[0 := 0; 1 := 1]} "raw"
    (λ _ _ _, PINF).

Definition toy_state : TreeState ZF.t nat :=
  mkTreeState [0] {["raw" := [toy_series 0]]}.


(** C6, as stated, fails: with all distances infinite and the draw [0]
    the row goes to branch 0, while label 1 has the larger index 1. *)
Lemma infinite_distances_routing_counterexample :
  (∀ a b u, distance toy_splitter a b u = PINF) ∧
  get_branch_index toy_splitter toy_state 0 = Some (0, []) ∧
  ¬ routed_to_largest_label_index toy_splitter toy_state 0.
Proof.
  split_and!; [done|by vm_compute|].
  intros (branch & prng & Hbranch & Hmax).
  vm_compute in Hbranch. injection Hbranch as <- <-.
  specialize (Hmax 1 1 eq_refl). lia.
Qed.

(** A splitter whose distance is ERP with window 0: the two exemplars have
    one value, and a row of three values is out of their window, so that
    its distance to both is [+∞], while a row of one value is at a finite
    distance of both. *)
Definition far_splitter : TestSplitter_1NN ZF.t nat :=
  mkTestSplitter [toy_series 0; toy_series 1] [0; 1] {[0 := 0; 1 := 1]} "raw"
    (λ a b ub, erp (ts_data a) (ts_data b) (ZF.Fin 0) 0 ub).

Definition far_row : TSeries ZF.t nat :=
  mkTSeries [ZF.Fin 1; ZF.Fin 2; ZF.Fin 3] (Some 0).

Definition far_state : TreeState ZF.t nat :=
  mkTreeState [1] {["raw" := [far_row; toy_series 1]]}.

Lemma infinite_distances_routing_witness :
  let sp := far_splitter in
  let ties := first_occurrences (exemplar_labels (train_dataset sp) (train_indexset sp)) in
  (distance sp (toy_series 0) (toy_series 1) PINF = ZF.Fin 1 ∧ ties = [0; 1] ∧
   get_branch_index sp far_state 0 = Some (1, [])) ∧
  (NoDup ties ∧
   ∀ l, l ∈ ties ↔ l ∈ exemplar_labels (train_dataset sp) (train_indexset sp)) ∧
  nn1_loop (distance sp) (train_dataset sp) far_row (train_indexset sp) PINF []
    = Some (PINF, ties) ∧
  get_branch_index sp far_state 0
    = ('(predicted_label, prng) ← pick_one ties (st_prng far_state);
       branch ← labels_to_index sp !! predicted_label;
       Some (branch, prng)) ∧
  ∀ query_idx query result_bcmvec prng,
    train_dataset sp !! query_idx = Some query →
    (∀ idx ex, idx ∈ train_indexset sp → train_dataset sp !! idx = Some ex →
       distance sp ex query PINF = PINF) →
    route (distance sp) (train_dataset sp) (train_indexset sp) (labels_to_index sp)
      query_idx result_bcmvec prng
    = ('(predicted_label, prng) ← pick_one ties prng;
       predicted_index ← labels_to_index sp !! predicted_label;
       real_label ← ts_label query;
       _ ← result_bcmvec !! predicted_index;
       Some (alter (map_push_back real_label query_idx) predicted_index result_bcmvec, prng)).
Proof.
  split; [by vm_compute|].
  apply (infinite_distances_routing far_splitter far_state 0 [far_row; toy_series 1] far_row).
  - repeat apply Forall_cons_2; try apply Forall_nil_2.
    + by exists (toy_series 0), 0.
    + by exists (toy_series 1), 1.
  - by vm_compute.
  - done.
  - intros idx ex Hin Hex. cbn in Hin.
    apply elem_of_cons in Hin as [->|Hin];
      [|apply list_elem_of_singleton in Hin as ->];
      cbn in Hex; injection Hex as <-; by vm_compute.
Defined.


(** ** The children of [generate] *)

Section GenerateProof.
Context `{FloatLaws F} `{Countable L}.
Implicit Types (ds : list (TSeries F L)) (bcm m : gmap L (list nat)).

Lemma classes_length bcm : length (classes bcm) = nb_classes bcm.
Proof. unfold classes, nb_classes. by rewrite length_fmap, length_map_to_list. Qed.

Lemma bcm_labels_to_index_lookup bcm i l :
  classes bcm !! i = Some l → bcm_labels_to_index bcm !! l = Some i.
Proof.
  intros Hl. unfold bcm_labels_to_index.
  assert (i < nb_classes bcm) as Hi.
  { rewrite <- classes_length. by eapply lookup_lt_Some. }
  apply elem_of_list_to_map_1.
  - rewrite fst_zip by (rewrite classes_length, length_seq; lia).
    apply NoDup_fst_map_to_list.
  - apply list_elem_of_lookup. exists i. apply lookup_zip_Some. split; [done|].
    by rewrite lookup_seq_lt.
Qed.

Lemma bcm_labels_to_index_elem bcm l :
  l ∈ classes bcm →
  ∃ i, i < nb_classes bcm ∧ bcm_labels_to_index bcm !! l = Some i.
Proof.
  intros Hl. apply list_elem_of_lookup in Hl as [i Hi]. exists i. split.
  - rewrite <- classes_length. by eapply lookup_lt_Some.
  - by apply bcm_labels_to_index_lookup.
Qed.

Lemma pick_one_each_Some (vs : list (list nat)) : ∀ prng,
  Forall (λ v, v ≠ []) vs →
  ∃ idxs prng', pick_one_each vs prng = Some (idxs, prng') ∧
                Forall2 (λ idx v, idx ∈ v) idxs vs.
Proof.
  induction vs as [|v vs IH]; intros prng Hvs.
  { exists [], prng. by split. }
  inversion Hvs as [|? ? Hv Hvs']; subst.
  destruct (pick_one_is_Some v prng Hv) as (idx & Hpick & Hidx).
  destruct (IH (tl prng) Hvs') as (idxs & prng' & Heach & Hall).
  exists (idx :: idxs), prng'. cbn. rewrite Hpick. cbn. rewrite Heach. cbn.
  split; [done|]. by constructor.
Qed.

(** The exemplars picked in the classes are labelled rows, and their
    labels are the classes, in order. *)
Lemma picked_exemplars ds (pairs : list (L * list nat)) idxs :
  (∀ l v idx, (l, v) ∈ pairs → idx ∈ v → ∃ ts, ds !! idx = Some ts ∧ ts_label ts = Some l) →
  Forall2 (λ idx v, idx ∈ v) idxs pairs.*2 →
  labelled ds idxs ∧ exemplar_labels ds idxs = pairs.*1.
Proof.
  revert idxs. induction pairs as [|[l v] pairs IH]; intros idxs Hcons Hall.
  { apply Forall2_nil_inv_r in Hall as ->. split; [constructor|done]. }
  cbn in Hall. apply Forall2_cons_inv_r in Hall as (idx & idxs' & Hidx & Hall & ->).
  destruct (Hcons l v idx) as (ts & Hts & Hl); [left|done|].
  destruct (IH idxs') as [Hlab Hlabels]; [|done|].
  { intros l' v' idx' Hin. apply Hcons. by right. }
  split.
  - constructor; [by exists ts, l|done].
  - rewrite (exemplar_labels_cons _ _ _ _ _ Hts Hl). cbn. by rewrite Hlabels.
Qed.

(** *** Rows of the children *)

Lemma bcm_rows_empty : bcm_rows (∅ : gmap L (list nat)) = [].
Proof. unfold bcm_rows. by rewrite map_to_list_empty. Qed.

Lemma bcm_rows_push_back k x m : bcm_rows (map_push_back k x m) ≡ₚ x :: bcm_rows m.
Proof.
  unfold bcm_rows, map_push_back. destruct (m !! k) as [v|] eqn:Hk; cbn.
  - rewrite <- insert_delete_eq.
    rewrite map_to_list_insert by apply lookup_delete_eq.
    rewrite <- (map_to_list_delete m k v Hk). cbn.
    rewrite <- app_assoc. cbn. by rewrite <- Permutation_middle.
  - by rewrite map_to_list_insert.
Qed.

Lemma all_rows_alter (f : gmap L (list nat) → gmap L (list nat)) x
    (res : list (gmap L (list nat))) : ∀ i m,
  res !! i = Some m → bcm_rows (f m) ≡ₚ x :: bcm_rows m →
  all_rows (alter f i res) ≡ₚ x :: all_rows res.
Proof.
  unfold all_rows. induction res as [|m' res IH]; intros i m Hi Hf; [done|].
  destruct i as [|i]; cbn in *.
  - injection Hi as ->. by rewrite Hf.
  - rewrite (IH i m Hi Hf). by rewrite Permutation_middle.
Qed.

Lemma all_rows_replicate n : all_rows (replicate n (∅ : gmap L (list nat))) = [].
Proof.
  unfold all_rows. induction n as [|n IH]; [done|]. cbn. by rewrite bcm_rows_empty.
Qed.

Lemma bcm_rows_no_empty_bcm l m : bcm_rows (no_empty_bcm l m) = bcm_rows m.
Proof.
  unfold no_empty_bcm. destruct (decide (m = ∅)) as [->|]; [|done].
  unfold bcm_rows. by rewrite insert_empty, map_to_list_singleton, map_to_list_empty.
Qed.

Lemma no_empty_bcm_non_empty l m : no_empty_bcm l m ≠ ∅.
Proof.
  unfold no_empty_bcm. destruct (decide (m = ∅)); [apply insert_non_empty|done].
Qed.

(** *** One row, all the rows *)

(** a map of the vector is still empty, or rows were pushed to it *)
Definition empty_or_rows (m : gmap L (list nat)) : Prop := m = ∅ ∨ bcm_rows m ≠ [].

Lemma empty_or_rows_push_back k x m : empty_or_rows (map_push_back k x m).
Proof.
  right. intros E. pose proof (bcm_rows_push_back k x m) as Hperm.
  rewrite E in Hperm. by apply Permutation_nil_cons in Hperm.
Qed.

Lemma route_Some (distance : distance_t F L) ds idxs (l2i : gmap L nat) query_idx
    (res : list (gmap L (list nat))) prng query real_label :
  idxs ≠ [] → labelled ds idxs → (∀ a b u, ok (distance a b u)) →
  (∀ l, l ∈ exemplar_labels ds idxs → ∃ i, i < length res ∧ l2i !! l = Some i) →
  ds !! query_idx = Some query → ts_label query = Some real_label →
  ∃ res' prng',
    route distance ds idxs l2i query_idx res prng = Some (res', prng') ∧
    length res' = length res ∧
    all_rows res' ≡ₚ query_idx :: all_rows res ∧
    (Forall empty_or_rows res → Forall empty_or_rows res').
Proof.
  intros Hne Hlab Hd Hl2i Hq Hreal. unfold route. rewrite Hq. cbn.
  destruct (nn1_loop_inv distance ds query idxs PINF [])
    as (bsf & labels & -> & _ & _ & Hempty & Hin);
    [done..|apply pinf_ok|apply NoDup_nil_2|done|]. cbn.
  assert (labels ≠ []) as Hne' by (intros E; by destruct (Hempty E)).
  destruct (pick_one_is_Some labels prng Hne') as (label & -> & Hlabel). cbn.
  destruct (Hin label Hlabel) as [Habs|Hex]; [by apply not_elem_of_nil in Habs|].
  destruct (Hl2i label Hex) as (i & Hi & ->). cbn. rewrite Hreal. cbn.
  apply lookup_lt_is_Some_2 in Hi as [m Hm]. rewrite Hm. cbn.
  eexists _, _. split_and!; [done|by rewrite length_alter| |].
  - eapply all_rows_alter; [done|]. apply bcm_rows_push_back.
  - intros Hres. apply Forall_alter; [done|]. intros. apply empty_or_rows_push_back.
Qed.

Lemma route_all_Some (distance : distance_t F L) ds idxs (l2i : gmap L nat) queries :
  ∀ (res : list (gmap L (list nat))) prng,
  (queries ≠ [] → idxs ≠ []) → labelled ds idxs → (∀ a b u, ok (distance a b u)) →
  (∀ l, l ∈ exemplar_labels ds idxs → ∃ i, i < length res ∧ l2i !! l = Some i) →
  Forall (λ q, ∃ query l, ds !! q = Some query ∧ ts_label query = Some l) queries →
  ∃ res' prng',
    route_all distance ds idxs l2i queries res prng = Some (res', prng') ∧
    length res' = length res ∧
    all_rows res' ≡ₚ queries ++ all_rows res ∧
    (Forall empty_or_rows res → Forall empty_or_rows res').
Proof.
  induction queries as [|q queries IH]; intros res prng Hne Hlab Hd Hl2i Hqs.
  { exists res, prng. by split_and!. }
  inversion Hqs as [|? ? (query & l & Hq & Hl) Hqs']; subst.
  destruct (route_Some distance ds idxs l2i q res prng query l)
    as (res1 & prng1 & Hroute & Hlen1 & Hrows1 & Hinv1); [by apply Hne|done..|].
  destruct (IH res1 prng1) as (res' & prng' & Hall & Hlen & Hrows & Hinv); [|done..| |done|].
  { intros _. by apply Hne. }
  { by rewrite Hlen1. }
  exists res', prng'. cbn [route_all]. rewrite Hroute. cbn. rewrite Hall.
  split_and!; [done|congruence| |by auto].
  rewrite Hrows, Hrows1. cbn. by rewrite Permutation_middle.
Qed.

End GenerateProof.

(** C8 (the children of the generator).  For a map whose classes are not
    empty and hold labelled rows of the dataset, and a distance that
    returns no NaN, [generate] returns one child per class of the input;
    no child is the empty map: the child of a class to which no row was
    routed is the single entry from the label of the class to the empty
    vector; and the rows of the children are the rows of the input up to
    their order: every row is in exactly one child, once. *)
Theorem generate_children `{FloatLaws F} `{Countable L}
    (distance : distance_t F L) (transformation_name : string)
    (state : TreeState F L) (bcm : gmap L (list nat)) (train_dataset : list (TSeries F L)) :
  (∀ l v, bcm !! l = Some v → v ≠ []) →
  dataset_shared_map state !! transformation_name = Some train_dataset →
  (∀ l v idx, bcm !! l = Some v → idx ∈ v →
     ∃ ts, train_dataset !! idx = Some ts ∧ ts_label ts = Some l) →
  (∀ a b u, ok (distance a b u)) →
  ∃ children splitter prng,
    generate distance transformation_name state bcm = Some (children, splitter, prng) ∧
    length children = nb_classes bcm ∧
    Forall (λ child, child ≠ ∅) children ∧
    (∀ i label child,
       classes bcm !! i = Some label → children !! i = Some child →
       bcm_rows child = [] → child = {[label := []]}) ∧
    all_rows children ≡ₚ IndexSet bcm ∧
    (NoDup (IndexSet bcm) → NoDup (all_rows children)).
Proof.
  intros Hclasses Hmap Hcons Hd. unfold generate, pick_one_by_class.
  destruct (pick_one_each_Some (map_to_list bcm).*2 (st_prng state))
    as (idxs & prng1 & -> & Hpicked).
  { apply Forall_fmap, Forall_forall. intros [l v] Hlv.
    apply elem_of_map_to_list in Hlv. cbn. by eapply Hclasses. }
  cbn. rewrite Hmap. cbn.
  destruct (picked_exemplars train_dataset (map_to_list bcm) idxs) as [Hlab Hlabels];
    [|done|].
  { intros l v idx Hlv. apply elem_of_map_to_list in Hlv. by apply Hcons. }
  destruct (route_all_Some distance train_dataset idxs (bcm_labels_to_index bcm)
              (IndexSet bcm) (replicate (nb_classes bcm) ∅) prng1)
    as (res & prng2 & -> & Hlen & Hrows & Hinv); [|done..| | |].
  { intros Hne ->. apply Hne. apply Forall2_nil_inv_l in Hpicked.
    unfold IndexSet. by rewrite Hpicked. }
  { intros l Hl. rewrite Hlabels in Hl. rewrite length_replicate.
    by apply bcm_labels_to_index_elem. }
  { apply Forall_forall. intros idx Hidx. unfold IndexSet in Hidx.
    apply list_elem_of_join in Hidx as (v & Hidx & Hv).
    apply list_elem_of_fmap in Hv as ([l v'] & -> & Hlv).
    apply elem_of_map_to_list in Hlv.
    destruct (Hcons l v' idx Hlv Hidx) as (ts & Hts & Hl). by exists ts, l. }
  cbn. rewrite length_replicate in Hlen. rewrite all_rows_replicate, app_nil_r in Hrows.
  assert (Forall empty_or_rows res) as Hres.
  { apply Hinv, Forall_replicate. by left. }
  eexists _, _, _. split; [done|].
  set (child_of := λ label,
         no_empty_bcm label (default ∅ (res !! default 0 (bcm_labels_to_index bcm !! label)))).
  assert (∀ i label, classes bcm !! i = Some label →
            ∃ m, res !! i = Some m ∧ child_of label = no_empty_bcm label m) as Hchild.
  { intros i label Hi. subst child_of. cbn beta.
    rewrite (bcm_labels_to_index_lookup _ _ _ Hi). cbn.
    assert (i < length res) as Hlt.
    { rewrite Hlen, <- classes_length. by eapply lookup_lt_Some. }
    apply lookup_lt_is_Some_2 in Hlt as [m Hm]. exists m. by rewrite Hm. }
  assert (all_rows (child_of <$> classes bcm) = all_rows res) as Hchildren.
  { unfold all_rows. f_equal. apply list_eq. intros i. rewrite !list_lookup_fmap.
    destruct (classes bcm !! i) as [l|] eqn:Hi; cbn.
    - destruct (Hchild i l Hi) as (m & -> & ->). cbn.
      by rewrite bcm_rows_no_empty_bcm.
    - apply lookup_ge_None in Hi. rewrite classes_length, <- Hlen in Hi.
      apply lookup_ge_None in Hi. by rewrite Hi. }
  split_and!.
  - by rewrite length_fmap, classes_length.
  - apply Forall_fmap, Forall_forall. intros l _. apply no_empty_bcm_non_empty.
  - intros i label child Hi Hc Hrows0.
    rewrite list_lookup_fmap, Hi in Hc. injection Hc as <-.
    destruct (Hchild i label Hi) as (m & Hm & Hce).
    rewrite Hce in Hrows0 |- *. rewrite bcm_rows_no_empty_bcm in Hrows0.
    destruct (Forall_lookup_1 _ _ _ _ Hres Hm) as [->|Hne]; [|done].
    unfold no_empty_bcm. rewrite decide_True by done. apply insert_empty.
  - by rewrite Hchildren.
  - intros Hnd. by rewrite Hchildren, Hrows.
Qed.

(** A map with two classes over a dataset of three rows. *)
Definition toy_dataset : list (TSeries ZF.t nat) :=
  [toy_series 0; toy_series 1; toy_series 0].

Definition toy_bcm : gmap nat (list nat) := {[0 := [0; 2]; 1 := [1]]}.

Definition toy_train_state : TreeState ZF.t nat :=
  mkTreeState [1; 0; 3; 2] {["raw" := toy_dataset]}.

Lemma generate_children_witness :
  ∃ children splitter prng,
    generate (λ _ _ _, PINF) "raw" toy_train_state toy_bcm = Some (children, splitter, prng) ∧
    length children = nb_classes toy_bcm ∧
    Forall (λ child, child ≠ ∅) children ∧
    (∀ i label child,
       classes toy_bcm !! i = Some label → children !! i = Some child →
       bcm_rows child = [] → child = {[label := []]}) ∧
    all_rows children ≡ₚ IndexSet toy_bcm ∧
    (NoDup (IndexSet toy_bcm) → NoDup (all_rows children)).
Proof.
  apply (generate_children (λ _ _ _, PINF) "raw" toy_train_state toy_bcm toy_dataset).
  - intros l v Hlv. unfold toy_bcm in Hlv.
    apply lookup_insert_Some in Hlv as [[_ <-]|[_ Hlv]]; [done|].
    apply lookup_singleton_Some in Hlv as [_ <-]. done.
  - by vm_compute.
  - intros l v idx Hlv Hidx. unfold toy_bcm in Hlv.
    apply lookup_insert_Some in Hlv as [[<- <-]|[_ Hlv]].
    + apply elem_of_cons in Hidx as [->|Hidx]; [by exists (toy_series 0)|].
      apply list_elem_of_singleton in Hidx as ->. by exists (toy_series 0).
    + apply lookup_singleton_Some in Hlv as [<- <-].
      apply list_elem_of_singleton in Hidx as ->. by exists (toy_series 1).
  - done.
Defined.

(* ===================================================================== *)
(** * The command line of the LOOCV tool *)
(* ===================================================================== *)

Module Loocv.

(** How the process ends: [exit(code)] or [return code] from [main];
    [std::terminate] after an exception that nothing catches; or a read
    out of a vector with [operator[]], for which the C++ defines no
    behaviour. *)
Inductive termination := Exit (code : Z) | Terminate | Undefined.

(** What the process does that can be seen from outside, in order: a line
    on [std::cout] or [std::cerr]; the opening of the output file, which
    creates or truncates it; the JSON record, of which only the status is
    kept, on [std::cout] and in the output file; the run of the LOOCV,
    which reports on [std::cout]; and the lines of the report, of which
    the figures are not kept. *)
Inductive event (D : Type) :=
  | Cout (line : string)
  | Cerr (line : string)
  | FileOpen (path : string)
  | CoutJson (status : string)
  | FileJson (status : string)
  | Partable (transform distance_name : string) (cfe : D) (nbthreads : Z)
  | CoutOutputTo (dataset_name path : string)
  | CoutResult (dataset_name title : string).
Arguments Cout {D} line.
Arguments Cerr {D} line.
Arguments FileOpen {D} path.
Arguments CoutJson {D} status.
Arguments FileJson {D} status.
Arguments Partable {D} transform distance_name cfe nbthreads.
Arguments CoutOutputTo {D} dataset_name path.
Arguments CoutResult {D} dataset_name title.

Section Main.
(** The collaborators that are not part of the sources at hand: the
    doubles ([D], with [d1] the double 1), the loaded datasets, the parsers
    of [tempo::reader] and of the standard library ([stoi] has no result
    where it throws), the loader and the sanity check. *)
Variable D : Type.
Variable TrainTest : Type.
Variable d1 : D.
Variable stoi : string → option Z.
Variable split : string → list string.
Variable as_double : string → option D.
Variable load : string → string → string + TrainTest.
Variable sanity_check : TrainTest → list string.

(** [do_exit(code, msg)] *)
Definition do_exit (code : Z) (msg : option string) : list (event D) * termination :=
  (match msg with Some m => [Cerr m] | None => [] end, Exit code).

Definition usage : string :=
  "<path to ucr> <dataset name> <transform> <distance:cfe> <nbthreads> <output> required".

(** What was done before, then the end [r]. *)
Definition after (done : list (event D)) (r : list (event D) * termination)
    : list (event D) * termination :=
  (done ++ fst r, snd r).

(** [main], on the arguments after the program name: [argc] is one more
    than their number, so that [argc<7] is the case of fewer than six
    arguments. *)
Definition main (args : list string) : list (event D) * termination :=
  match args with
  | path_ucr :: dataset_name :: transform :: dist_cfe :: arg_nbthreads :: outpath :: _ =>
      match stoi arg_nbthreads with
      | None => ([], Terminate)
      | Some nbthreads =>
          match split dist_cfe with
          | [] => ([], Undefined)
          | distance_name :: cfe_args =>
              let mb_cfe :=
                match cfe_args with
                | [] => Some d1
                | arg_cfe :: _ => as_double arg_cfe
                end in
              match mb_cfe with
              | None => ([Cout "<distance:cfe>  <cfe> must be a double"], Exit 1)
              | Some cfe =>
                  after [FileOpen outpath]
                    match load path_ucr dataset_name with
                    | inl msg => do_exit 1 (Some msg)
                    | inr traintest =>
                        if negb (bool_decide (sanity_check traintest = [])) then
                          ([CoutJson "error"; FileJson "error"], Exit 0)
                        else if negb (String.eqb transform "derivative"
                                      || String.eqb transform "raw")
                        then do_exit 1 (Some "Wrong transform name")
                        else if negb (String.eqb distance_name "ADTW"
                                      || String.eqb distance_name "DTW")
                        then do_exit 2 (Some ("Unknown distance " +:+ distance_name))
                        else
                          ([Partable transform distance_name cfe nbthreads;
                            CoutOutputTo dataset_name outpath;
                            CoutJson "success"; FileJson "success";
                            Cout "";
                            CoutResult dataset_name " LOOCV result: ";
                            CoutResult dataset_name " NN1 test result: "],
                           Exit 0)
                    end
              end
          end
      end
  | _ => ([Cout usage], Exit 1)
  end.

(** The claim as the specification states it: the process exits with 0
    only on success, and with 1 whenever it does not succeed. *)
Definition maps_errors_to_exit_1 : Prop :=
  ∀ args events t,
    main args = (events, t) →
    (t = Exit 0 → FileJson "success" ∈ events) ∧
    (FileJson "success" ∉ events → t = Exit 1).

End Main.

(** Collaborators for a run: every number parses, the distance argument
    has no parameter, the dataset loads, and the sanity check reports
    what it is given. *)
Definition toy_main (errors : list string)
    : list string → list (event Z) * termination :=
  main Z unit 1%Z (λ _, Some 4%Z) (λ s, [s]) (λ _, Some 1%Z) (λ _ _, inr ()) (λ _, errors).

End Loocv.

(** C9, as stated, fails: an unknown distance name exits with code 2, and a
    failed sanity check exits with code 0. *)
Lemma loocv_exit_codes_counterexample :
  Loocv.toy_main [] ["ucr"; "Coffee"; "raw"; "MSM"; "4"; "out.json"]
    = ([Loocv.FileOpen "out.json"; Loocv.Cerr "Unknown distance MSM"], Loocv.Exit 2) ∧
  Loocv.toy_main ["empty train set"] ["ucr"; "Coffee"; "raw"; "DTW"; "4"; "out.json"]
    = ([Loocv.FileOpen "out.json"; Loocv.CoutJson "error"; Loocv.FileJson "error"],
       Loocv.Exit 0) ∧
  ¬ Loocv.maps_errors_to_exit_1 Z unit 1%Z (λ _, Some 4%Z) (λ s, [s]) (λ _, Some 1%Z)
      (λ _ _, inr ()) (λ _, []).
Proof.
  split_and!; [done..|].
  intros Hclaim.
  destruct (Hclaim ["ucr"; "Coffee"; "raw"; "MSM"; "4"; "out.json"]
              [Loocv.FileOpen "out.json"; Loocv.Cerr "Unknown distance MSM"]
              (Loocv.Exit 2) eq_refl) as [_ Hexit].
  discriminate Hexit. intros Hin.
  apply elem_of_cons in Hin as [Hin|Hin]; [discriminate Hin|].
  apply list_elem_of_singleton in Hin. discriminate Hin.
Qed.

(** C9, as amended.  Which error gives which exit code, in the order of
    the checks of [main].  With fewer than six arguments the tool prints
    the usage and exits with code 1.  With six or more: a number of
    threads that [stoi] refuses ends in [std::terminate]; otherwise, when
    the distance argument splits into a name and parameters, a first
    parameter that is not a double exits with code 1 and one line on
    [std::cout]; otherwise the output file is opened, and then a dataset
    that does not load exits with code 1 and the message of the loader, a
    failed sanity check exits with code 0 after the JSON record of status
    error, a transform that is neither derivative nor raw exits with code
    1, a distance name that is neither ADTW nor DTW exits with code 2, and
    the run exits with code 0 after the JSON record of status success.
    The other way round, the exit code is 0, 1 or 2; code 1 comes with one
    line of message, code 2 with the message of the unknown distance, and
    code 0 with a JSON record in the output file. *)
Theorem loocv_exit_codes (D TrainTest : Type) (d1 : D) (stoi : string → option Z)
    (split : string → list string) (as_double : string → option D)
    (load : string → string → string + TrainTest)
    (sanity_check : TrainTest → list string) :
  let main := Loocv.main D TrainTest d1 stoi split as_double load sanity_check in
  (∀ args, length args < 6 → main args = ([Loocv.Cout Loocv.usage], Loocv.Exit 1)) ∧
  (∀ path_ucr dataset_name transform dist_cfe arg_nbthreads outpath rest,
     let args :=
       path_ucr :: dataset_name :: transform :: dist_cfe :: arg_nbthreads :: outpath :: rest in
     (stoi arg_nbthreads = None → main args = ([], Loocv.Terminate)) ∧
     ∀ nbthreads distance_name cfe_args,
       stoi arg_nbthreads = Some nbthreads →
       split dist_cfe = distance_name :: cfe_args →
       (∀ arg_cfe more, cfe_args = arg_cfe :: more → as_double arg_cfe = None →
          main args = ([Loocv.Cout "<distance:cfe>  <cfe> must be a double"], Loocv.Exit 1)) ∧
       ∀ cfe,
         (cfe_args = [] ∧ cfe = d1) ∨
         (∃ arg_cfe more, cfe_args = arg_cfe :: more ∧ as_double arg_cfe = Some cfe) →
         (∀ msg, load path_ucr dataset_name = inl msg →
            main args = ([Loocv.FileOpen outpath; Loocv.Cerr msg], Loocv.Exit 1)) ∧
         ∀ traintest, load path_ucr dataset_name = inr traintest →
           (sanity_check traintest ≠ [] →
              main args
              = ([Loocv.FileOpen outpath; Loocv.CoutJson "error"; Loocv.FileJson "error"],
                 Loocv.Exit 0)) ∧
           (sanity_check traintest = [] →
              (transform ≠ "derivative" → transform ≠ "raw" →
                 main args
                 = ([Loocv.FileOpen outpath; Loocv.Cerr "Wrong transform name"],
                    Loocv.Exit 1)) ∧
              (transform = "derivative" ∨ transform = "raw" →
                 (distance_name ≠ "ADTW" → distance_name ≠ "DTW" →
                    main args
                    = ([Loocv.FileOpen outpath;
                        Loocv.Cerr ("Unknown distance " +:+ distance_name)],
                       Loocv.Exit 2)) ∧
                 (distance_name = "ADTW" ∨ distance_name = "DTW" →
                    main args
                    = ([Loocv.FileOpen outpath;
                        Loocv.Partable transform distance_name cfe nbthreads;
                        Loocv.CoutOutputTo dataset_name outpath;
                        Loocv.CoutJson "success"; Loocv.FileJson "success";
                        Loocv.Cout "";
                        Loocv.CoutResult dataset_name " LOOCV result: ";
                        Loocv.CoutResult dataset_name " NN1 test result: "],
                       Loocv.Exit 0))))) ∧
  (∀ args events code, main args = (events, Loocv.Exit code) →
     (code = 0 ∨ code = 1 ∨ code = 2)%Z ∧
     (code = 1%Z →
        ∃ msg, events = [Loocv.Cout msg] ∨
               ∃ path, events = [Loocv.FileOpen path; Loocv.Cerr msg]) ∧
     (code = 2%Z →
        ∃ path dist_cfe name more,
          args !! 3 = Some dist_cfe ∧ split dist_cfe = name :: more ∧
          events = [Loocv.FileOpen path; Loocv.Cerr ("Unknown distance " +:+ name)] ∧
          name ≠ "ADTW" ∧ name ≠ "DTW") ∧
     (code = 0%Z →
        Loocv.FileJson "success" ∈ events ∨
        ∃ path path_ucr dataset_name traintest,
          events = [Loocv.FileOpen path; Loocv.CoutJson "error"; Loocv.FileJson "error"] ∧
          args !! 0 = Some path_ucr ∧ args !! 1 = Some dataset_name ∧
          load path_ucr dataset_name = inr traintest ∧ sanity_check traintest ≠ [])).
Proof.
  cbn zeta. split_and!.
  - intros args Hlen. do 6 (destruct args as [|? args]; [done|]). cbn in Hlen. lia.
  - intros path_ucr dataset_name transform dist_cfe arg_nbthreads outpath rest.
    unfold Loocv.main. split; [by intros ->|].
    intros nbthreads distance_name cfe_args -> ->. split.
    { by intros arg_cfe more -> ->. }
    intros cfe Hcfe.
    assert (match cfe_args with [] => Some d1 | arg_cfe :: _ => as_double arg_cfe end
            = Some cfe) as ->.
    { by destruct Hcfe as [[-> ->]|(arg_cfe & more & -> & ->)]. }
    unfold Loocv.after. split; [by intros msg ->|].
    intros traintest ->. split.
    { intros Hsane. by rewrite bool_decide_eq_false_2. }
    intros Hsane. rewrite bool_decide_eq_true_2 by done. cbn [negb]. split.
    { intros Hd Hr. apply String.eqb_neq in Hd, Hr. by rewrite Hd, Hr. }
    intros Htransform.
    assert (String.eqb transform "derivative" || String.eqb transform "raw" = true) as ->.
    { destruct Htransform as [-> | ->]; by vm_compute. }
    cbn [negb]. split.
    { intros HA HD. apply String.eqb_neq in HA, HD. by rewrite HA, HD. }
    intros Hname.
    assert (String.eqb distance_name "ADTW" || String.eqb distance_name "DTW" = true) as ->.
    { destruct Hname as [-> | ->]; by vm_compute. }
    done.
  - intros args events code. unfold Loocv.main, Loocv.after.
    destruct args
      as [|path_ucr [|dataset_name [|transform [|dist_cfe [|arg_nbthreads [|outpath rest]]]]]];
      try (intros [= <- <-]; split_and!; intros; first [lia|by eauto]).
    destruct (stoi arg_nbthreads) as [nbthreads|]; [|done].
    destruct (split dist_cfe) as [|distance_name cfe_args] eqn:Hsplit; [done|].
    destruct (match cfe_args with [] => Some d1 | arg_cfe :: _ => as_double arg_cfe end)
      as [cfe|].
    2: { intros [= <- <-]; split_and!; intros; first [lia|by eauto]. }
    destruct (load path_ucr dataset_name) as [msg|traintest] eqn:Hload;
      cbn [fst snd app Loocv.do_exit].
    { intros [= <- <-]; split_and!; intros; first [lia|by eauto]. }
    destruct (bool_decide_reflect (sanity_check traintest = [])) as [Hsane|Hsane];
      cbn [negb fst snd app].
    2: { intros [= <- <-]; split_and!; intros; first [lia|idtac].
         right. by exists outpath, path_ucr, dataset_name, traintest. }
    destruct (String.eqb transform "derivative" || String.eqb transform "raw");
      cbn [negb fst snd app Loocv.do_exit].
    2: { intros [= <- <-]; split_and!; intros; first [lia|by eauto]. }
    destruct (String.eqb_spec distance_name "ADTW") as [HA|HA];
      [|destruct (String.eqb_spec distance_name "DTW") as [HD|HD]];
      cbn [orb negb fst snd app Loocv.do_exit];
      intros [= <- <-]; split_and!; intros; try lia.
    + left. set_solver.
    + left. set_solver.
    + by exists outpath, dist_cfe, distance_name, cfe_args.
Qed.

(** Collaborators for runs of each kind: [stoi] refuses ["four"], the
    split is on [':'] for the two arguments used, ["x"] is no double, the
    dataset ["Missing"] does not load and the dataset ["Broken"] fails the
    sanity check. *)
Definition ex_stoi (s : string) : option Z :=
  if String.eqb s "four" then None else Some 4%Z.

Definition ex_split (s : string) : list string :=
  if String.eqb s "DTW:x" then ["DTW"; "x"]
  else if String.eqb s "ADTW:2" then ["ADTW"; "2"]
  else [s].

Definition ex_as_double (s : string) : option Z :=
  if String.eqb s "x" then None else Some 2%Z.

Definition ex_load (path_ucr dataset_name : string) : string + bool :=
  if String.eqb dataset_name "Missing" then inl "no such dataset"
  else inr (negb (String.eqb dataset_name "Broken")).

Definition ex_sanity_check (sane : bool) : list string :=
  if sane then [] else ["empty train set"].

Definition ex_main : list string → list (Loocv.event Z) * Loocv.termination :=
  Loocv.main Z bool 1%Z ex_stoi ex_split ex_as_double ex_load ex_sanity_check.

Lemma loocv_exit_codes_witness :
  ex_main ["ucr"; "Coffee"; "raw"; "DTW"; "4"]
    = ([Loocv.Cout Loocv.usage], Loocv.Exit 1) ∧
  ex_main ["ucr"; "Coffee"; "raw"; "DTW"; "four"; "out.json"]
    = ([], Loocv.Terminate) ∧
  ex_main ["ucr"; "Coffee"; "raw"; "DTW:x"; "4"; "out.json"]
    = ([Loocv.Cout "<distance:cfe>  <cfe> must be a double"], Loocv.Exit 1) ∧
  ex_main ["ucr"; "Missing"; "raw"; "DTW"; "4"; "out.json"]
    = ([Loocv.FileOpen "out.json"; Loocv.Cerr "no such dataset"], Loocv.Exit 1) ∧
  ex_main ["ucr"; "Broken"; "raw"; "DTW"; "4"; "out.json"]
    = ([Loocv.FileOpen "out.json"; Loocv.CoutJson "error"; Loocv.FileJson "error"],
       Loocv.Exit 0) ∧
  ex_main ["ucr"; "Coffee"; "smooth"; "DTW"; "4"; "out.json"]
    = ([Loocv.FileOpen "out.json"; Loocv.Cerr "Wrong transform name"], Loocv.Exit 1) ∧
  ex_main ["ucr"; "Coffee"; "raw"; "MSM"; "4"; "out.json"]
    = ([Loocv.FileOpen "out.json"; Loocv.Cerr "Unknown distance MSM"], Loocv.Exit 2) ∧
  ex_main ["ucr"; "Coffee"; "derivative"; "ADTW:2"; "4"; "out.json"]
    = ([Loocv.FileOpen "out.json";
        Loocv.Partable "derivative" "ADTW" 2%Z 4%Z;
        Loocv.CoutOutputTo "Coffee" "out.json";
        Loocv.CoutJson "success"; Loocv.FileJson "success";
        Loocv.Cout "";
        Loocv.CoutResult "Coffee" " LOOCV result: ";
        Loocv.CoutResult "Coffee" " NN1 test result: "],
       Loocv.Exit 0).
Proof.
  pose proof (loocv_exit_codes Z bool 1%Z ex_stoi ex_split ex_as_double ex_load
                ex_sanity_check) as (Hfew & Hargs & _).
  fold ex_main in Hfew, Hargs.
  split_and!.
  - apply Hfew. cbn. lia.
  - by apply (Hargs "ucr" "Coffee" "raw" "DTW" "four" "out.json" []).
  - destruct (Hargs "ucr" "Coffee" "raw" "DTW:x" "4" "out.json" []) as [_ H].
    destruct (H 4%Z "DTW" ["x"] eq_refl eq_refl) as [Hcfe _].
    by apply (Hcfe "x" []).
  - destruct (Hargs "ucr" "Missing" "raw" "DTW" "4" "out.json" []) as [_ H].
    destruct (H 4%Z "DTW" [] eq_refl eq_refl) as [_ Hcfe].
    destruct (Hcfe 1%Z) as [Hload _]; [by left|]. by apply Hload.
  - destruct (Hargs "ucr" "Broken" "raw" "DTW" "4" "out.json" []) as [_ H].
    destruct (H 4%Z "DTW" [] eq_refl eq_refl) as [_ Hcfe].
    destruct (Hcfe 1%Z) as [_ Hload]; [by left|].
    destruct (Hload false eq_refl) as [Hsane _]. by apply Hsane.
  - destruct (Hargs "ucr" "Coffee" "smooth" "DTW" "4" "out.json" []) as [_ H].
    destruct (H 4%Z "DTW" [] eq_refl eq_refl) as [_ Hcfe].
    destruct (Hcfe 1%Z) as [_ Hload]; [by left|].
    destruct (Hload true eq_refl) as [_ Hsane].
    destruct (Hsane eq_refl) as [Htransform _]. by apply Htransform.
  - destruct (Hargs "ucr" "Coffee" "raw" "MSM" "4" "out.json" []) as [_ H].
    destruct (H 4%Z "MSM" [] eq_refl eq_refl) as [_ Hcfe].
    destruct (Hcfe 1%Z) as [_ Hload]; [by left|].
    destruct (Hload true eq_refl) as [_ Hsane].
    destruct (Hsane eq_refl) as [_ Htransform].
    destruct Htransform as [Hname _]; [by right|]. by apply Hname.
  - destruct (Hargs "ucr" "Coffee" "derivative" "ADTW:2" "4" "out.json" []) as [_ H].
    destruct (H 4%Z "ADTW" ["2"] eq_refl eq_refl) as [_ Hcfe].
    destruct (Hcfe 2%Z) as [_ Hload]; [right; by exists "2", []|].
    destruct (Hload true eq_refl) as [_ Hsane].
    destruct (Hsane eq_refl) as [_ Htransform].
    destruct Htransform as [_ Hname]; [by left|]. apply Hname. by left.
Defined.

(* ===================================================================== *)
(** * Further facts of the arithmetic *)
(* ===================================================================== *)

(** Facts of IEEE-754 arithmetic about the values that are [+0] or
    positive, and about the symmetry of a difference; like those of
    [FloatLaws] they hold of binary64. *)
Class FloatSymLaws (F : Type) `{FloatLaws F} := {
  le_antisym : ∀ x y : F, pos_or_zero x → pos_or_zero y → le x y → le y x → x = y;
  add_pos_or_zero_l : ∀ a b : F, pos_or_zero a → nonneg b → pos_or_zero (Fadd a b);
  abs_pos_or_zero : ∀ x : F, ok x → pos_or_zero (Fabs x);
  abs_sub_sym : ∀ x y : F, finite x → finite y → Fabs (Fsub x y) = Fabs (Fsub y x);
  sq_sub_sym : ∀ x y : F, finite x → finite y →
    Fmul (Fsub x y) (Fsub x y) = Fmul (Fsub y x) (Fsub y x)
}.

#[global] Instance ZF_sym_laws : FloatSymLaws ZF.t.
Proof.
  split; unfold pos_or_zero, nonneg, finite, ok, le, lt; cbn -[Z.add Z.mul Z.sub].
  - intros x y _ _ Hxy Hyx; ZF.crush.
  - intros a b [-> | Ha] Hb; revert Hb; [|revert Ha]; ZF.crush;
      try (destruct (decide (z = 0%Z)) as [->|]; [by left|right; ZF.crush]);
      try (right; ZF.crush); auto.
  - intros x Hx; destruct x as [z| | |]; cbn in *; try discriminate; [|by right..].
    destruct (decide (z = 0%Z)) as [->|]; [by left|right; ZF.crush].
  - intros x y; ZF.crush.
  - intros x y; ZF.crush.
Qed.

(* ===================================================================== *)
(** * Further properties of the MSM distance *)
(* ===================================================================== *)

Section MsmContract.
Context `{FloatLaws F}.
Implicit Types A B : list F.

(** The naive dynamic program of two univariate series. *)
Definition naive_univariate_msm A B (c : F) : F :=
  naive_msm (length A) (length B) (msm_lines_ad1 A B c) (msm_cols_ad1 A B c) (ad1 A B).

Lemma naive_univariate_msm_nonneg A B c :
  Forall finite A → Forall finite B → nonneg c → nonneg (naive_univariate_msm A B c).
Proof.
  intros HA HB Hc. unfold naive_univariate_msm, naive_msm.
  destruct (length A), (length B); try apply zero_ok.
  - apply pinf_top, zero_ok.
  - apply pinf_top, zero_ok.
  - apply naive_cell_nonneg; auto using ad1_nonneg, msm_lines_ad1_nonneg, msm_cols_ad1_nonneg.
Qed.

(** The univariate distance on non-empty series, by kind of bound. *)
Lemma univariate_msm_nonempty A B c ub :
  Forall finite A → Forall finite B → nonneg c → 0 < length A → 0 < length B →
  univariate_msm A B c ub =
    if isinf ub || isnan ub then naive_univariate_msm A B c
    else eap_contract (naive_univariate_msm A B c) ub.
Proof.
  intros HA HB Hc HnA HnB. unfold univariate_msm, msm_nobuffer, naive_univariate_msm.
  cbn zeta.
  apply msm_nonempty; auto using ad1_nonneg, msm_lines_ad1_nonneg, msm_cols_ad1_nonneg.
Qed.

Lemma univariate_msm_sound A B c ub :
  Forall finite A → Forall finite B → nonneg c →
  univariate_msm A B c ub = naive_univariate_msm A B c ∨ univariate_msm A B c ub = PINF.
Proof.
  intros HA HB Hc. unfold univariate_msm, msm_nobuffer, naive_univariate_msm. cbn zeta.
  apply msm_sound; auto using ad1_nonneg, msm_lines_ad1_nonneg, msm_cols_ad1_nonneg.
Qed.

Lemma not_nan_ok (x : F) : isnan x = false → ok x.
Proof. rewrite isnan_spec. unfold ok. by destruct (Fleb x x). Qed.

End MsmContract.

(** The costs of a univariate MSM on finite series are not negative. *)
Lemma toy_costs_nonneg (A B : list Z) (c : Z) :
  (0 ≤ c)%Z →
  (∀ i j, nonneg (msm_lines_ad1 (map ZF.Fin A) (map ZF.Fin B) (ZF.Fin c) i j)) ∧
  (∀ i j, nonneg (msm_cols_ad1 (map ZF.Fin A) (map ZF.Fin B) (ZF.Fin c) i j)) ∧
  (∀ i j, nonneg (ad1 (map ZF.Fin A) (map ZF.Fin B) i j)).
Proof.
  intros Hc.
  assert (∀ l : list Z, Forall finite (map ZF.Fin l)) as Hfin.
  { intros l. induction l; constructor; done. }
  assert (nonneg (ZF.Fin c)) as Hc' by (by apply Z.leb_le).
  split_and!; intros i j;
    [apply msm_lines_ad1_nonneg|apply msm_cols_ad1_nonneg|apply ad1_nonneg]; auto.
Qed.

(** A NaN bound is no bound ([ub = QNAN: no lower bounding]): for cost
    functions that are never negative and sizes within the precondition
    of the kernel, [msm] with a NaN bound returns the value of the naive
    dynamic program, which is also its value with the bound [+∞]. *)
Theorem msm_nan_bound_is_no_bound `{FloatLaws F} (nblines nbcols : nat)
    (dist_lines dist_cols dist : nat → nat → F) (ub : F) (buffer_v : list F) :
  (∀ i j, nonneg (dist_lines i j)) → (∀ i j, nonneg (dist_cols i j)) →
  (∀ i j, nonneg (dist i j)) → nbcols ≤ nblines →
  isnan ub = true →
  msm nblines nbcols dist_lines dist_cols dist ub buffer_v
    = naive_msm nblines nbcols dist_lines dist_cols dist ∧
  msm nblines nbcols dist_lines dist_cols dist ub buffer_v
    = msm nblines nbcols dist_lines dist_cols dist PINF buffer_v.
Proof.
  intros Hdl Hdc Hd _ Hnan.
  assert (∀ u, isinf u || isnan u = true →
            msm nblines nbcols dist_lines dist_cols dist u buffer_v
            = naive_msm nblines nbcols dist_lines dist_cols dist) as Hno.
  { intros u Hu. destruct (decide (0 < nblines ∧ 0 < nbcols)) as [[Hnl Hnc]|Hz].
    - rewrite msm_nonempty by done. by rewrite Hu.
    - unfold msm, naive_msm. destruct nblines as [|i], nbcols as [|j]; try done. lia. }
  rewrite !Hno; [done| |].
  - by rewrite isinf_pinf.
  - rewrite Hnan. apply orb_true_r.
Qed.

Lemma msm_nan_bound_is_no_bound_witness :
  let A := map ZF.Fin [1; 5; 2]%Z in
  let B := map ZF.Fin [2; 2]%Z in
  let dl := msm_lines_ad1 A B (ZF.Fin 1) in
  let dc := msm_cols_ad1 A B (ZF.Fin 1) in
  let d := ad1 A B in
  msm 3 2 dl dc d ZF.NaN [] = naive_msm 3 2 dl dc d ∧
  msm 3 2 dl dc d ZF.NaN [] = msm 3 2 dl dc d PINF [].
Proof.
  destruct (toy_costs_nonneg [1; 5; 2]%Z [2; 2]%Z 1 ltac:(lia)) as (Hdl & Hdc & Hd).
  apply (msm_nan_bound_is_no_bound 3 2 _ _ _ ZF.NaN [] Hdl Hdc Hd); [lia|reflexivity].
Defined.

(** Early abandoning is exact: for cost functions that are never negative,
    non-empty sizes within the precondition of the kernel and a bound that
    is neither NaN nor an infinity, [msm] returns the value of the naive
    dynamic program when that value is at most the bound, and [+∞] when it
    is above; a result other than [+∞] is therefore within the bound. *)
Theorem msm_early_abandon_exact `{FloatLaws F} (nblines nbcols : nat)
    (dist_lines dist_cols dist : nat → nat → F) (ub : F) (buffer_v : list F) :
  (∀ i j, nonneg (dist_lines i j)) → (∀ i j, nonneg (dist_cols i j)) →
  (∀ i j, nonneg (dist i j)) → 0 < nbcols ≤ nblines →
  isinf ub = false → isnan ub = false →
  let naive := naive_msm nblines nbcols dist_lines dist_cols dist in
  let result := msm nblines nbcols dist_lines dist_cols dist ub buffer_v in
  (le naive ub → result = naive) ∧
  (lt ub naive → result = PINF) ∧
  (result ≠ PINF → le result ub).
Proof.
  intros Hdl Hdc Hd Hlen Hinf Hnan naive result. subst result.
  rewrite msm_nonempty by (done || lia). rewrite Hinf, Hnan. cbn [orb]. fold naive.
  unfold eap_contract. split_and!.
  - intros Hle. unfold le in Hle. by rewrite Hle.
  - intros Hlt. by rewrite (lt_nle _ _ Hlt).
  - destruct (Fleb naive ub) eqn:Hle; done.
Qed.

Lemma msm_early_abandon_exact_witness :
  let A := map ZF.Fin [1; 5; 2]%Z in
  let B := map ZF.Fin [2; 2]%Z in
  let dl := msm_lines_ad1 A B (ZF.Fin 1) in
  let dc := msm_cols_ad1 A B (ZF.Fin 1) in
  let d := ad1 A B in
  let naive := naive_msm 3 2 dl dc d in
  let result := msm 3 2 dl dc d (ZF.Fin 3) [] in
  (le naive (ZF.Fin 3) → result = naive) ∧
  (lt (ZF.Fin 3) naive → result = PINF) ∧
  (result ≠ PINF → le result (ZF.Fin 3)).
Proof.
  destruct (toy_costs_nonneg [1; 5; 2]%Z [2; 2]%Z 1 ltac:(lia)) as (Hdl & Hdc & Hd).
  apply (msm_early_abandon_exact 3 2 _ _ _ (ZF.Fin 3) [] Hdl Hdc Hd);
    [lia|reflexivity|reflexivity].
Defined.

(** [msm] never returns a negative value nor a NaN: for cost functions
    that are never negative the result is at least zero, whatever the
    bound is (negative, infinite and NaN bounds included). *)
Theorem msm_never_negative `{FloatLaws F} (nblines nbcols : nat)
    (dist_lines dist_cols dist : nat → nat → F) (ub : F) (buffer_v : list F) :
  (∀ i j, nonneg (dist_lines i j)) → (∀ i j, nonneg (dist_cols i j)) →
  (∀ i j, nonneg (dist i j)) → nbcols ≤ nblines →
  nonneg (msm nblines nbcols dist_lines dist_cols dist ub buffer_v) ∧
  isnan (msm nblines nbcols dist_lines dist_cols dist ub buffer_v) = false.
Proof.
  intros Hdl Hdc Hd _.
  assert (nonneg (msm nblines nbcols dist_lines dist_cols dist ub buffer_v)) as Hnn.
  { destruct (msm_sound dist_lines dist_cols dist Hdl Hdc Hd nblines nbcols ub buffer_v)
      as [-> | ->]; [|apply pinf_top, zero_ok].
    unfold naive_msm. destruct nblines, nbcols; try apply zero_ok;
      try apply pinf_top, zero_ok. by apply naive_cell_nonneg. }
  split; [done|]. rewrite isnan_spec. apply nonneg_ok in Hnn. unfold ok in Hnn.
  by rewrite Hnn.
Qed.

Lemma msm_never_negative_witness :
  let A := map ZF.Fin [1; 5; 2]%Z in
  let B := map ZF.Fin [2; 2]%Z in
  let dl := msm_lines_ad1 A B (ZF.Fin 1) in
  let dc := msm_cols_ad1 A B (ZF.Fin 1) in
  let d := ad1 A B in
  nonneg (msm 3 2 dl dc d (ZF.Fin (-4)) []) ∧ isnan (msm 3 2 dl dc d (ZF.Fin (-4)) []) = false.
Proof.
  destruct (toy_costs_nonneg [1; 5; 2]%Z [2; 2]%Z 1 ltac:(lia)) as (Hdl & Hdc & Hd).
  apply (msm_never_negative 3 2 _ _ _ (ZF.Fin (-4)) [] Hdl Hdc Hd). lia.
Defined.

(** The bound that [msm] computes along the diagonal when the caller gives
    an infinite one is admissible: for cost functions that are never
    negative it is not below the value of the naive dynamic program, so
    that this bound never makes the kernel abandon. *)
Theorem msm_diagonal_bound_admissible `{FloatLaws F} (nblines nbcols : nat)
    (dist_lines dist_cols dist : nat → nat → F) :
  (∀ i j, nonneg (dist_lines i j)) → (∀ i j, nonneg (dist_cols i j)) →
  (∀ i j, nonneg (dist i j)) → 0 < nbcols ≤ nblines →
  le (naive_msm nblines nbcols dist_lines dist_cols dist)
     (diagonal_ub nblines nbcols dist_lines dist_cols dist).
Proof.
  intros Hdl Hdc Hd Hlen. unfold naive_msm.
  pose proof (diagonal_ub_admissible dist_lines dist_cols dist Hdl Hdc Hd nblines nbcols
                ltac:(lia) ltac:(lia)) as Hdiag.
  destruct nblines as [|i]; [lia|]. destruct nbcols as [|j]; [lia|].
  replace (S i - 1) with i in Hdiag by lia. replace (S j - 1) with j in Hdiag by lia. done.
Qed.

Lemma msm_diagonal_bound_admissible_witness :
  let A := map ZF.Fin [1; 5; 2]%Z in
  let B := map ZF.Fin [2; 2]%Z in
  let dl := msm_lines_ad1 A B (ZF.Fin 1) in
  let dc := msm_cols_ad1 A B (ZF.Fin 1) in
  let d := ad1 A B in
  le (naive_msm 3 2 dl dc d) (diagonal_ub 3 2 dl dc d).
Proof.
  destruct (toy_costs_nonneg [1; 5; 2]%Z [2; 2]%Z 1 ltac:(lia)) as (Hdl & Hdc & Hd).
  apply (msm_diagonal_bound_admissible 3 2 _ _ _ Hdl Hdc Hd). lia.
Defined.

(** The bound of the [initBlock] is admissible: with at least two columns
    and a best step into the last cell that is finite and not negative,
    the bound used for pruning is the neighbour of the cutoff towards
    [+∞], hence not below the cutoff. *)
Theorem msm_ub_admissible `{FloatLaws F} (nblines nbcols : nat)
    (dist_lines dist_cols dist : nat → nat → F) (cutoff : F) :
  let la := min3 (dist (nblines - 1) (nbcols - 1)) (dist_cols (nblines - 1) (nbcols - 1))
                 (dist_lines (nblines - 1) (nbcols - 1)) in
  ok cutoff → 2 ≤ nbcols → nonneg la → lt la PINF →
  msm_ub nblines nbcols dist_lines dist_cols dist cutoff = nextafter cutoff PINF ∧
  le cutoff (msm_ub nblines nbcols dist_lines dist_cols dist cutoff).
Proof.
  intros la Hcut Hnc Hla Hfin.
  rewrite (msm_ub_finite_step nblines nbcols dist_lines dist_cols dist cutoff Hnc Hla Hfin).
  split; [done|]. by apply nextafter_up.
Qed.

Lemma msm_ub_admissible_witness :
  let A := map ZF.Fin [1; 5; 2]%Z in
  let B := map ZF.Fin [2; 2]%Z in
  let dl := msm_lines_ad1 A B (ZF.Fin 1) in
  let dc := msm_cols_ad1 A B (ZF.Fin 1) in
  let d := ad1 A B in
  msm_ub 3 2 dl dc d (ZF.Fin 10) = nextafter (ZF.Fin 10) PINF ∧
  le (ZF.Fin 10) (msm_ub 3 2 dl dc d (ZF.Fin 10)).
Proof.
  apply (msm_ub_admissible 3 2 (msm_lines_ad1 (map ZF.Fin [1; 5; 2]%Z) (map ZF.Fin [2; 2]%Z)
                                  (ZF.Fin 1))
           (msm_cols_ad1 (map ZF.Fin [1; 5; 2]%Z) (map ZF.Fin [2; 2]%Z) (ZF.Fin 1))
           (ad1 (map ZF.Fin [1; 5; 2]%Z) (map ZF.Fin [2; 2]%Z)) (ZF.Fin 10));
    [reflexivity|lia|reflexivity|reflexivity].
Defined.

Section MinOrder.
Context `{FloatSymLaws F}.
Implicit Types a b c : F.

Lemma pos_or_zero_ok a : pos_or_zero a → ok a.
Proof. intros Ha. by apply nonneg_ok, pos_or_zero_nonneg. Qed.

(** On values that are zero or positive [std::min] is commutative and
    associative. *)
Lemma std_min_comm a b : pos_or_zero a → pos_or_zero b → std_min a b = std_min b a.
Proof.
  intros Ha Hb. pose proof (pos_or_zero_ok a Ha) as Hoa. pose proof (pos_or_zero_ok b Hb) as Hob.
  apply le_antisym; try (by apply pos_or_zero_std_min).
  - destruct (std_min_cases b a) as [-> | ->]; [by apply std_min_le_r|by apply std_min_le_l].
  - destruct (std_min_cases a b) as [-> | ->]; [by apply std_min_le_r|by apply std_min_le_l].
Qed.

Lemma min3_swap a b c :
  pos_or_zero a → pos_or_zero b → pos_or_zero c → min3 a b c = min3 a c b.
Proof. intros Ha Hb Hc. unfold min3. by rewrite (std_min_comm b c). Qed.

End MinOrder.

Section MsmSymmetry.
Context `{FloatSymLaws F}.
Variables dist_lines dist_cols dist : nat → nat → F.
Hypothesis dist_lines_nonneg : ∀ i j, nonneg (dist_lines i j).
Hypothesis dist_cols_nonneg : ∀ i j, nonneg (dist_cols i j).
Hypothesis dist_nonneg : ∀ i j, nonneg (dist i j).
Hypothesis dist_first : pos_or_zero (dist 0 0).

Lemma naive_cell_pos_or_zero i j : pos_or_zero (naive_cell dist_lines dist_cols dist i j).
Proof.
  revert j. induction i as [|i IHi]; intros j.
  - induction j as [|j IHj]; [done|].
    rewrite naive_cell_0_S. by apply add_pos_or_zero_l.
  - induction j as [|j IHj].
    + rewrite naive_cell_S_0. by apply add_pos_or_zero_l.
    + rewrite naive_cell_S_S. unfold min3.
      repeat apply pos_or_zero_std_min; by apply add_pos_or_zero_l.
Qed.

(** Exchanging the lines and the columns transposes the matrix. *)
Lemma naive_cell_transpose i j :
  naive_cell dist_lines dist_cols dist i j
  = naive_cell (λ i j, dist_cols j i) (λ i j, dist_lines j i) (λ i j, dist j i) j i.
Proof.
  revert j. induction i as [|i IHi]; intros j.
  - induction j as [|j IHj]; [done|].
    rewrite naive_cell_0_S, naive_cell_S_0. by rewrite IHj.
  - induction j as [|j IHj].
    + rewrite naive_cell_S_0, naive_cell_0_S. by rewrite IHi.
    + rewrite !naive_cell_S_S. rewrite <- IHj, <- !IHi.
      apply min3_swap; apply add_pos_or_zero_l; auto using naive_cell_pos_or_zero.
Qed.

End MsmSymmetry.

Section UnivariateSymmetry.
Context `{FloatSymLaws F}.
Implicit Types A B : list F.

Lemma naive_cell_ext (dl dc d dl' dc' d' : nat → nat → F) :
  (∀ i j, dl i j = dl' i j) → (∀ i j, dc i j = dc' i j) → (∀ i j, d i j = d' i j) →
  ∀ i j, naive_cell dl dc d i j = naive_cell dl' dc' d' i j.
Proof.
  intros Hl Hc Hd i. induction i as [|i IHi]; intros j.
  - induction j as [|j IHj]; [apply Hd|].
    rewrite !naive_cell_0_S. by rewrite IHj, Hc.
  - induction j as [|j IHj].
    + rewrite !naive_cell_S_0. by rewrite IHi, Hl.
    + rewrite !naive_cell_S_S. by rewrite IHj, !IHi, Hl, Hc, Hd.
Qed.

Lemma ad1_sym A B i j : Forall finite A → Forall finite B → ad1 A B i j = ad1 B A j i.
Proof. intros HA HB. unfold ad1. apply abs_sub_sym; by apply rd_finite. Qed.

Lemma naive_univariate_msm_sym A B c :
  Forall finite A → Forall finite B → nonneg c →
  naive_univariate_msm A B c = naive_univariate_msm B A c.
Proof.
  intros HA HB Hc. unfold naive_univariate_msm, naive_msm.
  destruct (length A) as [|i], (length B) as [|j]; try done.
  rewrite naive_cell_transpose;
    auto using ad1_nonneg, msm_lines_ad1_nonneg, msm_cols_ad1_nonneg.
  - apply naive_cell_ext; [done..|]. intros. by apply ad1_sym.
  - unfold ad1. apply abs_pos_or_zero, sub_finite_ok; by apply rd_finite.
Qed.

End UnivariateSymmetry.

(** MSM is symmetric: for two finite series of the same length (so that
    both calls are within the precondition of the kernel) and a
    non-negative cost, exchanging the series changes neither the value of
    the naive dynamic program nor the result of [msm], whatever the bound. *)
Theorem msm_symmetric `{FloatSymLaws F} (A B : list F) (c ub : F) :
  Forall finite A → Forall finite B → nonneg c → length A = length B →
  naive_univariate_msm A B c = naive_univariate_msm B A c ∧
  univariate_msm A B c ub = univariate_msm B A c ub.
Proof.
  intros HA HB Hc Hlen.
  pose proof (naive_univariate_msm_sym A B c HA HB Hc) as Hsym. split; [done|].
  destruct (decide (0 < length A)) as [Hn|Hz].
  - rewrite !univariate_msm_nonempty by (done || lia). by rewrite Hsym.
  - unfold univariate_msm, msm_nobuffer, msm.
    rewrite <- Hlen. by replace (length A) with 0 by lia.
Qed.

Lemma msm_symmetric_witness :
  let A := [ZF.Fin 1; ZF.Fin 5; ZF.Fin 2] in
  let B := [ZF.Fin 2; ZF.Fin 2; ZF.Fin 7] in
  naive_univariate_msm A B (ZF.Fin 1) = naive_univariate_msm B A (ZF.Fin 1) ∧
  univariate_msm A B (ZF.Fin 1) (ZF.Fin 4) = univariate_msm B A (ZF.Fin 1) (ZF.Fin 4).
Proof.
  apply (msm_symmetric [ZF.Fin 1; ZF.Fin 5; ZF.Fin 2] [ZF.Fin 2; ZF.Fin 2; ZF.Fin 7]
           (ZF.Fin 1) (ZF.Fin 4));
    [repeat constructor..|reflexivity].
Defined.

(* ===================================================================== *)
(** * What the NN1 loop of the splitters computes *)
(* ===================================================================== *)

Section NearestLabels.
Context `{Float F} `{Countable L}.
Implicit Types (ds : list (TSeries F L)) (idxs : list nat).

(** The smallest of [bsf] and of the distances from the exemplars to the
    query, the distances taken without cutoff. *)
Definition nn1_min (d : TSeries F L → TSeries F L → F) ds (q : TSeries F L) idxs (bsf : F) : F :=
  fold_left (λ m idx,
      match ds !! idx with
      | Some ex => if Fltb (d ex q) m then d ex q else m
      | None => m
      end) idxs bsf.

(** The labels of the exemplars whose distance to the query compares equal
    to [m], in scan order. *)
Definition labels_at (d : TSeries F L → TSeries F L → F) ds (q : TSeries F L) idxs (m : F)
    : list L :=
  omap (λ idx, ex ← ds !! idx; if Feqb m (d ex q) then ts_label ex else None) idxs.

(** A distance with a cutoff that early abandons, on the exemplars and the
    query at hand: it returns the distance [d] without cutoff, which is
    not NaN, or [+∞] when that distance is above the cutoff. *)
Definition eap_distance (distance : distance_t F L) (d : TSeries F L → TSeries F L → F)
    ds (q : TSeries F L) idxs : Prop :=
  ∀ idx ex, idx ∈ idxs → ds !! idx = Some ex →
    ok (d ex q) ∧
    ∀ u, ok u → distance ex q u = d ex q ∨ (lt u (d ex q) ∧ distance ex q u = PINF).

(** One step of the tie list *)
Definition add_label (acc : list L) (l : L) : list L :=
  if decide (l ∈ acc) then acc else acc ++ [l].

End NearestLabels.

Section NearestLabelsProof.
Context `{FloatLaws F} `{Countable L}.
Implicit Types (ds : list (TSeries F L)) (idxs : list nat).

Lemma nn1_min_step d ds q idx idxs bsf :
  nn1_min d ds q (idx :: idxs) bsf
  = nn1_min d ds q idxs
      (match ds !! idx with
       | Some ex => if Fltb (d ex q) bsf then d ex q else bsf
       | None => bsf
       end).
Proof. reflexivity. Qed.

Lemma nn1_min_cons d ds q idx idxs bsf ex :
  ds !! idx = Some ex →
  nn1_min d ds q (idx :: idxs) bsf
  = nn1_min d ds q idxs (if Fltb (d ex q) bsf then d ex q else bsf).
Proof. intros Hex. unfold nn1_min. cbn. by rewrite Hex. Qed.

Lemma labels_at_cons d ds q idx idxs m ex l :
  ds !! idx = Some ex → ts_label ex = Some l →
  labels_at d ds q (idx :: idxs) m
  = (if Feqb m (d ex q) then [l] else []) ++ labels_at d ds q idxs m.
Proof.
  intros Hex Hl. unfold labels_at. cbn. rewrite Hex. cbn.
  destruct (Feqb m (d ex q)); cbn; by rewrite ?Hl.
Qed.

Lemma ok_on_tail d ds (q : TSeries F L) idx0 idxs :
  (∀ idx ex, idx ∈ idx0 :: idxs → ds !! idx = Some ex → ok (d ex q)) →
  ∀ idx ex, idx ∈ idxs → ds !! idx = Some ex → ok (d ex q).
Proof. intros Hd idx ex Hin. apply Hd. by right. Qed.

Lemma nn1_min_le d ds q idxs : ∀ bsf,
  (∀ idx ex, idx ∈ idxs → ds !! idx = Some ex → ok (d ex q)) → ok bsf →
  ok (nn1_min d ds q idxs bsf) ∧ le (nn1_min d ds q idxs bsf) bsf.
Proof.
  induction idxs as [|idx idxs IH]; intros bsf Hd Hbsf; [done|].
  pose proof (ok_on_tail _ _ _ _ _ Hd) as Hd'.
  rewrite nn1_min_step.
  destruct (ds !! idx) as [ex|] eqn:Hex; [|by apply IH].
  destruct (Fltb (d ex q) bsf) eqn:Hlt; [|by apply IH].
  assert (ok (d ex q)) as Hok0 by (eapply Hd; [left|done]).
  destruct (IH (d ex q) Hd' Hok0) as [Hok Hle]. split; [done|].
  eapply leb_trans; [done|]. by apply lt_le.
Qed.

Lemma feqb_false_lt (x y : F) : lt x y → Feqb x y = false.
Proof.
  intros Hlt. destruct (Feqb x y) eqn:E; [|done].
  apply eqb_spec in E as [_ E]. apply lt_nle in Hlt. congruence.
Qed.

(** The loop with a distance that ignores its cutoff. *)
Lemma nn1_loop_exact (d : TSeries F L → TSeries F L → F) ds q idxs : ∀ bsf labels,
  (∀ idx ex, idx ∈ idxs → ds !! idx = Some ex → ok (d ex q)) → labelled ds idxs → ok bsf →
  let m := nn1_min d ds q idxs bsf in
  nn1_loop (λ a b _, d a b) ds q idxs bsf labels
  = Some (m, fold_left add_label (labels_at d ds q idxs m)
               (if Fltb m bsf then [] else labels)).
Proof.
  intros bsf labels Hd Hlab. revert bsf labels.
  induction Hlab as [|idx idxs (ex & l & Hex & Hl) _ IH]; intros bsf labels Hbsf m.
  { subst m. cbn. destruct (Fltb bsf bsf) eqn:E; [|done].
    apply lt_nle in E. unfold ok in Hbsf. congruence. }
  pose proof (ok_on_tail _ _ _ _ _ Hd) as Hd'. specialize (IH Hd').
  assert (ok (d ex q)) as Hok0 by (eapply Hd; [left|done]).
  subst m. rewrite (nn1_min_cons _ _ _ _ _ _ _ Hex), (labels_at_cons _ _ _ _ _ _ _ _ Hex Hl).
  cbn [nn1_loop]. rewrite Hex. cbn. rewrite Hl. cbn.
  destruct (Fltb (d ex q) bsf) eqn:Hlt.
  - rewrite IH by done. cbn zeta.
    destruct (nn1_min_le d ds q idxs (d ex q) Hd' Hok0) as [Hok Hle].
    set (m := nn1_min d ds q idxs (d ex q)) in *.
    assert (Fltb m bsf = true) as -> by (by eapply le_lt_trans).
    destruct (Fltb m (d ex q)) eqn:Hm.
    + by rewrite (feqb_false_lt _ _ Hm).
    + assert (Feqb m (d ex q) = true) as ->.
      { apply eqb_spec. split; [done|]. by apply nlt_le. }
      done.
  - destruct (nn1_min_le d ds q idxs bsf Hd' Hbsf) as [Hok Hle].
    destruct (Feqb bsf (d ex q)) eqn:Heq.
    + rewrite IH by done. cbn zeta.
      set (m := nn1_min d ds q idxs bsf) in *.
      apply eqb_spec in Heq as [Hbd Hdb].
      destruct (Fltb m bsf) eqn:Hm.
      * by rewrite (feqb_false_lt m (d ex q)) by (by eapply lt_le_trans).
      * assert (Feqb m (d ex q) = true) as ->.
        { apply eqb_spec. split; [by eapply leb_trans|].
          eapply leb_trans; [done|]. by apply nlt_le. }
        done.
    + rewrite IH by done. cbn zeta.
      set (m := nn1_min d ds q idxs bsf) in *.
      assert (lt bsf (d ex q)) as Hbd.
      { apply nle_lt; [done..|]. destruct (Fleb (d ex q) bsf) eqn:E; [|done].
        assert (Feqb bsf (d ex q) = true); [|congruence].
        apply eqb_spec. split; [|done]. by apply nlt_le. }
      by rewrite (feqb_false_lt m (d ex q)) by (by eapply le_lt_trans).
Qed.

(** With the best-so-far as cutoff, an early abandoning distance drives
    the loop as the distance without cutoff does. *)
Lemma nn1_loop_eap (distance : distance_t F L) d ds q idxs : ∀ bsf labels,
  eap_distance distance d ds q idxs → ok bsf →
  nn1_loop distance ds q idxs bsf labels = nn1_loop (λ a b _, d a b) ds q idxs bsf labels.
Proof.
  induction idxs as [|idx idxs IH]; intros bsf labels Heap Hbsf; [done|].
  assert (eap_distance distance d ds q idxs) as Heap'.
  { intros idx' ex' Hin. apply Heap. by right. }
  cbn [nn1_loop]. destruct (ds !! idx) as [ex|] eqn:Hex; [|done]. cbn.
  destruct (Heap idx ex) as [Hok Hcases]; [left|done|].
  destruct (Hcases bsf Hbsf) as [-> | [Hlt ->]].
  - destruct (Fltb (d ex q) bsf); [|destruct (Feqb bsf (d ex q))];
      destruct (ts_label ex); cbn; auto.
  - rewrite pinf_not_lt by done.
    assert (Fltb (d ex q) bsf = false) as ->.
    { destruct (Fltb (d ex q) bsf) eqn:E; [|done].
      apply lt_nle in Hlt. apply lt_le in E. unfold le in E. congruence. }
    rewrite (feqb_false_lt _ _ Hlt).
    assert (Feqb bsf PINF = false) as ->.
    { apply feqb_false_lt. eapply lt_le_trans; [done|]. by apply pinf_top. }
    by apply IH.
Qed.

Lemma nn1_min_lower d ds q idxs : ∀ bsf,
  (∀ idx ex, idx ∈ idxs → ds !! idx = Some ex → ok (d ex q)) → ok bsf →
  ∀ idx ex, idx ∈ idxs → ds !! idx = Some ex → le (nn1_min d ds q idxs bsf) (d ex q).
Proof.
  induction idxs as [|idx0 idxs IH]; intros bsf Hd Hbsf idx ex Hin Hex.
  { by apply not_elem_of_nil in Hin. }
  pose proof (ok_on_tail _ _ _ _ _ Hd) as Hd'.
  rewrite nn1_min_step.
  apply elem_of_cons in Hin as [->|Hin].
  - rewrite Hex. assert (ok (d ex q)) as Hok0 by (eapply Hd; [left|done]).
    destruct (Fltb (d ex q) bsf) eqn:Hlt.
    + by apply nn1_min_le.
    + eapply leb_trans; [by apply nn1_min_le|]. by apply nlt_le.
  - destruct (ds !! idx0) as [ex0|] eqn:Hex0; [|by eapply IH].
    assert (ok (d ex0 q)) as Hok0 by (eapply Hd; [left|done]).
    destruct (Fltb (d ex0 q) bsf); by eapply IH.
Qed.

Lemma nn1_min_attained d ds q idxs : ∀ bsf,
  nn1_min d ds q idxs bsf = bsf
  ∨ ∃ idx ex, idx ∈ idxs ∧ ds !! idx = Some ex ∧ nn1_min d ds q idxs bsf = d ex q.
Proof.
  induction idxs as [|idx0 idxs IH]; intros bsf; [by left|].
  rewrite nn1_min_step.
  destruct (ds !! idx0) as [ex0|] eqn:Hex0.
  - destruct (Fltb (d ex0 q) bsf).
    + destruct (IH (d ex0 q)) as [-> | (idx & ex & Hin & Hex & ->)].
      * right. exists idx0, ex0. split_and!; [left|done..].
      * right. exists idx, ex. split_and!; [by right|done..].
    + destruct (IH bsf) as [-> | (idx & ex & Hin & Hex & ->)]; [by left|].
      right. exists idx, ex. split_and!; [by right|done..].
  - destruct (IH bsf) as [-> | (idx & ex & Hin & Hex & ->)]; [by left|].
    right. exists idx, ex. split_and!; [by right|done..].
Qed.

Lemma nn1_loop_nearest_labels (distance : distance_t F L) d ds q idxs :
  eap_distance distance d ds q idxs → labelled ds idxs →
  nn1_loop distance ds q idxs PINF []
  = Some (nn1_min d ds q idxs PINF,
          first_occurrences (labels_at d ds q idxs (nn1_min d ds q idxs PINF))).
Proof.
  intros Heap Hlab.
  assert (∀ idx ex, idx ∈ idxs → ds !! idx = Some ex → ok (d ex q)) as Hd.
  { intros idx ex Hin Hex. by apply (Heap idx ex). }
  rewrite (nn1_loop_eap distance d) by (done || apply pinf_ok).
  rewrite nn1_loop_exact by (done || apply pinf_ok). cbn zeta.
  by destruct (Fltb _ PINF).
Qed.

(** An exact distance and the contract of the skeleton both early abandon. *)
Lemma exact_eap_distance d ds q idxs :
  (∀ a b, ok (d a b)) → eap_distance (λ a b _, d a b) d ds q idxs.
Proof. intros Hd idx ex _ _. split; [done|]. intros u _. by left. Qed.

Lemma contract_eap_distance d ds q idxs :
  (∀ a b, ok (d a b)) → eap_distance (λ a b u, eap_contract (d a b) u) d ds q idxs.
Proof.
  intros Hd idx ex _ _. split; [done|]. intros u Hu. unfold eap_contract.
  destruct (Fleb (d ex q) u) eqn:E; [by left|right]. split; [|done]. by apply nle_lt.
Qed.

End NearestLabelsProof.

(** The NN1 loop of the splitters returns the smallest distance from an
    exemplar to the query and the labels of exactly the exemplars at that
    distance, each label once, in the order of their first occurrence:
    this for every early abandoning distance, the cutoff changes nothing.
    The smallest distance is below the distance of every exemplar and,
    unless it is [+∞], it is the distance of one of them. *)
Theorem nn1_loop_nearest `{FloatLaws F} `{Countable L}
    (distance : distance_t F L) (d : TSeries F L → TSeries F L → F)
    (ds : list (TSeries F L)) (q : TSeries F L) (idxs : list nat) :
  eap_distance distance d ds q idxs → labelled ds idxs →
  let m := nn1_min d ds q idxs PINF in
  nn1_loop distance ds q idxs PINF [] = Some (m, first_occurrences (labels_at d ds q idxs m)) ∧
  (∀ idx ex, idx ∈ idxs → ds !! idx = Some ex → le m (d ex q)) ∧
  (m = PINF ∨ ∃ idx ex, idx ∈ idxs ∧ ds !! idx = Some ex ∧ m = d ex q).
Proof.
  intros Heap Hlab m.
  assert (∀ idx ex, idx ∈ idxs → ds !! idx = Some ex → ok (d ex q)) as Hd.
  { intros idx ex Hin Hex. by apply (Heap idx ex). }
  split_and!.
  - by apply nn1_loop_nearest_labels.
  - intros idx ex. apply nn1_min_lower; [done|apply pinf_ok].
  - apply nn1_min_attained.
Qed.

(** ** The univariate MSM as the distance of a splitter *)

Section MsmDistance.
Context `{FloatLaws F} `{Countable L}.

Definition msm_distance (c : F) : distance_t F L :=
  λ train_exemplar test_exemplar bsf,
    univariate_msm (ts_data train_exemplar) (ts_data test_exemplar) c bsf.

Lemma univariate_msm_cases (A B : list F) c ub :
  Forall finite A → Forall finite B → nonneg c → ok ub →
  univariate_msm A B c ub = naive_univariate_msm A B c
  ∨ (lt ub (naive_univariate_msm A B c) ∧ univariate_msm A B c ub = PINF).
Proof.
  intros HA HB Hc Hub.
  destruct (decide (0 < length A ∧ 0 < length B)) as [[HnA HnB]|Hz].
  - rewrite univariate_msm_nonempty by done.
    destruct (isinf ub || isnan ub); [by left|]. unfold eap_contract.
    destruct (Fleb (naive_univariate_msm A B c) ub) eqn:E; [by left|right].
    split; [|done]. apply nle_lt; [|done..].
    by apply nonneg_ok, naive_univariate_msm_nonneg.
  - left. unfold univariate_msm, msm_nobuffer, naive_univariate_msm, msm, naive_msm.
    destruct (length A) as [|i], (length B) as [|j]; try done. lia.
Qed.

(** On a dataset of finite series and a finite query, MSM early abandons. *)
Lemma msm_eap_distance (c : F) (ds : list (TSeries F L)) (q : TSeries F L) idxs :
  nonneg c → Forall (λ ts, Forall finite (ts_data ts)) ds → Forall finite (ts_data q) →
  eap_distance (msm_distance c)
    (λ a b, naive_univariate_msm (ts_data a) (ts_data b) c) ds q idxs.
Proof.
  intros Hc Hds Hq idx ex _ Hex.
  pose proof (Forall_lookup_1 _ _ _ _ Hds Hex) as Hfin. cbn beta in Hfin.
  split.
  - by apply nonneg_ok, naive_univariate_msm_nonneg.
  - intros u Hu. by apply univariate_msm_cases.
Qed.

End MsmDistance.

(** Three exemplars of two classes; the query is nearest to the exemplars
    0 and 2, both of class 7. *)
Definition near_dataset : list (TSeries ZF.t nat) :=
  [ mkTSeries [ZF.Fin 1; ZF.Fin 2] (Some 7);
    mkTSeries [ZF.Fin 9; ZF.Fin 9] (Some 4);
    mkTSeries [ZF.Fin 2; ZF.Fin 1] (Some 7) ].

Definition near_query : TSeries ZF.t nat := mkTSeries [ZF.Fin 1; ZF.Fin 1] None.

Lemma near_labelled : labelled near_dataset [0; 1; 2].
Proof.
  repeat apply Forall_cons_2; try apply Forall_nil_2; eexists _, _; by split.
Qed.

Lemma near_finite : Forall (λ ts : TSeries ZF.t nat, Forall finite (ts_data ts)) near_dataset.
Proof. repeat apply Forall_cons_2; try apply Forall_nil_2; by repeat constructor. Qed.

Lemma nn1_loop_nearest_witness :
  let d := λ a b : TSeries ZF.t nat, naive_univariate_msm (ts_data a) (ts_data b) (ZF.Fin 1) in
  let m := nn1_min d near_dataset near_query [0; 1; 2] PINF in
  nn1_loop (msm_distance (ZF.Fin 1)) near_dataset near_query [0; 1; 2] PINF []
    = Some (m, first_occurrences (labels_at d near_dataset near_query [0; 1; 2] m)) ∧
  (∀ idx ex, idx ∈ [0; 1; 2] → near_dataset !! idx = Some ex → le m (d ex near_query)) ∧
  (m = PINF ∨ ∃ idx ex, idx ∈ [0; 1; 2] ∧ near_dataset !! idx = Some ex ∧ m = d ex near_query).
Proof.
  apply (nn1_loop_nearest (msm_distance (ZF.Fin 1))
           (λ a b, naive_univariate_msm (ts_data a) (ts_data b) (ZF.Fin 1))
           near_dataset near_query [0; 1; 2]).
  - apply msm_eap_distance; [done|apply near_finite|by repeat constructor].
  - apply near_labelled.
Defined.

(* ===================================================================== *)
(** * Further properties of the splitters *)
(* ===================================================================== *)

Section BranchProof.
Context `{FloatLaws F} `{Countable L}.
Implicit Types (ds : list (TSeries F L)) (bcm m : gmap L (list nat)).

Lemma first_occurrences_single (l : L) (ls : list L) :
  ls ≠ [] → (∀ l', l' ∈ ls → l' = l) → first_occurrences ls = [l].
Proof.
  intros Hne Hall. unfold first_occurrences.
  destruct ls as [|l0 ls]; [done|]. cbn [fold_left].
  rewrite decide_False by apply not_elem_of_nil. cbn [app].
  assert (l0 = l) as -> by (apply Hall; left).
  assert (∀ l', l' ∈ ls → l' = l) as Hall' by (intros l' Hl'; apply Hall; by right).
  clear Hall Hne. induction ls as [|l1 ls IH]; [done|]. cbn [fold_left].
  assert (l1 = l) as -> by (apply Hall'; left).
  rewrite decide_True by left. apply IH. intros l' Hl'. apply Hall'. by right.
Qed.

Lemma pick_one_single {A} (x : A) (prng : list nat) : pick_one [x] prng = Some (x, tl prng).
Proof. unfold pick_one. cbn [length]. by rewrite Nat.mod_1_r. Qed.

(** What [generate] builds: the exemplars, one per class and in the order
    of the classes, and the rows routed to the branches. *)
Lemma generate_Some (distance : distance_t F L) tname (state : TreeState F L) bcm ds :
  (∀ l v, bcm !! l = Some v → v ≠ []) →
  dataset_shared_map state !! tname = Some ds →
  (∀ l v idx, bcm !! l = Some v → idx ∈ v → ∃ ts, ds !! idx = Some ts ∧ ts_label ts = Some l) →
  (∀ a b u, ok (distance a b u)) →
  ∃ idxs res prng,
    labelled ds idxs ∧ exemplar_labels ds idxs = classes bcm ∧
    length res = nb_classes bcm ∧
    (∃ prng1, route_all distance ds idxs (bcm_labels_to_index bcm) (IndexSet bcm)
                (replicate (nb_classes bcm) ∅) prng1 = Some (res, prng)) ∧
    generate distance tname state bcm
    = Some ((λ label, no_empty_bcm label
                        (default ∅ (res !! default 0 (bcm_labels_to_index bcm !! label))))
              <$> classes bcm,
            mkTestSplitter ds idxs (bcm_labels_to_index bcm) tname distance, prng).
Proof.
  intros Hclasses Hmap Hcons Hd. unfold generate, pick_one_by_class.
  destruct (pick_one_each_Some (map_to_list bcm).*2 (st_prng state))
    as (idxs & prng1 & -> & Hpicked).
  { apply Forall_fmap, Forall_forall. intros [l v] Hlv.
    apply elem_of_map_to_list in Hlv. cbn. by eapply Hclasses. }
  cbn. rewrite Hmap. cbn.
  destruct (picked_exemplars ds (map_to_list bcm) idxs) as [Hlab Hlabels]; [|done|].
  { intros l v idx Hlv. apply elem_of_map_to_list in Hlv. by apply Hcons. }
  destruct (route_all_Some distance ds idxs (bcm_labels_to_index bcm)
              (IndexSet bcm) (replicate (nb_classes bcm) ∅) prng1)
    as (res & prng2 & Hroute & Hlen & _); [|done..| | |].
  { intros Hne ->. apply Hne. apply Forall2_nil_inv_l in Hpicked.
    unfold IndexSet. by rewrite Hpicked. }
  { intros l Hl. rewrite Hlabels in Hl. rewrite length_replicate.
    by apply bcm_labels_to_index_elem. }
  { apply Forall_forall. intros idx Hidx. unfold IndexSet in Hidx.
    apply list_elem_of_join in Hidx as (v & Hidx & Hv).
    apply list_elem_of_fmap in Hv as ([l v'] & -> & Hlv).
    apply elem_of_map_to_list in Hlv.
    destruct (Hcons l v' idx Hlv Hidx) as (ts & Hts & Hl). by exists ts, l. }
  rewrite Hroute. cbn. rewrite length_replicate in Hlen.
  exists idxs, res, prng2. split_and!; [done..|by exists prng1|done].
Qed.

(** [get_branch_index] of a splitter whose exemplars carry the labels that
    its map of labels numbers below [n]. *)
Lemma get_branch_index_Some (sp : TestSplitter_1NN F L) (state : TreeState F L)
    test_idx test_dataset test_exemplar n :
  train_indexset sp ≠ [] → labelled (train_dataset sp) (train_indexset sp) →
  (∀ a b u, ok (distance sp a b u)) →
  (∀ l, l ∈ exemplar_labels (train_dataset sp) (train_indexset sp) →
        ∃ i, i < n ∧ labels_to_index sp !! l = Some i) →
  dataset_shared_map state !! transformation_name sp = Some test_dataset →
  test_dataset !! test_idx = Some test_exemplar →
  ∃ branch, get_branch_index sp state test_idx = Some (branch, tl (st_prng state)) ∧ branch < n.
Proof.
  intros Hne Hlab Hd Hl2i Hmap Hq. unfold get_branch_index. rewrite Hmap. cbn.
  rewrite Hq. cbn.
  destruct (nn1_loop_inv (distance sp) (train_dataset sp) test_exemplar (train_indexset sp)
              PINF [])
    as (bsf & labels & -> & _ & _ & Hempty & Hin);
    [done..|apply pinf_ok|apply NoDup_nil_2|done|]. cbn.
  assert (labels ≠ []) as Hne' by (intros E; by destruct (Hempty E)).
  destruct (pick_one_is_Some labels (st_prng state) Hne') as (label & -> & Hlabel). cbn.
  destruct (Hin label Hlabel) as [Habs|Hex]; [by apply not_elem_of_nil in Habs|].
  destruct (Hl2i label Hex) as (i & Hi & ->). cbn. by exists i.
Qed.

End BranchProof.

(** The splitter that [generate] returns fits its children: it holds one
    exemplar per class of the incoming map, in the order of the classes
    and with the label of the class, and at prediction it sends every row
    of a dataset under its transformation name to a branch that exists,
    drawing once from the PRNG.  The incoming map has at least one class,
    its classes are not empty and hold labelled rows, and the distance
    returns no NaN. *)
Theorem generate_splitter_fits_children `{FloatLaws F} `{Countable L}
    (dist : distance_t F L) (tname : string)
    (state : TreeState F L) (bcm : gmap L (list nat)) (ds : list (TSeries F L)) :
  bcm ≠ ∅ →
  (∀ l v, bcm !! l = Some v → v ≠ []) →
  dataset_shared_map state !! tname = Some ds →
  (∀ l v idx, bcm !! l = Some v → idx ∈ v →
     ∃ ts, ds !! idx = Some ts ∧ ts_label ts = Some l) →
  (∀ a b u, ok (dist a b u)) →
  ∃ children splitter prng,
    generate dist tname state bcm = Some (children, splitter, prng) ∧
    exemplar_labels ds (train_indexset splitter) = classes bcm ∧
    length (train_indexset splitter) = length children ∧
    ∀ (test_state : TreeState F L) test_dataset test_idx,
      dataset_shared_map test_state !! tname = Some test_dataset →
      test_idx < length test_dataset →
      ∃ branch,
        get_branch_index splitter test_state test_idx
          = Some (branch, tl (st_prng test_state)) ∧
        branch < length children.
Proof.
  intros Hbcm Hclasses Hmap Hcons Hd.
  destruct (generate_Some dist tname state bcm ds)
    as (idxs & res & prng & Hlab & Hlabels & Hlen & _ & ->); [done..|].
  eexists _, _, _. split; [done|]. cbn [train_indexset].
  assert (length idxs = nb_classes bcm) as Hidxs.
  { rewrite <- classes_length, <- Hlabels. unfold exemplar_labels.
    clear Hlabels. induction Hlab as [|idx idxs' (ts & l & Hts & Hl) _ IH]; [done|].
    cbn. rewrite Hts. cbn. rewrite Hl. cbn. by rewrite IH. }
  rewrite length_fmap, classes_length. split_and!; [done..|].
  intros test_state test_dataset test_idx Htest Hidx.
  apply lookup_lt_is_Some_2 in Hidx as [q Hq].
  eapply get_branch_index_Some;
    cbn [train_dataset train_indexset labels_to_index distance transformation_name]; [|done..| |done|done].
  - intros ->. cbn in Hidxs. apply Hbcm. apply map_size_empty_iff. by unfold nb_classes in Hidxs.
  - intros l Hl. rewrite Hlabels in Hl. by apply bcm_labels_to_index_elem.
Qed.

Lemma toy_bcm_classes_non_empty l v : toy_bcm !! l = Some v → v ≠ [].
Proof.
  intros Hlv. unfold toy_bcm in Hlv.
  apply lookup_insert_Some in Hlv as [[_ <-]|[_ Hlv]]; [done|].
  apply lookup_singleton_Some in Hlv as [_ <-]. done.
Qed.

Lemma toy_bcm_labelled l v idx :
  toy_bcm !! l = Some v → idx ∈ v →
  ∃ ts, toy_dataset !! idx = Some ts ∧ ts_label ts = Some l.
Proof.
  intros Hlv Hidx. unfold toy_bcm in Hlv.
  apply lookup_insert_Some in Hlv as [[<- <-]|[_ Hlv]].
  - apply elem_of_cons in Hidx as [->|Hidx]; [by exists (toy_series 0)|].
    apply list_elem_of_singleton in Hidx as ->. by exists (toy_series 0).
  - apply lookup_singleton_Some in Hlv as [<- <-].
    apply list_elem_of_singleton in Hidx as ->. by exists (toy_series 1).
Qed.

Lemma generate_splitter_fits_children_witness :
  ∃ children splitter prng,
    generate (λ _ _ _, PINF) "raw" toy_train_state toy_bcm = Some (children, splitter, prng) ∧
    exemplar_labels toy_dataset (train_indexset splitter) = classes toy_bcm ∧
    length (train_indexset splitter) = length children ∧
    ∀ (test_state : TreeState ZF.t nat) test_dataset test_idx,
      dataset_shared_map test_state !! "raw" = Some test_dataset →
      test_idx < length test_dataset →
      ∃ branch,
        get_branch_index splitter test_state test_idx
          = Some (branch, tl (st_prng test_state)) ∧
        branch < length children.
Proof.
  apply (generate_splitter_fits_children (λ _ _ _, PINF) "raw" toy_train_state toy_bcm
           toy_dataset).
  - by vm_compute.
  - apply toy_bcm_classes_non_empty.
  - by vm_compute.
  - apply toy_bcm_labelled.
  - done.
Defined.

Section ChildrenProof.
Context `{FloatLaws F} `{Countable L}.
Implicit Types (ds : list (TSeries F L)) (bcm m : gmap L (list nat)).

(** A map that holds, under a label, only rows that [bcm] holds under
    that label. *)
Definition sub_bcm bcm m : Prop :=
  ∀ l rows, m !! l = Some rows → ∃ v, bcm !! l = Some v ∧ rows ⊆ v.

Lemma sub_bcm_empty bcm : sub_bcm bcm ∅.
Proof. intros l rows Hl. by rewrite lookup_empty in Hl. Qed.

Lemma sub_bcm_push_back bcm m l idx v :
  sub_bcm bcm m → bcm !! l = Some v → idx ∈ v → sub_bcm bcm (map_push_back l idx m).
Proof.
  intros Hm Hl Hidx l' rows Hrows. unfold map_push_back in Hrows.
  apply lookup_insert_Some in Hrows as [[<- <-]|[_ Hrows]]; [|by apply Hm].
  exists v. split; [done|]. intros x Hx. apply elem_of_app in Hx as [Hx|Hx].
  - destruct (m !! l) as [rows|] eqn:Hml; cbn in Hx; [|by apply not_elem_of_nil in Hx].
    destruct (Hm l rows Hml) as (v' & Hv' & Hsub). rewrite Hl in Hv'.
    injection Hv' as <-. by apply Hsub.
  - by apply list_elem_of_singleton in Hx as ->.
Qed.

Lemma sub_bcm_no_empty_bcm bcm m l :
  sub_bcm bcm m → l ∈ classes bcm → sub_bcm bcm (no_empty_bcm l m).
Proof.
  intros Hm Hl. unfold no_empty_bcm. destruct (decide (m = ∅)) as [->|]; [|done].
  intros l' rows Hrows. rewrite insert_empty in Hrows.
  apply lookup_singleton_Some in Hrows as [<- <-].
  unfold classes in Hl. apply list_elem_of_fmap in Hl as ([l0 v] & -> & Hlv).
  apply elem_of_map_to_list in Hlv. exists v. split; [done|].
  intros x Hx. by apply not_elem_of_nil in Hx.
Qed.

(** Routing the rows of [bcm] keeps the maps of the branches within [bcm]. *)
Lemma route_all_sub_bcm (distance : distance_t F L) ds idxs (l2i : gmap L nat) bcm queries :
  ∀ (res res' : list (gmap L (list nat))) prng prng',
  (∀ l v idx, bcm !! l = Some v → idx ∈ v → ∃ ts, ds !! idx = Some ts ∧ ts_label ts = Some l) →
  Forall (λ q, ∃ l v, bcm !! l = Some v ∧ q ∈ v) queries →
  route_all distance ds idxs l2i queries res prng = Some (res', prng') →
  Forall (sub_bcm bcm) res → Forall (sub_bcm bcm) res'.
Proof.
  induction queries as [|q queries IH]; intros res res' prng prng' Hcons Hqs Hroute Hres.
  { cbn in Hroute. by injection Hroute as <- _. }
  inversion Hqs as [|? ? (l & v & Hlv & Hq) Hqs']; subst.
  cbn [route_all] in Hroute.
  destruct (route distance ds idxs l2i q res prng) as [[res1 prng1]|] eqn:Hstep; [|done].
  cbn in Hroute. eapply (IH res1); [done..|].
  destruct (Hcons l v q Hlv Hq) as (ts & Hts & Hl).
  unfold route in Hstep. rewrite Hts in Hstep. cbn in Hstep.
  destruct (nn1_loop distance ds ts idxs PINF []) as [[bsf labels]|]; [|done]. cbn in Hstep.
  destruct (pick_one labels prng) as [[label prng0]|]; [|done]. cbn in Hstep.
  destruct (l2i !! label) as [i|]; [|done]. cbn in Hstep. rewrite Hl in Hstep. cbn in Hstep.
  destruct (res !! i) as [m|] eqn:Hm; [|done]. cbn in Hstep. injection Hstep as <- _.
  apply Forall_alter; [done|]. intros m' _ Hm'. by eapply sub_bcm_push_back.
Qed.

End ChildrenProof.

(** The children of [generate] split the incoming map class by class: a
    child holds, under a label, only rows that the incoming map holds
    under that label (rows keep their true label, whatever the branch),
    and the child of a class is found at the index of that class.  The
    classes of the incoming map are not empty and hold labelled rows, and
    the distance returns no NaN. *)
Theorem generate_children_keep_labels `{FloatLaws F} `{Countable L}
    (dist : distance_t F L) (tname : string)
    (state : TreeState F L) (bcm : gmap L (list nat)) (ds : list (TSeries F L)) :
  (∀ l v, bcm !! l = Some v → v ≠ []) →
  dataset_shared_map state !! tname = Some ds →
  (∀ l v idx, bcm !! l = Some v → idx ∈ v →
     ∃ ts, ds !! idx = Some ts ∧ ts_label ts = Some l) →
  (∀ a b u, ok (dist a b u)) →
  ∃ children splitter prng,
    generate dist tname state bcm = Some (children, splitter, prng) ∧
    ∀ child l rows,
      child ∈ children → child !! l = Some rows →
      (∃ v, bcm !! l = Some v ∧ rows ⊆ v) ∧
      ∀ idx, idx ∈ rows → ∃ ts, ds !! idx = Some ts ∧ ts_label ts = Some l.
Proof.
  intros Hclasses Hmap Hcons Hd.
  destruct (generate_Some dist tname state bcm ds)
    as (idxs & res & prng & Hlab & Hlabels & Hlen & (prng1 & Hroute) & ->); [done..|].
  eexists _, _, _. split; [done|].
  assert (Forall (sub_bcm bcm) res) as Hres.
  { eapply route_all_sub_bcm; [done| |done|].
    - apply Forall_forall. intros idx Hidx. unfold IndexSet in Hidx.
      apply list_elem_of_join in Hidx as (v & Hidx & Hv).
      apply list_elem_of_fmap in Hv as ([l v'] & -> & Hlv).
      apply elem_of_map_to_list in Hlv. by exists l, v'.
    - apply Forall_replicate, sub_bcm_empty. }
  intros child l rows Hchild Hrows.
  apply list_elem_of_fmap in Hchild as (label & -> & Hlabel).
  assert (sub_bcm bcm (default ∅ (res !! default 0 (bcm_labels_to_index bcm !! label)))) as Hm.
  { destruct (res !! _) as [m|] eqn:Hm; cbn; [|apply sub_bcm_empty].
    exact (Forall_lookup_1 _ _ _ _ Hres Hm). }
  destruct (sub_bcm_no_empty_bcm bcm _ label Hm Hlabel l rows Hrows) as (v & Hv & Hsub).
  split; [by exists v|].
  intros idx Hidx. apply (Hcons l v idx Hv). by apply Hsub.
Qed.

Lemma generate_children_keep_labels_witness :
  ∃ children splitter prng,
    generate (λ _ _ _, PINF) "raw" toy_train_state toy_bcm = Some (children, splitter, prng) ∧
    ∀ child l rows,
      child ∈ children → child !! l = Some rows →
      (∃ v, toy_bcm !! l = Some v ∧ rows ⊆ v) ∧
      ∀ idx, idx ∈ rows → ∃ ts, toy_dataset !! idx = Some ts ∧ ts_label ts = Some l.
Proof.
  apply (generate_children_keep_labels (λ _ _ _, PINF) "raw" toy_train_state toy_bcm
           toy_dataset).
  - apply toy_bcm_classes_non_empty.
  - by vm_compute.
  - apply toy_bcm_labelled.
  - done.
Defined.

(** At prediction a row whose nearest exemplars all carry one label goes
    to the branch of this label, whatever the PRNG gives.  The distance
    early abandons and the exemplars are labelled rows. *)
Theorem get_branch_index_unique_nearest `{FloatLaws F} `{Countable L}
    (sp : TestSplitter_1NN F L) (d : TSeries F L → TSeries F L → F)
    (state : TreeState F L) (test_idx : nat)
    (test_dataset : list (TSeries F L)) (test_exemplar : TSeries F L) (l : L) :
  let nearest :=
    labels_at d (train_dataset sp) test_exemplar (train_indexset sp)
      (nn1_min d (train_dataset sp) test_exemplar (train_indexset sp) PINF) in
  eap_distance (distance sp) d (train_dataset sp) test_exemplar (train_indexset sp) →
  labelled (train_dataset sp) (train_indexset sp) →
  dataset_shared_map state !! transformation_name sp = Some test_dataset →
  test_dataset !! test_idx = Some test_exemplar →
  nearest ≠ [] → (∀ l', l' ∈ nearest → l' = l) →
  get_branch_index sp state test_idx
    = (branch ← labels_to_index sp !! l; Some (branch, tl (st_prng state))).
Proof.
  intros nearest Heap Hlab Hmap Hq Hne Hall.
  unfold get_branch_index. rewrite Hmap. cbn. rewrite Hq. cbn.
  rewrite (nn1_loop_nearest_labels (distance sp) d) by done. cbn. fold nearest.
  rewrite (first_occurrences_single l nearest Hne Hall). by rewrite pick_one_single.
Qed.

Definition near_splitter : TestSplitter_1NN ZF.t nat :=
  mkTestSplitter near_dataset [0; 1; 2] {[4 := 0; 7 := 1]} "raw" (msm_distance (ZF.Fin 1)).

Definition near_state : TreeState ZF.t nat :=
  mkTreeState [5; 3] {["raw" := [near_query]]}.

Lemma get_branch_index_unique_nearest_witness :
  get_branch_index near_splitter near_state 0
    = (branch ← labels_to_index near_splitter !! 7; Some (branch, tl (st_prng near_state))).
Proof.
  apply (get_branch_index_unique_nearest near_splitter
           (λ a b, naive_univariate_msm (ts_data a) (ts_data b) (ZF.Fin 1))
           near_state 0 [near_query] near_query 7).
  - apply msm_eap_distance; [done|apply near_finite|by repeat constructor].
  - apply near_labelled.
  - by vm_compute.
  - done.
  - by vm_compute.
  - vm_compute. intros l' Hl'. apply elem_of_cons in Hl' as [->|Hl']; [done|].
    by apply list_elem_of_singleton in Hl' as ->.
Defined.

(* ===================================================================== *)
(** * Further properties of the reference dynamic programs *)
(* ===================================================================== *)

Section ReferenceRange.
Context `{FloatLaws F}.
Implicit Types matrix : list (list F).

(** Writing values that are zero or positive. *)
Lemma cells_inv_fold n k (f : list (list F) → nat → F) i start len matrix :
  cells_inv n k 0 matrix →
  (∀ m j, start ≤ j < start + len → cells_inv n k 0 m → pos_or_zero (f m j)) →
  cells_inv n k 0 (fold_left (λ m j, matrix_set m i j (f m j)) (seq start len) matrix).
Proof.
  intros Hinv Hpos.
  apply (fold_seq_inv (λ m j, matrix_set m i j (f m j)) (λ _ m, cells_inv n k 0 m) len start);
    [done|].
  intros j m Hj Hm. apply cells_inv_set_off; [done|lia|by apply Hpos].
Qed.

Lemma cells_inv_init_0 n k :
  0 < n → 0 < k → cells_inv n k 0 (matrix_set (replicate n (replicate k PINF)) 0 0 Fzero).
Proof.
  intros Hn Hk. pose proof (shape_replicate n k (PINF : F)) as Hshape.
  constructor.
  - by apply shape_set.
  - intros i j Hi Hj. destruct (decide (i = 0 ∧ j = 0)) as [[-> ->]|Hne].
    + erewrite matrix_get_set_eq by done. apply pos_or_zero_zero.
    + rewrite matrix_get_set_ne by lia. rewrite matrix_get_replicate by done.
      apply pos_or_zero_pinf.
  - lia.
Qed.

Lemma dtw_matrix_pos_or_zero (a b : list F) dim :
  Forall finite a → Forall finite b → pos_or_zero (dtw_matrix a b dim).
Proof.
  intros Ha Hb. unfold dtw_matrix. cbn zeta.
  set (la := length a / dim). set (lb := length b / dim).
  destruct (Nat.eqb_spec la 0) as [Hza|Hnza], (Nat.eqb_spec lb 0) as [Hzb|Hnzb];
    cbn [andb negb]; try apply pos_or_zero_zero; try apply pos_or_zero_pinf.
  set (n := Nat.max la lb + 1).
  match goal with |- pos_or_zero (matrix_get ?m _ _) => assert (cells_inv n n 0 m) as Hinv end.
  { apply (fold_seq_inv _ (λ _ m, cells_inv n n 0 m) la 1).
    { apply cells_inv_init_0; lia. }
    intros i m Hi Hm.
    apply (cells_inv_fold n n
             (λ m j, Fadd (std_min (matrix_get m i (j - 1))
                             (std_min (matrix_get m (i - 1) (j - 1)) (matrix_get m (i - 1) j)))
                          (sqedN a (i - 1) b (j - 1) dim)) i 1 lb); [done|].
    intros m' j Hj [_ Hc _]. apply add_pos_or_zero; [|by apply sqedN_pos_or_zero].
    apply pos_or_zero_nonneg. repeat apply pos_or_zero_std_min; apply Hc; lia. }
  destruct Hinv as [_ Hc _]. apply Hc; lia.
Qed.

Lemma erp_matrix_pos_or_zero (series1 series2 : list F) (gValue : F) (w : Z) :
  Forall finite series1 → Forall finite series2 → finite gValue →
  pos_or_zero (erp_matrix series1 series2 gValue w).
Proof.
  intros H1 H2 Hg. unfold erp_matrix. cbn zeta.
  set (length1 := length series1). set (length2 := length series2).
  destruct (Nat.eqb_spec length1 0) as [Hz1|Hnz1], (Nat.eqb_spec length2 0) as [Hz2|Hnz2];
    cbn [andb negb]; try apply pos_or_zero_zero; try apply pos_or_zero_pinf.
  set (cols := if length1 <? length2 then series1 else series2).
  set (lines := if length1 <? length2 then series2 else series1).
  set (nbcols := Nat.min length1 length2). set (nblines := Nat.max length1 length2).
  set (w' := if (Z.of_nat nblines <? w)%Z then Z.of_nat nblines else w).
  destruct (w' <? Z.of_nat nblines - Z.of_nat nbcols)%Z; [apply pos_or_zero_pinf|].
  assert (∀ k, finite (rd cols k)) as Hcols.
  { intros k. apply rd_finite. subst cols. by destruct (length1 <? length2). }
  assert (∀ k, finite (rd lines k)) as Hlines.
  { intros k. apply rd_finite. subst lines. by destruct (length1 <? length2). }
  set (n := nblines + 1). set (k := nbcols + 1).
  match goal with |- pos_or_zero (matrix_get ?m _ _) => assert (cells_inv n k 0 m) as Hinv end.
  { apply (fold_seq_inv _ (λ _ m, cells_inv n k 0 m) nblines 1).
    { (* the borders *)
      apply (fold_seq_inv _ (λ _ m, cells_inv n k 0 m) nblines 1).
      { apply (fold_seq_inv _ (λ _ m, cells_inv n k 0 m) nbcols 1).
        { apply cells_inv_init_0; lia. }
        intros j m Hj Hm. apply cells_inv_set_off; [done|lia|].
        apply add_pos_or_zero; [|by apply square_dist_pos_or_zero].
        apply pos_or_zero_nonneg. destruct Hm as [_ Hc _]. apply Hc; lia. }
      intros i m Hi Hm. apply cells_inv_set_off; [done|lia|].
      apply add_pos_or_zero; [|by apply square_dist_pos_or_zero].
      apply pos_or_zero_nonneg. destruct Hm as [_ Hc _]. apply Hc; lia. }
    intros i m Hi Hm.
    set (l := Z.to_nat (Z.max (Z.of_nat i - w') 1)).
    set (r := Z.to_nat (Z.min (Z.of_nat i + w' + 1) (Z.of_nat nbcols + 1))).
    apply (cells_inv_fold n k
             (λ m j,
                std_min
                  (Fadd (matrix_get m i (j - 1)) (square_dist gValue (rd cols (j - 1))))
                  (std_min
                     (Fadd (matrix_get m (i - 1) (j - 1))
                        (square_dist (rd lines (i - 1)) (rd cols (j - 1))))
                     (Fadd (matrix_get m (i - 1) j) (square_dist (rd lines (i - 1)) gValue))))
             i l (r - l)); [done|].
    intros m' j Hj [_ Hc _].
    repeat apply pos_or_zero_std_min;
      (apply add_pos_or_zero; [|by apply square_dist_pos_or_zero]);
      apply pos_or_zero_nonneg, Hc; lia. }
  destruct Hinv as [_ Hc _]. apply Hc; lia.
Qed.

End ReferenceRange.

(** The references never return a negative value nor a NaN: on finite
    series (and a finite gap value) the result of [dtw_matrix] and of
    [erp_matrix] is zero, positive or [+∞], for every dimension and every
    window, negative windows included. *)
Theorem reference_never_negative `{FloatLaws F} (A B : list F) :
  Forall finite A → Forall finite B →
  (∀ dim, 0 < dim →
     nonneg (dtw_matrix A B dim) ∧ isnan (dtw_matrix A B dim) = false) ∧
  (∀ gv w, finite gv →
     nonneg (erp_matrix A B gv w) ∧ isnan (erp_matrix A B gv w) = false).
Proof.
  intros HA HB.
  assert (∀ x : F, pos_or_zero x → nonneg x ∧ isnan x = false) as Hpz.
  { intros x Hx. apply pos_or_zero_nonneg in Hx. split; [done|].
    rewrite isnan_spec. apply nonneg_ok in Hx. unfold ok in Hx. by rewrite Hx. }
  split.
  - intros dim _. by apply Hpz, dtw_matrix_pos_or_zero.
  - intros gv w Hgv. by apply Hpz, erp_matrix_pos_or_zero.
Qed.

Lemma reference_never_negative_witness :
  let A := [ZF.Fin 1; ZF.Fin 5; ZF.Fin 2; ZF.Fin 8] in
  let B := [ZF.Fin 3; ZF.Fin (-4)] in
  (∀ dim, 0 < dim →
     nonneg (dtw_matrix A B dim) ∧ isnan (dtw_matrix A B dim) = false) ∧
  (∀ gv w, finite gv →
     nonneg (erp_matrix A B gv w) ∧ isnan (erp_matrix A B gv w) = false).
Proof.
  apply (reference_never_negative [ZF.Fin 1; ZF.Fin 5; ZF.Fin 2; ZF.Fin 8]
           [ZF.Fin 3; ZF.Fin (-4)]);
    repeat constructor.
Defined.

(** ** The recurrence of the DTW reference *)

Section DtwCell.
Context `{Float F}.

(** The cell [(i, j)] of the matrix that [dtw_matrix] fills, borders
    included: the corner is zero, the rest of the borders is [+∞]. *)
Fixpoint dtw_cell (a b : list F) (dim : nat) (i : nat) : nat → F :=
  match i with
  | 0 => λ j, match j with 0 => Fzero | S _ => PINF end
  | S i' =>
      fix cur (j : nat) : F :=
        match j with
        | 0 => PINF
        | S j' =>
            Fadd (std_min (cur j')
                    (std_min (dtw_cell a b dim i' j') (dtw_cell a b dim i' j)))
                 (sqedN a i' b j' dim)
        end
  end.

End DtwCell.

Arguments dtw_cell : simpl never.

Section DtwSymmetry.
Context `{FloatSymLaws F}.
Implicit Types (a b : list F) (matrix : list (list F)).

Lemma dtw_cell_S_S a b dim i j :
  dtw_cell a b dim (S i) (S j)
  = Fadd (std_min (dtw_cell a b dim (S i) j)
            (std_min (dtw_cell a b dim i j) (dtw_cell a b dim i (S j))))
         (sqedN a i b j dim).
Proof. reflexivity. Qed.

Lemma dtw_cell_0 a b dim j : dtw_cell a b dim 0 j = match j with 0 => Fzero | S _ => PINF end.
Proof. reflexivity. Qed.

Lemma dtw_cell_S_0 a b dim i : dtw_cell a b dim (S i) 0 = PINF.
Proof. reflexivity. Qed.

Lemma dtw_cell_pos_or_zero a b dim i j :
  Forall finite a → Forall finite b → pos_or_zero (dtw_cell a b dim i j).
Proof.
  intros Ha Hb. revert j. induction i as [|i IHi]; intros j.
  - rewrite dtw_cell_0. destruct j; [apply pos_or_zero_zero|apply pos_or_zero_pinf].
  - induction j as [|j IHj]; [apply pos_or_zero_pinf|].
    rewrite dtw_cell_S_S. apply add_pos_or_zero; [|by apply sqedN_pos_or_zero].
    apply pos_or_zero_nonneg. by repeat apply pos_or_zero_std_min.
Qed.

(** [dtw_matrix] fills the matrix with the cells of the recurrence. *)
Lemma dtw_matrix_cell a b dim :
  0 < length a / dim → 0 < length b / dim →
  dtw_matrix a b dim = dtw_cell a b dim (length a / dim) (length b / dim).
Proof.
  intros Hla Hlb. unfold dtw_matrix. cbn zeta.
  set (la := length a / dim) in *. set (lb := length b / dim) in *.
  destruct (Nat.eqb_spec la 0) as [|_]; [lia|]. destruct (Nat.eqb_spec lb 0) as [|_]; [lia|].
  cbn [andb negb]. set (n := Nat.max la lb + 1).
  set (done_rows := λ i0 matrix,
         shape n n matrix ∧
         (∀ i j, i < i0 → i < n → j ≤ lb → matrix_get matrix i j = dtw_cell a b dim i j) ∧
         (∀ i, i0 ≤ i → i < n → matrix_get matrix i 0 = PINF)).
  match goal with |- matrix_get ?m _ _ = _ => assert (done_rows (1 + la) m) as Hinv end.
  { apply (fold_seq_inv _ done_rows la 1).
    { pose proof (shape_replicate n n (PINF : F)) as Hshape. split_and!.
      - by apply shape_set.
      - intros i j Hi _ Hj. assert (i = 0) as -> by lia. rewrite dtw_cell_0.
        destruct j as [|j].
        + erewrite matrix_get_set_eq by (done || lia). done.
        + rewrite matrix_get_set_ne by lia. apply matrix_get_replicate; lia.
      - intros i Hi Hn. rewrite matrix_get_set_ne by lia. apply matrix_get_replicate; lia. }
    intros i m Hi (Hshape & Hrows & Hcol).
    set (line := λ j0 matrix,
           shape n n matrix ∧
           (∀ i' j, i' < i → i' < n → j ≤ lb →
              matrix_get matrix i' j = dtw_cell a b dim i' j) ∧
           (∀ j, j < j0 → matrix_get matrix i j = dtw_cell a b dim i j) ∧
           (∀ i', i < i' → i' < n → matrix_get matrix i' 0 = PINF)).
    assert (line (1 + lb)
              (fold_left (λ matrix j,
                   let prev := matrix_get matrix i (j - 1) in
                   let diag := matrix_get matrix (i - 1) (j - 1) in
                   let top := matrix_get matrix (i - 1) j in
                   matrix_set matrix i j
                     (Fadd (std_min prev (std_min diag top)) (sqedN a (i - 1) b (j - 1) dim)))
                 (seq 1 lb) m)) as (Hs & Hr & Hc & Hf).
    { apply (fold_seq_inv _ line lb 1).
      { split_and!; [done..| |].
        - intros j Hj. assert (j = 0) as -> by lia. rewrite Hcol by lia.
          destruct i as [|i']; [lia|done].
        - intros i' Hi' Hn. apply Hcol; lia. }
      intros j m' Hj (Hs & Hr & Hc & Hf). cbn zeta. split_and!.
      - by apply shape_set.
      - intros i' j' Hi' Hn Hj'. rewrite matrix_get_set_ne by lia. by apply Hr.
      - intros j' Hj'. destruct (decide (j' = j)) as [->|Hne].
        + erewrite matrix_get_set_eq by (done || lia).
          rewrite Hc by lia. rewrite !Hr by lia.
          destruct i as [|i']; [lia|]. destruct j as [|j'']; [lia|].
          rewrite dtw_cell_S_S. by replace (S i' - 1) with i' by lia;
            replace (S j'' - 1) with j'' by lia.
        + rewrite matrix_get_set_ne by lia. apply Hc. lia.
      - intros i' Hi' Hn. rewrite matrix_get_set_ne by lia. by apply Hf. }
    split_and!; [done| |].
    - intros i' j Hi' Hn Hj. destruct (decide (i' = i)) as [->|Hne].
      + apply Hc. lia.
      + apply Hr; lia.
    - intros i' Hi' Hn. apply Hf; lia. }
  destruct Hinv as (_ & Hrows & _). apply Hrows; lia.
Qed.

Lemma fold_left_ext_seq {A} (f g : A → nat → A) l : ∀ acc,
  (∀ x k, f x k = g x k) → fold_left f l acc = fold_left g l acc.
Proof.
  induction l as [|k l IH]; intros acc Hfg; [done|]. cbn. rewrite Hfg. by apply IH.
Qed.

Lemma sqedN_sym a b i j dim :
  Forall finite a → Forall finite b → sqedN a i b j dim = sqedN b j a i dim.
Proof.
  intros Ha Hb. unfold sqedN. cbn zeta. apply fold_left_ext_seq.
  intros acc k. f_equal. apply sq_sub_sym; by apply rd_finite.
Qed.

(** The minimum of three values that are zero or positive does not depend
    on their order. *)
Lemma std_min_rotate (p d t : F) :
  pos_or_zero p → pos_or_zero d → pos_or_zero t →
  std_min p (std_min d t) = std_min t (std_min d p).
Proof.
  intros Hp Hd Ht.
  rewrite (std_min_comm d t), (std_min_comm p (std_min t d)), (std_min_comm d p)
    by (by repeat apply pos_or_zero_std_min).
  pose proof (pos_or_zero_ok p Hp) as Hop. pose proof (pos_or_zero_ok d Hd) as Hod.
  pose proof (pos_or_zero_ok t Ht) as Hot.
  assert (∀ x y : F, ok x → ok y → ok (std_min x y)) as Hok.
  { intros x y Hx Hy. by destruct (std_min_cases x y) as [-> | ->]. }
  apply le_antisym; try (by repeat apply pos_or_zero_std_min).
  - destruct (std_min_cases t (std_min p d)) as [-> | ->].
    + eapply leb_trans; [apply std_min_le_l; auto|]. by apply std_min_le_l.
    + destruct (std_min_cases p d) as [-> | ->].
      * apply std_min_le_r; auto.
      * eapply leb_trans; [apply std_min_le_l; auto|]. by apply std_min_le_r.
  - destruct (std_min_cases (std_min t d) p) as [-> | ->].
    + destruct (std_min_cases t d) as [-> | ->].
      * apply std_min_le_l; auto.
      * eapply leb_trans; [apply std_min_le_r; auto|]. by apply std_min_le_r.
    + eapply leb_trans; [apply std_min_le_r; auto|]. by apply std_min_le_l.
Qed.

Lemma dtw_cell_sym a b dim i j :
  Forall finite a → Forall finite b → dtw_cell a b dim i j = dtw_cell b a dim j i.
Proof.
  intros Ha Hb. revert j. induction i as [|i IHi]; intros j.
  - destruct j; done.
  - induction j as [|j IHj]; [done|].
    rewrite !dtw_cell_S_S. rewrite IHj, !IHi, (sqedN_sym a b) by done. f_equal.
    apply std_min_rotate; by apply dtw_cell_pos_or_zero.
Qed.

End DtwSymmetry.

(** The DTW reference is symmetric: on finite series, exchanging the two
    series does not change the result of [dtw_matrix], the very same
    floating point value, whatever their lengths and the dimension. *)
Theorem dtw_matrix_symmetric `{FloatSymLaws F} (A B : list F) (dim : nat) :
  Forall finite A → Forall finite B → 0 < dim →
  dtw_matrix A B dim = dtw_matrix B A dim.
Proof.
  intros HA HB _.
  destruct (decide (0 < length A / dim ∧ 0 < length B / dim)) as [[Hla Hlb]|Hz].
  - rewrite !dtw_matrix_cell by done. by apply dtw_cell_sym.
  - unfold dtw_matrix. cbn zeta.
    destruct (Nat.eqb_spec (length A / dim) 0), (Nat.eqb_spec (length B / dim) 0);
      cbn [andb negb]; try done. lia.
Qed.

Lemma dtw_matrix_symmetric_witness :
  dtw_matrix [ZF.Fin 1; ZF.Fin 5; ZF.Fin 2; ZF.Fin 8] [ZF.Fin 3; ZF.Fin (-4)] 2
  = dtw_matrix [ZF.Fin 3; ZF.Fin (-4)] [ZF.Fin 1; ZF.Fin 5; ZF.Fin 2; ZF.Fin 8] 2.
Proof.
  apply (dtw_matrix_symmetric [ZF.Fin 1; ZF.Fin 5; ZF.Fin 2; ZF.Fin 8]
           [ZF.Fin 3; ZF.Fin (-4)] 2);
    [repeat constructor..|lia].
Defined.

(* ===================================================================== *)
(** * What the 1-NN loops of the tests return *)
(* ===================================================================== *)

Section NN1First.
Context `{FloatLaws F}.

(** The scan from a state [(i0, b0)] over values that are not NaN: the
    best distance is below [b0] and below every value; the state is
    unchanged when no value is below [b0], else it is the first trial at
    the best distance. *)
Lemma nn1_scan_first (ts : trials) : ∀ i0 b0,
  Forall (λ t, ok (snd t PINF)) ts → ok b0 →
  let r := fold_left (λ st t, nn1_update (fst t) (snd t PINF) st) ts (i0, b0) in
  le (snd r) b0 ∧
  (∀ t, t ∈ ts → le (snd r) (snd t PINF)) ∧
  (r = (i0, b0) ∨
   ∃ k t, ts !! k = Some t ∧ r = (fst t, snd t PINF) ∧ lt (snd r) b0 ∧
          ∀ k' t', k' < k → ts !! k' = Some t' → lt (snd r) (snd t' PINF)).
Proof.
  induction ts as [|t ts IH]; intros i0 b0 Hts Hb0 r.
  { subst r. cbn. split_and!; [done| |by left].
    intros t Ht. by apply not_elem_of_nil in Ht. }
  inversion Hts as [|? ? Ht Hts']; subst. subst r. cbn [fold_left].
  assert (nn1_update (fst t) (snd t PINF) (i0, b0)
          = if Fltb (snd t PINF) b0 then (fst t, snd t PINF) else (i0, b0)) as -> by done.
  destruct (Fltb (snd t PINF) b0) eqn:Hlt.
  - destruct (IH (fst t) (snd t PINF) Hts' Ht) as (Hle & Hall & Hcases).
    set (r := fold_left _ ts _) in *.
    assert (lt (snd r) b0) as Hrb by (eapply le_lt_trans; [exact Hle|exact Hlt]).
    split_and!.
    + by apply lt_le.
    + intros t' Ht'. apply elem_of_cons in Ht' as [->|Ht']; [done|by apply Hall].
    + right. destruct Hcases as [Hr|(k & t' & Hk & Hr & Hlt' & Hbefore)].
      * exists 0, t. split_and!; [done..|]. intros; lia.
      * exists (S k), t'. split_and!; [done..|].
        intros k' t'' Hk' Ht''. destruct k' as [|k']; cbn in Ht''.
        -- by injection Ht'' as <-.
        -- apply (Hbefore k'); [lia|done].
  - destruct (IH i0 b0 Hts' Hb0) as (Hle & Hall & Hcases).
    set (r := fold_left _ ts _) in *.
    assert (le b0 (snd t PINF)) as Hbt by (by apply nlt_le).
    split_and!.
    + done.
    + intros t' Ht'. apply elem_of_cons in Ht' as [->|Ht']; [|by apply Hall].
      eapply leb_trans; [exact Hle|exact Hbt].
    + destruct Hcases as [Hr|(k & t' & Hk & Hr & Hlt' & Hbefore)]; [by left|right].
      exists (S k), t'. split_and!; [done..|].
      intros k' t'' Hk' Ht''. destruct k' as [|k']; cbn in Ht''.
      * injection Ht'' as <-. eapply lt_le_trans; [exact Hlt'|exact Hbt].
      * apply (Hbefore k'); [lia|done].
Qed.

End NN1First.

(** The 1-NN loops of the distance tests return the first candidate at
    the smallest distance: the best distance is below the distance to
    every candidate, every candidate scanned before the one returned is
    strictly farther, and when no distance is below [+∞] the index stays
    at its initial value 0.  This holds of the loop that gives the
    best-so-far to the kernel as well, for kernels that meet the contract
    of the skeleton. *)
Theorem nn1_returns_first_nearest `{FloatLaws F} (ts : trials) :
  Forall (λ t, kernel_ok (snd t)) ts →
  let r := nn1_eap ts in
  r = nn1_base ts ∧
  (∀ t, t ∈ ts → le (snd r) (snd t PINF)) ∧
  (r = (0, PINF) ∨
   ∃ k t, ts !! k = Some t ∧ r = (fst t, snd t PINF) ∧ lt (snd r) PINF ∧
          ∀ k' t', k' < k → ts !! k' = Some t' → lt (snd r) (snd t' PINF)).
Proof.
  intros Hts r.
  assert (r = nn1_base ts) as Hr.
  { subst r. unfold nn1_eap, nn1_base. apply nn1_scan_cutoff; [done|]. apply pinf_ok. }
  rewrite Hr. split; [done|].
  apply (nn1_scan_first ts 0 PINF); [|apply pinf_ok].
  eapply Forall_impl; [done|]. by intros t [Hok _].
Qed.

Lemma nn1_returns_first_nearest_witness :
  let query := [ZF.Fin 1; ZF.Fin 5; ZF.Fin 2] in
  let c := ZF.Fin 1 in
  let ts : trials :=
    [ (0, univariate_msm query [ZF.Fin 2; ZF.Fin 2] c);
      (5, univariate_msm query [ZF.Fin 1; ZF.Fin 5; ZF.Fin 3] c);
      (10, univariate_msm query [ZF.Fin 1; ZF.Fin 5; ZF.Fin 1] c) ] in
  let r := nn1_eap ts in
  r = nn1_base ts ∧
  (∀ t, t ∈ ts → le (snd r) (snd t PINF)) ∧
  (r = (0, PINF) ∨
   ∃ k t, ts !! k = Some t ∧ r = (fst t, snd t PINF) ∧ lt (snd r) PINF ∧
          ∀ k' t', k' < k → ts !! k' = Some t' → lt (snd r) (snd t' PINF)).
Proof.
  assert (∀ l : list Z, Forall finite (map ZF.Fin l)) as Hfin.
  { intros l. induction l; constructor; done. }
  apply (nn1_returns_first_nearest (F := ZF.t)).
  repeat apply Forall_cons_2; try apply Forall_nil_2; cbn [snd].
  - apply univariate_msm_kernel_ok; [apply (Hfin [1; 5; 2]%Z)|apply (Hfin [2; 2]%Z)|done].
  - apply univariate_msm_kernel_ok; [apply (Hfin [1; 5; 2]%Z)|apply (Hfin [1; 5; 3]%Z)|done].
  - apply univariate_msm_kernel_ok; [apply (Hfin [1; 5; 2]%Z)|apply (Hfin [1; 5; 1]%Z)|done].
Defined.

(* ===================================================================== *)
(** * The result of a classifier ([tempo/classifier/utils.hpp]) *)
(* ===================================================================== *)

Module Classifier.

(** [Result]: the row vector of the probabilities of the classes, doubles,
    and the weight of the row. *)
Record Result := mkResult {
  probabilities : list spec_float;
  weight : spec_float
}.

(** [Result(nbclasses)]: zeros, with the weight 0. *)
Definition zeros (nbclasses : nat) : Result :=
  mkResult (replicate nbclasses (B64.of_Z 0)) (B64.of_Z 0).

(** [make_probabilities_one]: the vector of zeros with 1.0 at the index
    [proba_at_one].  The write [p[proba_at_one]] is not checked: out of
    the vector there is no result. *)
Definition make_probabilities_one (cardinality proba_at_one : nat) (weight : spec_float)
    : option Result :=
  let p := replicate cardinality (B64.of_Z 0) in
  if proba_at_one <? cardinality
  then Some (mkResult (<[proba_at_one := B64.of_Z 1]> p) weight)
  else None.

(** the sum of the probabilities, from the left *)
Definition total (r : Result) : spec_float :=
  fold_left (SFadd B64.prec B64.emax) (probabilities r) (B64.of_Z 0).

End Classifier.

Lemma sum_zeros (n : nat) (acc : spec_float) :
  acc = B64.of_Z 0 ∨ acc = B64.of_Z 1 →
  fold_left (SFadd B64.prec B64.emax) (replicate n (B64.of_Z 0)) acc = acc.
Proof.
  intros Hacc. induction n as [|n IH]; [done|]. cbn [replicate fold_left].
  destruct Hacc as [-> | ->]; exact IH.
Qed.

Lemma sum_one_hot (n k : nat) :
  k < n →
  fold_left (SFadd B64.prec B64.emax) (<[k := B64.of_Z 1]> (replicate n (B64.of_Z 0)))
    (B64.of_Z 0) = B64.of_Z 1.
Proof.
  revert k. induction n as [|n IH]; intros k Hk; [lia|].
  destruct k as [|k]; cbn [replicate list_insert fold_left].
  - apply (sum_zeros n (B64.of_Z 1)). by right.
  - apply IH. lia.
Qed.

(** [make_probabilities_one] builds a distribution: for an index within
    the cardinality, the vector has one entry per class, 1.0 at the index
    and 0 elsewhere, its entries sum to exactly 1.0 in binary64, and the
    weight is the one given. *)
Theorem make_probabilities_one_distribution (cardinality proba_at_one : nat)
    (weight : spec_float) :
  proba_at_one < cardinality →
  ∃ r, Classifier.make_probabilities_one cardinality proba_at_one weight = Some r ∧
       length (Classifier.probabilities r) = cardinality ∧
       Classifier.probabilities r !! proba_at_one = Some (B64.of_Z 1) ∧
       (∀ i, i < cardinality → i ≠ proba_at_one →
          Classifier.probabilities r !! i = Some (B64.of_Z 0)) ∧
       Classifier.total r = B64.of_Z 1 ∧
       Classifier.weight r = weight.
Proof.
  intros Hlt. unfold Classifier.make_probabilities_one. cbn zeta.
  destruct (Nat.ltb_spec proba_at_one cardinality) as [_|]; [|lia].
  eexists. split; [done|]. cbn [Classifier.probabilities Classifier.weight].
  split_and!.
  - by rewrite length_insert, length_replicate.
  - apply list_lookup_insert_eq. by rewrite length_replicate.
  - intros i Hi Hne. rewrite list_lookup_insert_ne by done. by apply lookup_replicate_2.
  - unfold Classifier.total. cbn [Classifier.probabilities]. by apply sum_one_hot.
  - done.
Qed.

Lemma make_probabilities_one_distribution_witness :
  ∃ r, Classifier.make_probabilities_one 4 2 (B64.of_Z 3) = Some r ∧
       length (Classifier.probabilities r) = 4 ∧
       Classifier.probabilities r !! 2 = Some (B64.of_Z 1) ∧
       (∀ i, i < 4 → i ≠ 2 → Classifier.probabilities r !! i = Some (B64.of_Z 0)) ∧
       Classifier.total r = B64.of_Z 1 ∧
       Classifier.weight r = B64.of_Z 3.
Proof. apply (make_probabilities_one_distribution 4 2 (B64.of_Z 3)). lia. Defined.

(* ===================================================================== *)
(** * The TWE reference ([test/distance/multivariate_dep/m_twe.cpp]) *)
(* ===================================================================== *)

(** The conversion of a [size_t] to the floating point type. *)
Class FloatOfNat (F : Type) := of_nat : nat → F.

#[global] Instance B64_of_nat : FloatOfNat spec_float := λ n, B64.of_Z (Z.of_nat n).
#[global] Instance ZF_of_nat : FloatOfNat ZF.t := λ n, ZF.Fin (Z.of_nat n).

(** Facts of IEEE-754 arithmetic about the product of a finite value that
    is zero or positive with a converted [size_t]. *)
Class FloatOfNatLaws (F : Type) `{FloatSymLaws F} `{FloatOfNat F} := {
  mul_of_nat_0 : ∀ x : F, finite x → pos_or_zero x → Fmul x (of_nat 0) = Fzero;
  mul_of_nat_pos_or_zero : ∀ (x : F) (n : nat),
    finite x → pos_or_zero x → (Z.of_nat n < 2 ^ 64)%Z → pos_or_zero (Fmul x (of_nat n))
}.

#[global] Instance ZF_of_nat_laws : FloatOfNatLaws ZF.t.
Proof.
  split; unfold pos_or_zero, finite, lt, of_nat, ZF_of_nat; cbn -[Z.add Z.mul Z.sub Z.pow].
  - intros x Hx _. destruct x; cbn in *; try discriminate. f_equal; lia.
  - intros x n Hx Hpos _. destruct x as [z| | |]; cbn in *; try discriminate.
    destruct Hpos as [Hz|Hz].
    + injection Hz as ->. left. f_equal; lia.
    + unfold ZF.ltb, ZF.leb in *. cbn in *.
      destruct (decide (z * Z.of_nat n = 0)%Z) as [->|Hne]; [by left|right].
      destruct (Z.leb_spec 0 z), (Z.leb_spec z 0); try discriminate.
      destruct (Z.leb_spec 0 (z * Z.of_nat n)), (Z.leb_spec (z * Z.of_nat n) 0);
        try done; nia.
Qed.

Section Twe.
Context `{Float F} `{FloatOfNat F}.

(** Modelled from the spec: [utils::absdiff] is not part of the sources at
    hand; it is the [|i−j|] of the recurrence of section 4.2, on [size_t]. *)
Definition absdiff (i j : nat) : nat := if i <? j then j - i else i - j.

(** [twe_matrix]: the naive multivariate TWE, on a full matrix without
    borders; [dim] is not zero.  [sqedN] is the one of the DTW test, the
    minimum of three values the nested [std::min]. *)
Definition twe_matrix (s1 s2 : list F) (dim : nat) (nu lambda : F) : F :=
  let length1 := length s1 / dim in
  let length2 := length s2 / dim in
  if (length1 =? 0) && (length2 =? 0) then Fzero
  else if (length1 =? 0) && negb (length2 =? 0) then PINF
  else if negb (length1 =? 0) && (length2 =? 0) then PINF
  else
    let maxLength := Nat.max length1 length2 in
    let matrix := replicate maxLength (replicate maxLength PINF) in
    let nu_lambda := Fadd nu lambda in
    let nu2 := Fmul (of_nat 2) nu in
    let matrix := matrix_set matrix 0 0 (sqedN s1 0 s2 0 dim) in
    let matrix :=
      fold_left (λ matrix i,
          matrix_set matrix i 0
            (Fadd (Fadd (matrix_get matrix (i - 1) 0) (sqedN s1 i s1 (i - 1) dim)) nu_lambda))
        (seq 1 (length1 - 1)) matrix in
    let matrix :=
      fold_left (λ matrix j,
          matrix_set matrix 0 j
            (Fadd (Fadd (matrix_get matrix 0 (j - 1)) (sqedN s2 j s2 (j - 1) dim)) nu_lambda))
        (seq 1 (length2 - 1)) matrix in
    let matrix :=
      fold_left (λ matrix i,
          fold_left (λ matrix j,
              let t := Fadd (Fadd (matrix_get matrix (i - 1) j) (sqedN s1 i s1 (i - 1) dim))
                         nu_lambda in
              let d := Fadd (Fadd (Fadd (matrix_get matrix (i - 1) (j - 1))
                                     (sqedN s1 i s2 j dim))
                               (sqedN s1 (i - 1) s2 (j - 1) dim))
                         (Fmul nu2 (of_nat (absdiff i j))) in
              let p := Fadd (Fadd (matrix_get matrix i (j - 1)) (sqedN s2 j s2 (j - 1) dim))
                         nu_lambda in
              matrix_set matrix i j (min3 t d p))
            (seq 1 (length2 - 1)) matrix)
        (seq 1 (length1 - 1)) matrix in
    matrix_get matrix (length1 - 1) (length2 - 1).

End Twe.

Section TweProof.
Context `{FloatOfNatLaws F}.
Implicit Types matrix : list (list F).

Lemma absdiff_self i : absdiff i i = 0.
Proof. unfold absdiff. rewrite Nat.ltb_irrefl. lia. Qed.

Lemma absdiff_le i j n : i < n → j < n → absdiff i j < n.
Proof. unfold absdiff. destruct (Nat.ltb_spec i j); lia. Qed.

End TweProof.

(** TWE of a series and itself: for a finite series, whose length is a
    [size_t], and penalties such that [2ν] is finite and zero or positive
    and [ν+λ] is not negative, the reference [twe_matrix] returns exactly
    zero, for every dimension. *)
Theorem twe_self_distance_zero `{FloatOfNatLaws F} (s : list F) (dim : nat) (nu lambda : F) :
  Forall finite s → (Z.of_nat (length s) < 2 ^ 64)%Z → 0 < dim →
  finite (Fmul (of_nat 2) nu) → pos_or_zero (Fmul (of_nat 2) nu) →
  nonneg (Fadd nu lambda) →
  twe_matrix s s dim nu lambda = Fzero.
Proof.
  intros Hs Hsize _ Hfin Hnu2 Hnl. unfold twe_matrix. cbn zeta.
  set (len := length s / dim).
  assert (len ≤ length s) as Hlen.
  { subst len. destruct dim as [|dim]; [cbn; lia|]. apply Nat.Div0.div_le_upper_bound. nia. }
  destruct (Nat.eqb_spec len 0) as [Hz|Hnz]; cbn [andb negb]; [done|].
  rewrite Nat.max_id.
  assert (∀ x y, pos_or_zero x → pos_or_zero y → pos_or_zero (Fadd (Fadd x y) (Fadd nu lambda)))
    as Hstep.
  { intros x y Hx Hy. apply add_pos_or_zero_l; [|done].
    apply add_pos_or_zero; [by apply pos_or_zero_nonneg|done]. }
  match goal with |- matrix_get ?m _ _ = _ => assert (cells_inv len len len m) as Hinv end.
  { replace len with (1 + (len - 1)) at 3 by lia.
    apply (fold_seq_inv _ (λ i m, cells_inv len len i m) (len - 1) 1).
    { (* the first line and the first column *)
      apply (fold_seq_inv _ (λ _ m, cells_inv len len 1 m) (len - 1) 1).
      { apply (fold_seq_inv _ (λ _ m, cells_inv len len 1 m) (len - 1) 1).
        { rewrite sqedN_self by done. apply cells_inv_init; lia. }
        intros i m Hi Hm. apply cells_inv_set_off; [done|lia|].
        apply Hstep; [|by apply sqedN_pos_or_zero]. destruct Hm as [_ Hc _]. apply Hc; lia. }
      intros j m Hj Hm. apply cells_inv_set_off; [done|lia|].
      apply Hstep; [|by apply sqedN_pos_or_zero]. destruct Hm as [_ Hc _]. apply Hc; lia. }
    intros i m Hi Hm.
    apply (line_loop_inv len
             (λ m j,
                min3 (Fadd (Fadd (matrix_get m (i - 1) j) (sqedN s i s (i - 1) dim))
                        (Fadd nu lambda))
                     (Fadd (Fadd (Fadd (matrix_get m (i - 1) (j - 1)) (sqedN s i s j dim))
                              (sqedN s (i - 1) s (j - 1) dim))
                        (Fmul (Fmul (of_nat 2) nu) (of_nat (absdiff i j))))
                     (Fadd (Fadd (matrix_get m i (j - 1)) (sqedN s j s (j - 1) dim))
                        (Fadd nu lambda)))
             i 1 (len - 1)); try (done || lia).
    - intros m' j Hj [_ Hc _]. unfold min3. repeat apply pos_or_zero_std_min.
      + apply Hstep; [apply Hc; lia|by apply sqedN_pos_or_zero].
      + apply add_pos_or_zero.
        * apply pos_or_zero_nonneg. apply add_pos_or_zero; [|by apply sqedN_pos_or_zero].
          apply pos_or_zero_nonneg. apply add_pos_or_zero; [|by apply sqedN_pos_or_zero].
          apply pos_or_zero_nonneg, Hc; lia.
        * apply mul_of_nat_pos_or_zero; [done..|].
          pose proof (absdiff_le i j len ltac:(lia) ltac:(lia)). lia.
      + apply Hstep; [apply Hc; lia|by apply sqedN_pos_or_zero].
    - intros m' [_ Hc Hd]. rewrite !sqedN_self by done.
      rewrite (Hd (i - 1)) by lia. rewrite absdiff_self, mul_of_nat_0 by done.
      rewrite !add_zero_zero. unfold min3.
      rewrite std_min_zero_l.
      + apply std_min_zero_r. apply Hstep; [apply Hc; lia|by apply sqedN_pos_or_zero].
      + apply pos_or_zero_nonneg.
        apply Hstep; [apply Hc; lia|by apply sqedN_pos_or_zero]. }
  destruct Hinv as [_ _ Hd]. apply Hd; lia.
Qed.

Lemma twe_self_distance_zero_witness :
  twe_matrix [ZF.Fin 1; ZF.Fin 5; ZF.Fin 2; ZF.Fin 8; ZF.Fin 3; ZF.Fin 3] 
             [ZF.Fin 1; ZF.Fin 5; ZF.Fin 2; ZF.Fin 8; ZF.Fin 3; ZF.Fin 3] 2
             (ZF.Fin 1) (ZF.Fin 3) = Fzero.
Proof.
  apply (twe_self_distance_zero [ZF.Fin 1; ZF.Fin 5; ZF.Fin 2; ZF.Fin 8; ZF.Fin 3; ZF.Fin 3]
           2 (ZF.Fin 1) (ZF.Fin 3)).
  - repeat constructor.
  - by vm_compute.
  - lia.
  - by vm_compute.
  - right. by vm_compute.
  - by vm_compute.
Defined.

(* ===================================================================== *)
(** * The command line of the NN-k tool ([exec/nnkgridsearch/cli.cpp]) *)
(* ===================================================================== *)

Module Nnk.

(** A step of the command line either goes on with a value, or leaves the
    process: [exit(code)] after the lines written on [std::cout] and on
    [std::cerr]; or it reads out of a vector with [operator[]], for which
    the C++ defines no behaviour. *)
Inductive outcome (A : Type) :=
  | Go (a : A)
  | Exit (code : Z) (cout cerr : list string)
  | Undefined.
Arguments Go {A} a.
Arguments Exit {A} code cout cerr.
Arguments Undefined {A}.

Definition bind {A B} (m : outcome A) (f : A → outcome B) : outcome B :=
  match m with
  | Go a => f a
  | Exit code cout cerr => Exit code cout cerr
  | Undefined => Undefined
  end.

(** The first lines of the usage; the text itself plays no role. *)
Definition usage : string := "Time Series NNK Classification - demonstration application".

(** [do_exit(code, msg)] *)
Definition do_exit {A} (code : Z) (msg : option string) : outcome A :=
  if (code =? 0)%Z then Exit code (match msg with Some m => [m] | None => [] end) []
  else Exit code [] (usage :: match msg with Some m => [m] | None => [] end).

(** The normalisations and the distances that the command line builds;
    the closures of the C++ are given by their captured parameters. *)
Inductive normalisation (D : Type) :=
  | MeanNorm
  | MinMax (min_range max_range : D)
  | UnitLength
  | ZScore.
Arguments MeanNorm {D}.
Arguments MinMax {D} min_range max_range.
Arguments UnitLength {D}.
Arguments ZScore {D}.

Inductive distance (D : Type) :=
  | Minkowski (e : D)
  | Lorentzian
  | SBD
  | DTW (e : D) (w : Z)
  | ADTW (e omega : D)
  | WDTW (e g : D) (length : nat)
  | ERP (e gv : D) (w : Z)
  | LCSS (epsilon : D) (w : Z)
  | MSM (c : D).
Arguments Minkowski {D} e.
Arguments Lorentzian {D}.
Arguments SBD {D}.
Arguments DTW {D} e w.
Arguments ADTW {D} e omega.
Arguments WDTW {D} e g length.
Arguments ERP {D} e gv w.
Arguments LCSS {D} epsilon w.
Arguments MSM {D} c.

(** The fields of [Config] that the command line writes; [D] stands for
    [double] and [DTS] for a split of the dataset. *)
Record Config (D DTS : Type) := mkConfig {
  k : Z;
  nbthreads : Z;
  seed : Z;
  pprng : option Z;
  outpath : option string;
  normalisation_name : string;
  norm_min_range : option D;
  norm_max_range : option D;
  loaded_train_split : DTS;
  loaded_test_split : DTS;
  transform_name : string;
  param_derivative_degree : option Z;
  train_split : DTS;
  test_split : DTS;
  dist_name : string;
  dist_fun : option (distance D);
  param_cf_exponent : option D;
  param_window : option Z;
  param_omega : option D;
  param_g : option D;
  param_gap_value : option D;
  param_epsilon : option D;
  param_c : option D
}.
Arguments mkConfig {D DTS}.
Arguments k {D DTS}.
Arguments nbthreads {D DTS}.
Arguments seed {D DTS}.
Arguments pprng {D DTS}.
Arguments outpath {D DTS}.
Arguments normalisation_name {D DTS}.
Arguments norm_min_range {D DTS}.
Arguments norm_max_range {D DTS}.
Arguments loaded_train_split {D DTS}.
Arguments loaded_test_split {D DTS}.
Arguments transform_name {D DTS}.
Arguments param_derivative_degree {D DTS}.
Arguments train_split {D DTS}.
Arguments test_split {D DTS}.
Arguments dist_name {D DTS}.
Arguments dist_fun {D DTS}.
Arguments param_cf_exponent {D DTS}.
Arguments param_window {D DTS}.
Arguments param_omega {D DTS}.
Arguments param_g {D DTS}.
Arguments param_gap_value {D DTS}.
Arguments param_epsilon {D DTS}.
Arguments param_c {D DTS}.

(** The collaborators that are not part of the sources at hand: the
    lookup of a flag in the arguments ([tempo::scli::get_parameter], with
    and without a default), the parsers of [tempo::reader], the machine,
    the constant [utils::NO_WINDOW], the transforms of the library and
    the longest length of a split; [size_to_long] is the conversion of a
    [size_t] stored in a field of [Config], [d0] and [d1] are the doubles
    0 and 1. *)
Class Collaborators (D DTS : Type) := {
  get_int_parameter : list string → string → Z → Z;
  get_string_parameter : list string → string → option string;
  split : string → list string;
  as_double : string → option D;
  as_int : string → option Z;
  as_long : string → option Z;
  hardware_concurrency : nat;
  random_device : Z;
  NO_WINDOW : Z;
  size_to_long : Z → Z;
  d0 : D;
  d1 : D;
  normalise : normalisation D → string → DTS → DTS;
  derive : string → Z → DTS → DTS;
  length_max : DTS → nat
}.

Section Cli.
Context `{Collaborators D DTS}.
Abbreviation Config := (Config D DTS).

(** Assignments to the fields of [conf] *)
Definition set_k (v : Z) (c : Config) : Config :=
  let '(mkConfig _ a2 a3 a4 a5 a6 a7 a8 a9 a10 a11 a12 a13 a14 a15 a16 a17 a18 a19 a20 a21 a22 a23) := c in
  mkConfig v a2 a3 a4 a5 a6 a7 a8 a9 a10 a11 a12 a13 a14 a15 a16 a17 a18 a19 a20 a21 a22 a23.
Definition set_nbthreads (v : Z) (c : Config) : Config :=
  let '(mkConfig a1 _ a3 a4 a5 a6 a7 a8 a9 a10 a11 a12 a13 a14 a15 a16 a17 a18 a19 a20 a21 a22 a23) := c in
  mkConfig a1 v a3 a4 a5 a6 a7 a8 a9 a10 a11 a12 a13 a14 a15 a16 a17 a18 a19 a20 a21 a22 a23.
Definition set_seed (v : Z) (c : Config) : Config :=
  let '(mkConfig a1 a2 _ _ a5 a6 a7 a8 a9 a10 a11 a12 a13 a14 a15 a16 a17 a18 a19 a20 a21 a22 a23) := c in
  mkConfig a1 a2 v (Some v) a5 a6 a7 a8 a9 a10 a11 a12 a13 a14 a15 a16 a17 a18 a19 a20 a21 a22 a23.
Definition set_outpath (v : option string) (c : Config) : Config :=
  let '(mkConfig a1 a2 a3 a4 _ a6 a7 a8 a9 a10 a11 a12 a13 a14 a15 a16 a17 a18 a19 a20 a21 a22 a23) := c in
  mkConfig a1 a2 a3 a4 v a6 a7 a8 a9 a10 a11 a12 a13 a14 a15 a16 a17 a18 a19 a20 a21 a22 a23.
Definition set_normalisation_name (v : string) (c : Config) : Config :=
  let '(mkConfig a1 a2 a3 a4 a5 _ a7 a8 a9 a10 a11 a12 a13 a14 a15 a16 a17 a18 a19 a20 a21 a22 a23) := c in
  mkConfig a1 a2 a3 a4 a5 v a7 a8 a9 a10 a11 a12 a13 a14 a15 a16 a17 a18 a19 a20 a21 a22 a23.
Definition set_norm_range (lo hi : option D) (c : Config) : Config :=
  let '(mkConfig a1 a2 a3 a4 a5 a6 _ _ a9 a10 a11 a12 a13 a14 a15 a16 a17 a18 a19 a20 a21 a22 a23) := c in
  mkConfig a1 a2 a3 a4 a5 a6 lo hi a9 a10 a11 a12 a13 a14 a15 a16 a17 a18 a19 a20 a21 a22 a23.
Definition set_loaded_splits (train test : DTS) (c : Config) : Config :=
  let '(mkConfig a1 a2 a3 a4 a5 a6 a7 a8 _ _ a11 a12 a13 a14 a15 a16 a17 a18 a19 a20 a21 a22 a23) := c in
  mkConfig a1 a2 a3 a4 a5 a6 a7 a8 train test a11 a12 a13 a14 a15 a16 a17 a18 a19 a20 a21 a22 a23.
Definition set_transform_name (v : string) (c : Config) : Config :=
  let '(mkConfig a1 a2 a3 a4 a5 a6 a7 a8 a9 a10 _ a12 a13 a14 a15 a16 a17 a18 a19 a20 a21 a22 a23) := c in
  mkConfig a1 a2 a3 a4 a5 a6 a7 a8 a9 a10 v a12 a13 a14 a15 a16 a17 a18 a19 a20 a21 a22 a23.
Definition set_param_derivative_degree (v : option Z) (c : Config) : Config :=
  let '(mkConfig a1 a2 a3 a4 a5 a6 a7 a8 a9 a10 a11 _ a13 a14 a15 a16 a17 a18 a19 a20 a21 a22 a23) := c in
  mkConfig a1 a2 a3 a4 a5 a6 a7 a8 a9 a10 a11 v a13 a14 a15 a16 a17 a18 a19 a20 a21 a22 a23.
Definition set_splits (train test : DTS) (c : Config) : Config :=
  let '(mkConfig a1 a2 a3 a4 a5 a6 a7 a8 a9 a10 a11 a12 _ _ a15 a16 a17 a18 a19 a20 a21 a22 a23) := c in
  mkConfig a1 a2 a3 a4 a5 a6 a7 a8 a9 a10 a11 a12 train test a15 a16 a17 a18 a19 a20 a21 a22 a23.
Definition set_dist_name (v : string) (c : Config) : Config :=
  let '(mkConfig a1 a2 a3 a4 a5 a6 a7 a8 a9 a10 a11 a12 a13 a14 _ a16 a17 a18 a19 a20 a21 a22 a23) := c in
  mkConfig a1 a2 a3 a4 a5 a6 a7 a8 a9 a10 a11 a12 a13 a14 v a16 a17 a18 a19 a20 a21 a22 a23.
Definition set_dist_fun (v : distance D) (c : Config) : Config :=
  let '(mkConfig a1 a2 a3 a4 a5 a6 a7 a8 a9 a10 a11 a12 a13 a14 a15 _ a17 a18 a19 a20 a21 a22 a23) := c in
  mkConfig a1 a2 a3 a4 a5 a6 a7 a8 a9 a10 a11 a12 a13 a14 a15 (Some v) a17 a18 a19 a20 a21 a22 a23.
Definition set_param_cf_exponent (v : D) (c : Config) : Config :=
  let '(mkConfig a1 a2 a3 a4 a5 a6 a7 a8 a9 a10 a11 a12 a13 a14 a15 a16 _ a18 a19 a20 a21 a22 a23) := c in
  mkConfig a1 a2 a3 a4 a5 a6 a7 a8 a9 a10 a11 a12 a13 a14 a15 a16 (Some v) a18 a19 a20 a21 a22 a23.
Definition set_param_window (v : Z) (c : Config) : Config :=
  let '(mkConfig a1 a2 a3 a4 a5 a6 a7 a8 a9 a10 a11 a12 a13 a14 a15 a16 a17 _ a19 a20 a21 a22 a23) := c in
  mkConfig a1 a2 a3 a4 a5 a6 a7 a8 a9 a10 a11 a12 a13 a14 a15 a16 a17 (Some v) a19 a20 a21 a22 a23.
Definition set_param_omega (v : D) (c : Config) : Config :=
  let '(mkConfig a1 a2 a3 a4 a5 a6 a7 a8 a9 a10 a11 a12 a13 a14 a15 a16 a17 a18 _ a20 a21 a22 a23) := c in
  mkConfig a1 a2 a3 a4 a5 a6 a7 a8 a9 a10 a11 a12 a13 a14 a15 a16 a17 a18 (Some v) a20 a21 a22 a23.
Definition set_param_g (v : D) (c : Config) : Config :=
  let '(mkConfig a1 a2 a3 a4 a5 a6 a7 a8 a9 a10 a11 a12 a13 a14 a15 a16 a17 a18 a19 _ a21 a22 a23) := c in
  mkConfig a1 a2 a3 a4 a5 a6 a7 a8 a9 a10 a11 a12 a13 a14 a15 a16 a17 a18 a19 (Some v) a21 a22 a23.
Definition set_param_gap_value (v : D) (c : Config) : Config :=
  let '(mkConfig a1 a2 a3 a4 a5 a6 a7 a8 a9 a10 a11 a12 a13 a14 a15 a16 a17 a18 a19 a20 _ a22 a23) := c in
  mkConfig a1 a2 a3 a4 a5 a6 a7 a8 a9 a10 a11 a12 a13 a14 a15 a16 a17 a18 a19 a20 (Some v) a22 a23.
Definition set_param_epsilon (v : D) (c : Config) : Config :=
  let '(mkConfig a1 a2 a3 a4 a5 a6 a7 a8 a9 a10 a11 a12 a13 a14 a15 a16 a17 a18 a19 a20 a21 _ a23) := c in
  mkConfig a1 a2 a3 a4 a5 a6 a7 a8 a9 a10 a11 a12 a13 a14 a15 a16 a17 a18 a19 a20 a21 (Some v) a23.
Definition set_param_c (v : D) (c : Config) : Config :=
  let '(mkConfig a1 a2 a3 a4 a5 a6 a7 a8 a9 a10 a11 a12 a13 a14 a15 a16 a17 a18 a19 a20 a21 a22 _) := c in
  mkConfig a1 a2 a3 a4 a5 a6 a7 a8 a9 a10 a11 a12 a13 a14 a15 a16 a17 a18 a19 a20 a21 a22 (Some v).

(** [if (h1(v, conf)) {} else if (h2(v, conf)) {} ... else { otherwise }]: a
    helper returns [true] ([Some]) when the name is its own, and then
    either has updated [conf] or has left the process. *)
Fixpoint try_helpers (hs : list (list string → Config → option (outcome Config)))
    (v : list string) (conf : Config) (otherwise : outcome Config) : outcome Config :=
  match hs with
  | [] => otherwise
  | h :: hs =>
      match h v conf with
      | Some r => r
      | None => try_helpers hs v conf otherwise
      end
  end.

(** [if (v[0]==name) { ...; return true; } return false;]: the helper reads
    the first token without a check of the size, then runs its body when
    the name is its own. *)
Definition when_first (v : list string) (name : string) (body : outcome Config)
    : option (outcome Config) :=
  match v with
  | [] => Some Undefined
  | v0 :: _ => if String.eqb v0 name then Some body else None
  end.

(** ** Optional arguments *)

(** [cmd_optional] *)
Definition cmd_optional (args : list string) (conf : Config) : outcome Config :=
  let p_k := get_int_parameter args "-k" 1 in
  if (p_k <=? 0)%Z then do_exit 1 (Some "-k must be followed by a integer >= 1")
  else
    let conf := set_k p_k conf in
    let p_et := get_int_parameter args "-et" 0 in
    if (p_et <? 0)%Z
    then do_exit 1 (Some "-et must specify a number of threads > 0, or 0 for auto-detect")
    else
      let conf :=
        if (p_et =? 0)%Z then set_nbthreads (Z.of_nat hardware_concurrency + 2) conf
        else set_nbthreads p_et conf in
      let p_seed := get_int_parameter args "-seed" (-1) in
      let conf := if (p_seed <? 0)%Z then set_seed random_device conf else set_seed p_seed conf in
      let p_out := get_string_parameter args "-out" in
      let conf := match p_out with Some p => set_outpath (Some p) conf | None => conf end in
      Go conf.

(** ** Normalisation *)

(** The body shared by the helpers of a normalisation: both loaded splits
    are mapped with the same function. *)
Definition apply_normalisation (n : normalisation D) (name : string) (conf : Config) : Config :=
  set_loaded_splits (normalise n name (loaded_train_split conf))
                    (normalise n name (loaded_test_split conf)) conf.

(** The helpers return [true] ([Some]) when the name is theirs, [false]
    ([None]) otherwise, and leave the process on a parameter error.  They
    read [v[1]], [v[2]] and [v[3]] only after the test of [v.size()]: at
    these reads the index is in range and [default] never gives its
    default. *)
Definition n_meannorm (v : list string) (conf : Config) : option (outcome Config) :=
  when_first v "meannorm"
    (let ok := length v =? 1 in
     if ok then Go (apply_normalisation MeanNorm "meannorm" conf)
     else do_exit 1 (Some "MeanNorm parameter error")).

Definition n_minmax (v : list string) (conf : Config) : option (outcome Config) :=
  when_first v "minmax"
    (let ok := (length v =? 1) || (length v =? 3) in
     if ok then
       let ranges :=
         if length v =? 3 then
           match as_double (default "" (v !! 1)), as_double (default "" (v !! 2)) with
           | Some omin, Some omax => Some (omin, omax)
           | _, _ => None
           end
         else Some (d0, d1) in
       match ranges with
       | Some (min_range, max_range) =>
           Go (set_norm_range (Some min_range) (Some max_range)
                 (apply_normalisation (MinMax min_range max_range) "minmax" conf))
       | None => do_exit 1 (Some "MinMax parameter error")
       end
     else do_exit 1 (Some "MinMax parameter error")).

Definition n_unitlength (v : list string) (conf : Config) : option (outcome Config) :=
  when_first v "unitlength"
    (let ok := length v =? 1 in
     if ok then Go (apply_normalisation UnitLength "unitlength" conf)
     else do_exit 1 (Some "MeanNorm parameter error")).

Definition n_zscore (v : list string) (conf : Config) : option (outcome Config) :=
  when_first v "zscore"
    (let ok := length v =? 1 in
     if ok then Go (apply_normalisation ZScore "zscore" conf)
     else do_exit 1 (Some "ZScore parameter error")).

(** [cmd_normalisation] *)
Definition cmd_normalisation (args : list string) (conf : Config) : outcome Config :=
  match get_string_parameter args "-n" with
  | Some parg_normalise =>
      let v := split parg_normalise in
      match v with
      | [] => Undefined
      | v0 :: _ =>
          let conf := set_normalisation_name v0 conf in
          try_helpers [n_meannorm; n_minmax; n_unitlength; n_zscore] v conf
            (if String.eqb (normalisation_name conf) "default" then Go conf
             else do_exit 1 (Some ("Unknown normalisation '" +:+ v0 +:+ "'")))
      end
  | None => Go (set_normalisation_name "default" conf)
  end.

(** ** Transform *)

Definition t_derivative (v : list string) (conf : Config) : option (outcome Config) :=
  when_first v "derivative"
    (let ok := length v =? 2 in
     if ok then
       match as_int (default "" (v !! 1)) with
       | Some degree =>
           let conf := set_param_derivative_degree (Some degree) conf in
           Go (set_splits (derive "train" degree (loaded_train_split conf))
                          (derive "test" degree (loaded_test_split conf)) conf)
       | None => do_exit 1 (Some "Derivative parameter error")
       end
     else do_exit 1 (Some "Derivative parameter error")).

(** [cmd_transform] *)
Definition cmd_transform (args : list string) (conf : Config) : outcome Config :=
  match get_string_parameter args "-t" with
  | Some parg_transform =>
      let v := split parg_transform in
      match v with
      | [] => Undefined
      | v0 :: _ =>
          let conf := set_transform_name v0 conf in
          try_helpers [t_derivative] v conf
            (if String.eqb (transform_name conf) "default"
             then Go (set_splits (loaded_train_split conf) (loaded_test_split conf) conf)
             else do_exit 1 (Some ("Unknown transform '" +:+ v0 +:+ "'")))
      end
  | None =>
      let conf := set_transform_name "default" conf in
      Go (set_splits (loaded_train_split conf) (loaded_test_split conf) conf)
  end.

(** ** Distance *)

(** [size_t param_window = utils::NO_WINDOW; if (ow.value()>=0) { param_window = ow.value(); }] *)
Definition window_of (ow : Z) : Z := if (0 <=? ow)%Z then ow else NO_WINDOW.

(** [conf.param_window = {-1}; if (ow.value()>=0) { conf.param_window = ow.value(); }] *)
Definition recorded_window (ow : Z) : Z := if (0 <=? ow)%Z then ow else (-1)%Z.

Definition d_minkowski (v : list string) (conf : Config) : option (outcome Config) :=
  when_first v "modminkowski"
    (let ok := length v =? 2 in
     if ok then
       match as_double (default "" (v !! 1)) with
       | Some param_cf_exponent =>
           Go (set_param_cf_exponent param_cf_exponent
                 (set_dist_fun (Minkowski param_cf_exponent) conf))
       | None => do_exit 1 (Some "Minkowski parameter error")
       end
     else do_exit 1 (Some "Minkowski parameter error")).

Definition d_lorentzian (v : list string) (conf : Config) : option (outcome Config) :=
  when_first v "lorentzian"
    (let ok := length v =? 1 in
     if ok then Go (set_dist_fun Lorentzian conf)
     else do_exit 1 (Some "Lorentzian parameter error")).

Definition d_sbd (v : list string) (conf : Config) : option (outcome Config) :=
  when_first v "sbd"
    (let ok := length v =? 1 in
     if ok then Go (set_dist_fun SBD conf)
     else do_exit 1 (Some "SBD parameter error")).

Definition d_dtw (v : list string) (conf : Config) : option (outcome Config) :=
  when_first v "dtw"
    (let ok := length v =? 3 in
     if ok then
       match as_double (default "" (v !! 1)), as_int (default "" (v !! 2)) with
       | Some param_cf_exponent, Some ow =>
           Go (set_param_window (recorded_window ow)
                 (set_param_cf_exponent param_cf_exponent
                    (set_dist_fun (DTW param_cf_exponent (window_of ow)) conf)))
       | _, _ => do_exit 1 (Some "DTW parameter error")
       end
     else do_exit 1 (Some "DTW parameter error")).

Definition d_adtw (v : list string) (conf : Config) : option (outcome Config) :=
  when_first v "adtw"
    (let ok := length v =? 3 in
     if ok then
       match as_double (default "" (v !! 1)), as_double (default "" (v !! 2)) with
       | Some param_cf_exponent, Some param_omega =>
           Go (set_param_omega param_omega
                 (set_param_cf_exponent param_cf_exponent
                    (set_dist_fun (ADTW param_cf_exponent param_omega) conf)))
       | _, _ => do_exit 1 (Some "ADTW parameter error")
       end
     else do_exit 1 (Some "ADTW parameter error")).

Definition d_wdtw (v : list string) (conf : Config) : option (outcome Config) :=
  when_first v "wdtw"
    (let ok := length v =? 3 in
     if ok then
       match as_double (default "" (v !! 1)), as_double (default "" (v !! 2)) with
       | Some param_cf_exponent, Some param_g =>
           let length := Nat.max (length_max (loaded_train_split conf))
                                 (length_max (loaded_test_split conf)) in
           Go (set_param_g param_g
                 (set_param_cf_exponent param_cf_exponent
                    (set_dist_fun (WDTW param_cf_exponent param_g length) conf)))
       | _, _ => do_exit 1 (Some "WDTW parameter error")
       end
     else do_exit 1 (Some "WDTW parameter error")).

Definition d_erp (v : list string) (conf : Config) : option (outcome Config) :=
  when_first v "erp"
    (let ok := length v =? 4 in
     if ok then
       match as_double (default "" (v !! 1)), as_double (default "" (v !! 2)),
             as_int (default "" (v !! 3)) with
       | Some param_cf_exponent, Some param_gv, Some ow =>
           Go (set_param_window (recorded_window ow)
                 (set_param_gap_value param_gv
                    (set_param_cf_exponent param_cf_exponent
                       (set_dist_fun (ERP param_cf_exponent param_gv (window_of ow)) conf))))
       | _, _, _ => do_exit 1 (Some "ERP parameter error")
       end
     else do_exit 1 (Some "ERP parameter error")).

Definition d_lcss (v : list string) (conf : Config) : option (outcome Config) :=
  when_first v "lcss"
    (let ok := length v =? 3 in
     if ok then
       match as_double (default "" (v !! 1)), as_long (default "" (v !! 2)) with
       | Some param_epsilon, Some ow =>
           Go (set_param_window (size_to_long (window_of ow))
                 (set_param_epsilon param_epsilon
                    (set_dist_fun (LCSS param_epsilon (window_of ow)) conf)))
       | _, _ => do_exit 1 (Some "LCSS parameter error")
       end
     else do_exit 1 (Some "LCSS parameter error")).

Definition d_msm (v : list string) (conf : Config) : option (outcome Config) :=
  when_first v "msm"
    (let ok := length v =? 2 in
     if ok then
       match as_double (default "" (v !! 1)) with
       | Some param_c => Go (set_param_c param_c (set_dist_fun (MSM param_c) conf))
       | None => do_exit 1 (Some "MSM parameter error")
       end
     else do_exit 1 (Some "MSM parameter error")).

(** The helpers of [cmd_dist], in the order they are tried. *)
Definition distance_helpers : list (list string → Config → option (outcome Config)) :=
  [d_minkowski; d_lorentzian; d_sbd; d_dtw; d_adtw; d_wdtw; d_erp; d_lcss; d_msm].

(** [cmd_dist] *)
Definition cmd_dist (args : list string) (conf : Config) : outcome Config :=
  match get_string_parameter args "-d" with
  | None => do_exit 1 (Some "specify a distance to use with '-d'")
  | Some parg_dist =>
      let v := split parg_dist in
      match v with
      | [] => Undefined
      | v0 :: _ =>
          let conf := set_dist_name v0 conf in
          try_helpers distance_helpers v conf
            (do_exit 1 (Some ("Unknown distance '" +:+ v0 +:+ "'")))
      end
  end.

End Cli.
End Nnk.

Module NnkSpec.
Import Nnk.

Section Grammar.
Context `{Collaborators D DTS}.

(** The distances of the usage text: [-d:<distance>] with its parameters
    separated by [':'], here the tokens after the split. *)
Definition distance_of_tokens (conf : Config D DTS) (v : list string) : option (distance D) :=
  match v with
  | [name] =>
      if String.eqb name "lorentzian" then Some Lorentzian
      else if String.eqb name "sbd" then Some SBD
      else None
  | [name; p1] =>
      if String.eqb name "modminkowski" then e ← as_double p1; Some (Minkowski e)
      else if String.eqb name "msm" then c ← as_double p1; Some (MSM c)
      else None
  | [name; p1; p2] =>
      if String.eqb name "dtw" then
        e ← as_double p1; w ← as_int p2; Some (DTW e (if (0 <=? w)%Z then w else NO_WINDOW))
      else if String.eqb name "adtw" then
        e ← as_double p1; omega ← as_double p2; Some (ADTW e omega)
      else if String.eqb name "wdtw" then
        e ← as_double p1; g ← as_double p2;
        Some (WDTW e g (Nat.max (length_max (loaded_train_split conf))
                                (length_max (loaded_test_split conf))))
      else if String.eqb name "lcss" then
        epsilon ← as_double p1; w ← as_long p2;
        Some (LCSS epsilon (if (0 <=? w)%Z then w else NO_WINDOW))
      else None
  | [name; p1; p2; p3] =>
      if String.eqb name "erp" then
        e ← as_double p1; gv ← as_double p2; w ← as_int p3;
        Some (ERP e gv (if (0 <=? w)%Z then w else NO_WINDOW))
      else None
  | _ => None
  end.

(** Leaving on a parse error: code 1, nothing on [std::cout], the usage
    and one line of message on [std::cerr]. *)
Definition parse_error {A} (r : outcome A) : Prop := ∃ msg, r = Exit 1 [] [usage; msg].

Definition leaves_on_parse_error {A} (r : outcome A) : Prop :=
  ∀ code cout cerr, r = Exit code cout cerr → code = 1%Z ∧ cout = [] ∧ ∃ msg, cerr = [usage; msg].

End Grammar.
End NnkSpec.

Section NnkProof.
Import Nnk NnkSpec.
Context `{Collaborators D DTS}.
Implicit Types (conf : Config D DTS) (v args : list string).

Lemma do_exit_1_leaves {A} msg : leaves_on_parse_error (do_exit (A := A) 1 (Some msg)).
Proof. intros code cout cerr [= <- <- <-]. eauto. Qed.

Lemma go_leaves {A} (a : A) : leaves_on_parse_error (Go a).
Proof. intros code cout cerr [=]. Qed.

Lemma undefined_leaves {A} : leaves_on_parse_error (Undefined (A := A)).
Proof. intros code cout cerr [=]. Qed.

Definition helper_leaves (h : list string → Config D DTS → option (outcome (Config D DTS))) : Prop :=
  ∀ v conf r, h v conf = Some r → leaves_on_parse_error r.

Lemma try_helpers_leaves hs v conf otherwise :
  Forall helper_leaves hs → leaves_on_parse_error otherwise →
  leaves_on_parse_error (try_helpers hs v conf otherwise).
Proof.
  intros Hhs Ho. induction Hhs as [|h hs Hh _ IH]; [done|]. cbn.
  destruct (h v conf) as [r|] eqn:Hr; [by eapply Hh|done].
Qed.

Ltac helper :=
  unfold when_first; intros v conf r Hr;
  repeat match type of Hr with
    | context [if ?b then _ else _] => destruct b
    | context [match ?x with _ => _ end] => destruct x
    end;
  simplify_eq; auto using do_exit_1_leaves, go_leaves, undefined_leaves.

Lemma n_meannorm_leaves : helper_leaves n_meannorm.
Proof. unfold n_meannorm. helper. Qed.
Lemma n_minmax_leaves : helper_leaves n_minmax.
Proof. unfold n_minmax. helper. Qed.
Lemma n_unitlength_leaves : helper_leaves n_unitlength.
Proof. unfold n_unitlength. helper. Qed.
Lemma n_zscore_leaves : helper_leaves n_zscore.
Proof. unfold n_zscore. helper. Qed.
Lemma t_derivative_leaves : helper_leaves t_derivative.
Proof. unfold t_derivative. helper. Qed.
Lemma d_minkowski_leaves : helper_leaves d_minkowski.
Proof. unfold d_minkowski. helper. Qed.
Lemma d_lorentzian_leaves : helper_leaves d_lorentzian.
Proof. unfold d_lorentzian. helper. Qed.
Lemma d_sbd_leaves : helper_leaves d_sbd.
Proof. unfold d_sbd. helper. Qed.
Lemma d_dtw_leaves : helper_leaves d_dtw.
Proof. unfold d_dtw. helper. Qed.
Lemma d_adtw_leaves : helper_leaves d_adtw.
Proof. unfold d_adtw. helper. Qed.
Lemma d_wdtw_leaves : helper_leaves d_wdtw.
Proof. unfold d_wdtw. helper. Qed.
Lemma d_erp_leaves : helper_leaves d_erp.
Proof. unfold d_erp. helper. Qed.
Lemma d_lcss_leaves : helper_leaves d_lcss.
Proof. unfold d_lcss. helper. Qed.
Lemma d_msm_leaves : helper_leaves d_msm.
Proof. unfold d_msm. helper. Qed.

Lemma cmd_optional_leaves args conf : leaves_on_parse_error (cmd_optional args conf).
Proof.
  unfold cmd_optional. cbn zeta.
  repeat match goal with
    | |- context [if ?b then _ else _] => destruct b
    | |- context [match ?x with _ => _ end] => destruct x
    end; auto using do_exit_1_leaves, go_leaves.
Qed.

Lemma cmd_normalisation_leaves args conf : leaves_on_parse_error (cmd_normalisation args conf).
Proof.
  unfold cmd_normalisation. destruct (get_string_parameter args "-n"); [|apply go_leaves].
  cbn zeta. destruct (split _) as [|v0 v]; [apply undefined_leaves|].
  apply try_helpers_leaves.
  - repeat apply Forall_cons_2; try apply Forall_nil_2;
      auto using n_meannorm_leaves, n_minmax_leaves, n_unitlength_leaves, n_zscore_leaves.
  - destruct (String.eqb _ _); auto using do_exit_1_leaves, go_leaves.
Qed.

Lemma cmd_transform_leaves args conf : leaves_on_parse_error (cmd_transform args conf).
Proof.
  unfold cmd_transform. destruct (get_string_parameter args "-t"); [|apply go_leaves].
  cbn zeta. destruct (split _) as [|v0 v]; [apply undefined_leaves|].
  apply try_helpers_leaves.
  - repeat apply Forall_cons_2; try apply Forall_nil_2. apply t_derivative_leaves.
  - destruct (String.eqb _ _); auto using do_exit_1_leaves, go_leaves.
Qed.

Lemma cmd_dist_leaves args conf : leaves_on_parse_error (cmd_dist args conf).
Proof.
  unfold cmd_dist. destruct (get_string_parameter args "-d"); [|apply do_exit_1_leaves].
  cbn zeta. destruct (split _) as [|v0 v]; [apply undefined_leaves|].
  apply try_helpers_leaves; [|apply do_exit_1_leaves].
  unfold distance_helpers.
  repeat apply Forall_cons_2; try apply Forall_nil_2;
    auto using d_minkowski_leaves, d_lorentzian_leaves, d_sbd_leaves, d_dtw_leaves,
      d_adtw_leaves, d_wdtw_leaves, d_erp_leaves, d_lcss_leaves, d_msm_leaves.
Qed.

End NnkProof.

(** The NN-k tool leaves on a parse error with code 1: whenever the
    parsing of the optional arguments, of the normalisation, of the
    transform or of the distance leaves the process, the exit code is 1,
    nothing was written on [std::cout], and [std::cerr] holds the usage
    followed by one line of message. *)
Theorem nnk_parse_errors_exit_1 `{Nnk.Collaborators D DTS}
    (args : list string) (conf : Nnk.Config D DTS) :
  NnkSpec.leaves_on_parse_error (Nnk.cmd_optional args conf) ∧
  NnkSpec.leaves_on_parse_error (Nnk.cmd_normalisation args conf) ∧
  NnkSpec.leaves_on_parse_error (Nnk.cmd_transform args conf) ∧
  NnkSpec.leaves_on_parse_error (Nnk.cmd_dist args conf).
Proof.
  split_and!; auto using cmd_optional_leaves, cmd_normalisation_leaves,
    cmd_transform_leaves, cmd_dist_leaves.
Qed.

Section NnkGrammarProof.
Import Nnk NnkSpec.
Context `{Collaborators D DTS}.
Implicit Types (conf : Config D DTS) (v args : list string).

Lemma dist_fun_set_dist_fun d conf : dist_fun (set_dist_fun d conf) = Some d.
Proof. by destruct conf. Qed.

Lemma try_distance_helpers name params conf otherwise :
  let v := name :: params in
  match distance_of_tokens conf v with
  | Some d =>
      ∃ conf', try_helpers distance_helpers v (set_dist_name name conf) otherwise = Go conf' ∧
               dist_fun conf' = Some d ∧ dist_name conf' = name
  | None =>
      try_helpers distance_helpers v (set_dist_name name conf) otherwise = otherwise
      ∨ parse_error (try_helpers distance_helpers v (set_dist_name name conf) otherwise)
  end.
Proof.
  destruct conf.
  destruct params as [|p1 [|p2 [|p3 [|p4 rest]]]];
    cbn -[String.eqb];
    unfold d_minkowski, d_lorentzian, d_sbd, d_dtw, d_adtw, d_wdtw, d_erp, d_lcss, d_msm,
      when_first, window_of, recorded_window, parse_error;
    cbn -[String.eqb].
  all: repeat match goal with
         | |- context [String.eqb ?a ?b] => destruct (String.eqb_spec a b); simplify_eq
         end; cbn -[String.eqb]; eauto.
  all: repeat match goal with
         | |- context [as_double ?a] => destruct (as_double a); cbn -[String.eqb]
         | |- context [as_int ?a] => destruct (as_int a); cbn -[String.eqb]
         | |- context [as_long ?a] => destruct (as_long a); cbn -[String.eqb]
         end; eauto.
Qed.

End NnkGrammarProof.

(** [cmd_dist] accepts the distances of the usage text and nothing else:
    without [-d] it leaves on a parse error; with [-d:<spec>], when the
    specification splits into a name and parameters, it goes on exactly
    when these tokens are a distance of the usage text with its
    parameters, each parsed, and then the configuration holds that
    distance and the name; otherwise it leaves on a parse error.  When the
    split gives no token at all, [v[0]] is read out of the vector. *)
Theorem cmd_dist_accepts_usage_grammar `{Nnk.Collaborators D DTS}
    (args : list string) (conf : Nnk.Config D DTS) :
  (Nnk.get_string_parameter args "-d" = None → NnkSpec.parse_error (Nnk.cmd_dist args conf)) ∧
  (∀ spec name params,
     Nnk.get_string_parameter args "-d" = Some spec → Nnk.split spec = name :: params →
     match NnkSpec.distance_of_tokens conf (name :: params) with
     | Some d =>
         ∃ conf', Nnk.cmd_dist args conf = Nnk.Go conf' ∧
                  Nnk.dist_fun conf' = Some d ∧
                  Nnk.dist_name conf' = name
     | None => NnkSpec.parse_error (Nnk.cmd_dist args conf)
     end) ∧
  (∀ spec,
     Nnk.get_string_parameter args "-d" = Some spec → Nnk.split spec = [] →
     Nnk.cmd_dist args conf = Nnk.Undefined).
Proof.
  unfold Nnk.cmd_dist. split_and!.
  - intros ->. by eexists.
  - intros spec name params -> ->. cbn zeta.
    pose proof (try_distance_helpers name params conf
                  (Nnk.do_exit 1 (Some ("Unknown distance '" +:+ name +:+ "'"))))
      as Htry.
    cbn zeta in Htry.
    destruct (NnkSpec.distance_of_tokens conf (name :: params)); [done|].
    destruct Htry as [-> | Herr]; [by eexists|done].
  - by intros spec -> ->.
Qed.

Section NnkOptionalProof.
Import Nnk NnkSpec.
Context `{Collaborators D DTS}.
Implicit Types (conf : Config D DTS) (v args : list string).

Lemma cmd_optional_Go args conf :
  (0 < get_int_parameter args "-k" 1)%Z → (0 ≤ get_int_parameter args "-et" 0)%Z →
  ∃ conf', cmd_optional args conf = Go conf' ∧
    k conf' = get_int_parameter args "-k" 1 ∧
    nbthreads conf'
      = (if (get_int_parameter args "-et" 0 =? 0)%Z
         then Z.of_nat hardware_concurrency + 2
         else get_int_parameter args "-et" 0)%Z ∧
    seed conf'
      = (if (get_int_parameter args "-seed" (-1) <? 0)%Z
         then random_device
         else get_int_parameter args "-seed" (-1)) ∧
    pprng conf' = Some (seed conf') ∧
    outpath conf' = match get_string_parameter args "-out" with
                    | Some p => Some p
                    | None => outpath conf
                    end.
Proof.
  intros Hk Het. unfold cmd_optional. cbn zeta.
  destruct (Z.leb_spec (get_int_parameter args "-k" 1) 0) as [|_]; [lia|].
  destruct (Z.ltb_spec (get_int_parameter args "-et" 0) 0) as [|_]; [lia|].
  eexists. split; [done|]. destruct conf.
  destruct (get_int_parameter args "-et" 0 =? 0)%Z,
    (get_int_parameter args "-seed" (-1) <? 0)%Z,
    (get_string_parameter args "-out"); done.
Qed.

End NnkOptionalProof.

(** [cmd_optional] goes on exactly when [-k] is at least 1 and [-et] is not
    negative, and then the configuration asks for at least one neighbour
    and at least one thread ([-et:0] gives two more threads than the
    machine reports), and its generator is seeded with its seed. *)
Theorem cmd_optional_ranges `{Nnk.Collaborators D DTS}
    (args : list string) (conf : Nnk.Config D DTS) :
  let p_k := Nnk.get_int_parameter args "-k" 1 in
  let p_et := Nnk.get_int_parameter args "-et" 0 in
  ((0 < p_k ∧ 0 ≤ p_et)%Z ↔ ∃ conf', Nnk.cmd_optional args conf = Nnk.Go conf') ∧
  ∀ conf', Nnk.cmd_optional args conf = Nnk.Go conf' →
    (Nnk.k conf' = p_k ∧ 1 ≤ Nnk.k conf')%Z ∧
    (1 ≤ Nnk.nbthreads conf')%Z ∧
    (p_et ≠ 0%Z → Nnk.nbthreads conf' = p_et) ∧
    (p_et = 0%Z → Nnk.nbthreads conf' = (Z.of_nat Nnk.hardware_concurrency + 2)%Z) ∧
    Nnk.pprng conf' = Some (Nnk.seed conf').
Proof.
  intros p_k p_et. split.
  - split.
    + intros [Hk Het]. destruct (cmd_optional_Go args conf Hk Het) as (conf' & Hgo & _).
      by exists conf'.
    + intros (conf' & Hgo). unfold Nnk.cmd_optional in Hgo. cbn zeta in Hgo.
      fold p_k p_et in Hgo.
      destruct (Z.leb_spec p_k 0); [discriminate Hgo|].
      destruct (Z.ltb_spec p_et 0); [discriminate Hgo|]. lia.
  - intros conf' Hgo.
    assert (0 < p_k ∧ 0 ≤ p_et)%Z as [Hk Het].
    { unfold Nnk.cmd_optional in Hgo. cbn zeta in Hgo. fold p_k p_et in Hgo.
      destruct (Z.leb_spec p_k 0); [discriminate Hgo|].
      destruct (Z.ltb_spec p_et 0); [discriminate Hgo|]. lia. }
    destruct (cmd_optional_Go args conf Hk Het) as (conf'' & Hgo' & Hk' & Hn & _ & Hp & _).
    rewrite Hgo in Hgo'. injection Hgo' as <-. fold p_k in Hk'. fold p_et in Hn.
    split_and!; [done|lia| | | |done].
    + rewrite Hn. destruct (Z.eqb_spec p_et 0); lia.
    + intros Hne. rewrite Hn. destruct (Z.eqb_spec p_et 0); [done|done].
    + intros He. rewrite Hn. destruct (Z.eqb_spec p_et 0); [done|done].
Qed.

(** The train split and the test split are always processed alike: a
    successful [cmd_normalisation] leaves both loaded splits as they were
    (normalisation "default") or has mapped both with the same
    normalisation and the same parameters, under the name given; a
    successful [cmd_transform] takes both loaded splits as they are
    (transform "default") or derives both with the same degree. *)
Theorem nnk_splits_processed_alike `{Nnk.Collaborators D DTS}
    (args : list string) (conf : Nnk.Config D DTS) :
  (∀ conf', Nnk.cmd_normalisation args conf = Nnk.Go conf' →
     (Nnk.normalisation_name conf' = "default" ∧
      Nnk.loaded_train_split conf' = Nnk.loaded_train_split conf ∧
      Nnk.loaded_test_split conf' = Nnk.loaded_test_split conf) ∨
     ∃ n,
       Nnk.normalisation_name conf' ∈ ["meannorm"; "minmax"; "unitlength"; "zscore"] ∧
       Nnk.loaded_train_split conf'
         = Nnk.normalise n (Nnk.normalisation_name conf') (Nnk.loaded_train_split conf) ∧
       Nnk.loaded_test_split conf'
         = Nnk.normalise n (Nnk.normalisation_name conf') (Nnk.loaded_test_split conf)) ∧
  (∀ conf', Nnk.cmd_transform args conf = Nnk.Go conf' →
     (Nnk.transform_name conf' = "default" ∧
      Nnk.train_split conf' = Nnk.loaded_train_split conf ∧
      Nnk.test_split conf' = Nnk.loaded_test_split conf) ∨
     ∃ degree,
       Nnk.transform_name conf' = "derivative" ∧
       Nnk.param_derivative_degree conf' = Some degree ∧
       Nnk.train_split conf' = Nnk.derive "train" degree (Nnk.loaded_train_split conf) ∧
       Nnk.test_split conf' = Nnk.derive "test" degree (Nnk.loaded_test_split conf)).
Proof.
  split; intros conf' Hgo.
  - unfold Nnk.cmd_normalisation in Hgo.
    destruct (Nnk.get_string_parameter args "-n") as [parg|].
    2: { injection Hgo as <-. left. by destruct conf. }
    cbn zeta in Hgo. destruct (Nnk.split parg) as [|v0 v]; [done|]. destruct conf.
    cbn -[String.eqb] in Hgo.
    unfold Nnk.n_meannorm, Nnk.n_minmax, Nnk.n_unitlength, Nnk.n_zscore,
      Nnk.when_first, Nnk.apply_normalisation in Hgo.
    cbn -[String.eqb] in Hgo.
    repeat match type of Hgo with
      | context [String.eqb ?a ?b] => destruct (String.eqb_spec a b)
      | context [if ?b then _ else _] => destruct b
      | context [match ?x with _ => _ end] => destruct x
      end; simplify_eq; cbn.
    all: try (by left).
    all: right; eexists; split_and!; [|reflexivity..]; set_solver.
  - unfold Nnk.cmd_transform in Hgo.
    destruct (Nnk.get_string_parameter args "-t") as [parg|].
    2: { injection Hgo as <-. left. by destruct conf. }
    cbn zeta in Hgo. destruct (Nnk.split parg) as [|v0 v]; [done|]. destruct conf.
    cbn -[String.eqb] in Hgo. unfold Nnk.t_derivative, Nnk.when_first in Hgo.
    cbn -[String.eqb] in Hgo.
    repeat match type of Hgo with
      | context [String.eqb ?a ?b] => destruct (String.eqb_spec a b)
      | context [if ?b then _ else _] => destruct b
      | context [match ?x with _ => _ end] => destruct x
      end; simplify_eq; cbn;
      first [ by left | right; eexists; by split_and! ].
Qed.

(* ===================================================================== *)
(** * A map with a single class, and the generators of splitters *)
(* ===================================================================== *)

Section PureNode.
Context `{FloatLaws F} `{Countable L}.
Implicit Types (ds : list (TSeries F L)) (bcm m : gmap L (list nat)).

(** With exemplars of a single label the ties are that label. *)
Lemma nn1_loop_single_label (distance : distance_t F L) ds q idxs l :
  idxs ≠ [] → labelled ds idxs → (∀ a b u, ok (distance a b u)) →
  (∀ l', l' ∈ exemplar_labels ds idxs → l' = l) →
  ∃ bsf, nn1_loop distance ds q idxs PINF [] = Some (bsf, [l]).
Proof.
  intros Hne Hlab Hd Hall.
  destruct (nn1_loop_inv distance ds q idxs PINF [])
    as (bsf & labels & Hloop & _ & Hnd & Hempty & Hin);
    [done..|apply pinf_ok|apply NoDup_nil_2|done|].
  exists bsf. rewrite Hloop. do 2 f_equal.
  assert (∀ l', l' ∈ labels → l' = l) as Hl.
  { intros l' Hl'. destruct (Hin l' Hl') as [Habs|Hex]; [by apply not_elem_of_nil in Habs|].
    by apply Hall. }
  destruct labels as [|l0 labels]; [by destruct (Hempty eq_refl)|].
  assert (l0 = l) as -> by (apply Hl; left).
  destruct labels as [|l1 labels]; [done|].
  assert (l1 = l) as -> by (apply Hl; right; left).
  apply NoDup_cons in Hnd as [Hnotin _]. exfalso. apply Hnotin. left.
Qed.

(** Routing rows of label [l] with exemplars of label [l] only: every row
    is pushed, in order, under [l] in the map of branch 0. *)
Lemma route_all_single_label (distance : distance_t F L) ds idxs l queries : ∀ acc prng,
  idxs ≠ [] → labelled ds idxs → (∀ a b u, ok (distance a b u)) →
  (∀ l', l' ∈ exemplar_labels ds idxs → l' = l) →
  Forall (λ q, ∃ query, ds !! q = Some query ∧ ts_label query = Some l) queries →
  ∃ prng',
    route_all distance ds idxs {[l := 0]} queries [acc] prng
    = Some ([foldl (λ m q, map_push_back l q m) acc queries], prng').
Proof.
  induction queries as [|q queries IH]; intros acc prng Hne Hlab Hd Hall Hqs.
  { by exists prng. }
  inversion Hqs as [|? ? (query & Hq & Hl) Hqs']; subst.
  cbn [route_all foldl]. unfold route. rewrite Hq. cbn.
  destruct (nn1_loop_single_label distance ds query idxs l) as (bsf & ->); [done..|]. cbn.
  rewrite pick_one_single. cbn. rewrite lookup_singleton_eq. cbn. rewrite Hl. cbn.
  by apply IH.
Qed.

Lemma foldl_push_back (l : L) (queries : list nat) : ∀ acc : list nat,
  foldl (λ m q, map_push_back l q m) {[l := acc]} queries = {[l := acc ++ queries]}.
Proof.
  induction queries as [|q queries IH]; intros acc; cbn.
  { by rewrite app_nil_r. }
  unfold map_push_back at 2. rewrite lookup_singleton_eq. cbn.
  rewrite insert_singleton_eq. rewrite IH. by rewrite <- app_assoc.
Qed.

End PureNode.

(** A map with a single class is not split: for a class that is not
    empty and holds rows of its label, and a distance that returns no NaN,
    [generate] returns the incoming map itself as its only child, the rows
    in their order. *)
Theorem generate_pure_node `{FloatLaws F} `{Countable L}
    (dist : distance_t F L) (tname : string) (state : TreeState F L)
    (ds : list (TSeries F L)) (l : L) (rows : list nat) :
  rows ≠ [] →
  dataset_shared_map state !! tname = Some ds →
  Forall (λ idx, ∃ ts, ds !! idx = Some ts ∧ ts_label ts = Some l) rows →
  (∀ a b u, ok (dist a b u)) →
  ∃ splitter prng,
    generate dist tname state {[l := rows]} = Some ([{[l := rows]}], splitter, prng).
Proof.
  intros Hrows Hmap Hlab Hd. unfold generate, pick_one_by_class, IndexSet, classes, nb_classes.
  rewrite map_to_list_singleton, map_size_singleton. cbn [fmap list_fmap snd fst].
  replace (mjoin [rows]) with rows by (cbn; by rewrite app_nil_r).
  cbn [pick_one_each replicate].
  destruct (pick_one_is_Some rows (st_prng state) Hrows) as (idx & -> & Hidx). cbn.
  rewrite Hmap. cbn.
  destruct (proj1 (Forall_forall _ _) Hlab idx Hidx) as (ts & Hts & Hl).
  assert (bcm_labels_to_index ({[l := rows]} : gmap L (list nat)) = {[l := 0]}) as ->.
  { unfold bcm_labels_to_index, classes, nb_classes.
    rewrite map_to_list_singleton, map_size_singleton. cbn. by rewrite insert_empty. }
  destruct (route_all_single_label dist ds [idx] l rows ∅ (tl (st_prng state)))
    as (prng' & ->); [done| |done| |done|].
  - apply Forall_cons_2; [by exists ts, l|apply Forall_nil_2].
  - intros l'. rewrite (exemplar_labels_cons _ _ _ _ _ Hts Hl). cbn.
    intros Hl'. by apply list_elem_of_singleton in Hl'.
  - cbn. rewrite lookup_singleton_eq. cbn.
    destruct rows as [|q rows']; [done|]. cbn [foldl].
    assert (map_push_back l q (∅ : gmap L (list nat)) = {[l := [q]]}) as ->.
    { unfold map_push_back. rewrite lookup_empty. cbn. by rewrite insert_empty. }
    rewrite foldl_push_back. cbn [app].
    unfold no_empty_bcm. rewrite decide_False by apply insert_non_empty.
    by eexists _, _.
Qed.

Lemma generate_pure_node_witness :
  ∃ splitter prng,
    generate (λ _ _ _, PINF) "raw" toy_train_state ({[0 := [2; 0]]} : gmap nat (list nat))
    = Some ([{[0 := [2; 0]]}], splitter, prng).
Proof.
  apply (generate_pure_node (λ _ _ _, PINF) "raw" toy_train_state toy_dataset 0 [2; 0]).
  - done.
  - by vm_compute.
  - repeat apply Forall_cons_2; try apply Forall_nil_2; by exists (toy_series 0).
  - done.
Defined.

(** ** The recurrence of the ERP reference *)

Section ErpCell.
Context `{Float F}.

(** The band of line [i]: the columns from [erp_l] to [erp_r], the latter
    excluded. *)
Definition erp_l (w : Z) (i : nat) : nat := Z.to_nat (Z.max (Z.of_nat i - w) 1).

Definition erp_r (w : Z) (nbcols i : nat) : nat :=
  Z.to_nat (Z.min (Z.of_nat i + w + 1) (Z.of_nat nbcols + 1)).

Definition in_band (w : Z) (nbcols i j : nat) : bool :=
  (erp_l w i <=? j) && (j <? erp_r w nbcols i).

(** The cell [(i, j)] of the matrix that [erp_matrix] fills, borders
    included; a cell out of the band keeps its initial [+∞]. *)
Fixpoint erp_cell (lines cols : list F) (gValue : F) (w : Z) (nbcols : nat) (i : nat)
    : nat → F :=
  match i with
  | 0 =>
      fix first (j : nat) : F :=
        match j with
        | 0 => Fzero
        | S j' => Fadd (first j') (square_dist gValue (rd cols j'))
        end
  | S i' =>
      fix cur (j : nat) : F :=
        match j with
        | 0 => Fadd (erp_cell lines cols gValue w nbcols i' 0) (square_dist (rd lines i') gValue)
        | S j' =>
            if in_band w nbcols (S i') (S j') then
              std_min
                (Fadd (cur j') (square_dist gValue (rd cols j')))
                (std_min
                   (Fadd (erp_cell lines cols gValue w nbcols i' j')
                      (square_dist (rd lines i') (rd cols j')))
                   (Fadd (erp_cell lines cols gValue w nbcols i' (S j'))
                      (square_dist (rd lines i') gValue)))
            else PINF
        end
  end.

End ErpCell.

Arguments erp_cell : simpl never.

Section ErpSymmetry.
Context `{FloatSymLaws F}.
Implicit Types (lines cols : list F) (matrix : list (list F)).

Lemma erp_cell_0_0 lines cols gv w nc : erp_cell lines cols gv w nc 0 0 = Fzero.
Proof. reflexivity. Qed.

Lemma erp_cell_0_S lines cols gv w nc j :
  erp_cell lines cols gv w nc 0 (S j)
  = Fadd (erp_cell lines cols gv w nc 0 j) (square_dist gv (rd cols j)).
Proof. reflexivity. Qed.

Lemma erp_cell_S_0 lines cols gv w nc i :
  erp_cell lines cols gv w nc (S i) 0
  = Fadd (erp_cell lines cols gv w nc i 0) (square_dist (rd lines i) gv).
Proof. reflexivity. Qed.

Lemma erp_cell_S_S lines cols gv w nc i j :
  erp_cell lines cols gv w nc (S i) (S j)
  = if in_band w nc (S i) (S j) then
      std_min
        (Fadd (erp_cell lines cols gv w nc (S i) j) (square_dist gv (rd cols j)))
        (std_min
           (Fadd (erp_cell lines cols gv w nc i j) (square_dist (rd lines i) (rd cols j)))
           (Fadd (erp_cell lines cols gv w nc i (S j)) (square_dist (rd lines i) gv)))
    else PINF.
Proof. reflexivity. Qed.

Lemma erp_cell_pos_or_zero lines cols gv w nc i j :
  Forall finite lines → Forall finite cols → finite gv →
  pos_or_zero (erp_cell lines cols gv w nc i j).
Proof.
  intros Hl Hc Hg.
  assert (∀ x a b, pos_or_zero x → finite a → finite b → pos_or_zero (Fadd x (square_dist a b)))
    as Hstep.
  { intros x a b Hx Ha Hb. apply add_pos_or_zero; [by apply pos_or_zero_nonneg|].
    by apply square_dist_pos_or_zero. }
  revert j. induction i as [|i IHi]; intros j.
  - induction j as [|j IHj]; [apply pos_or_zero_zero|].
    rewrite erp_cell_0_S. apply Hstep; [done..|by apply rd_finite].
  - induction j as [|j IHj].
    + rewrite erp_cell_S_0. apply Hstep; [done|by apply rd_finite|done].
    + rewrite erp_cell_S_S. destruct (in_band _ _ _ _); [|apply pos_or_zero_pinf].
      repeat apply pos_or_zero_std_min; apply Hstep; auto using rd_finite.
Qed.

(** [erp_matrix] fills the matrix with the cells of the recurrence. *)
Lemma erp_matrix_fill lines cols gv (w : Z) :
  let nblines := length lines in
  let nbcols := length cols in
  0 < nbcols → nbcols ≤ nblines →
  let matrix := replicate (nblines + 1) (replicate (nbcols + 1) PINF) in
  let matrix := matrix_set matrix 0 0 Fzero in
  let matrix :=
    fold_left (λ matrix j,
        matrix_set matrix 0 j
          (Fadd (matrix_get matrix 0 (j - 1)) (square_dist gv (rd cols (j - 1)))))
      (seq 1 nbcols) matrix in
  let matrix :=
    fold_left (λ matrix i,
        matrix_set matrix i 0
          (Fadd (matrix_get matrix (i - 1) 0) (square_dist (rd lines (i - 1)) gv)))
      (seq 1 nblines) matrix in
  let matrix :=
    fold_left (λ matrix i,
        let li := rd lines (i - 1) in
        let l := Z.to_nat (Z.max (Z.of_nat i - w) 1) in
        let r := Z.to_nat (Z.min (Z.of_nat i + w + 1) (Z.of_nat nbcols + 1)) in
        fold_left (λ matrix j,
            matrix_set matrix i j
              (std_min
                 (Fadd (matrix_get matrix i (j - 1)) (square_dist gv (rd cols (j - 1))))
                 (std_min
                    (Fadd (matrix_get matrix (i - 1) (j - 1)) (square_dist li (rd cols (j - 1))))
                    (Fadd (matrix_get matrix (i - 1) j) (square_dist li gv)))))
          (seq l (r - l)) matrix)
      (seq 1 nblines) matrix in
  matrix_get matrix nblines nbcols = erp_cell lines cols gv w nbcols nblines nbcols.
Proof.
  intros nl nc Hnc Hle. cbn zeta.
  set (C := erp_cell lines cols gv w nc).
  set (n := nl + 1). set (k := nc + 1).
  (* the first line *)
  set (first_line := λ j0 matrix,
         shape n k matrix ∧
         (∀ j, j < j0 → j ≤ nc → matrix_get matrix 0 j = C 0 j) ∧
         (∀ i j, i ≤ nl → j ≤ nc → 1 ≤ i ∨ j0 ≤ j → matrix_get matrix i j = PINF)).
  match goal with
  | |- context [fold_left ?f (seq 1 nc) ?m0] =>
      assert (first_line (1 + nc) (fold_left f (seq 1 nc) m0)) as (Hs1 & Hrow & Hrest)
  end.
  { apply (fold_seq_inv _ first_line nc 1).
    { pose proof (shape_replicate n k (PINF : F)) as Hshape. split_and!.
      - by apply shape_set.
      - intros j Hj _. assert (j = 0) as -> by lia.
        erewrite matrix_get_set_eq by (done || lia). done.
      - intros i j Hi Hj Hij. rewrite matrix_get_set_ne by lia.
        apply matrix_get_replicate; lia. }
    intros j m Hj (Hs & Hrow & Hrest). split_and!.
    - by apply shape_set.
    - intros j' Hj' Hnc'. destruct (decide (j' = j)) as [->|Hne].
      + erewrite matrix_get_set_eq by (done || lia). rewrite Hrow by lia.
        destruct j as [|j'']; [lia|]. subst C. rewrite erp_cell_0_S.
        by replace (S j'' - 1) with j'' by lia.
      + rewrite matrix_get_set_ne by lia. apply Hrow; lia.
    - intros i j' Hi Hj' Hij. rewrite matrix_get_set_ne by lia. apply Hrest; lia. }
  (* the first column *)
  set (first_col := λ i0 matrix,
         shape n k matrix ∧
         (∀ j, j ≤ nc → matrix_get matrix 0 j = C 0 j) ∧
         (∀ i, i < i0 → i ≤ nl → matrix_get matrix i 0 = C i 0) ∧
         (∀ i j, i ≤ nl → j ≤ nc → 1 ≤ i → 1 ≤ j ∨ i0 ≤ i → matrix_get matrix i j = PINF)).
  match goal with
  | |- context [fold_left ?f (seq 1 nl) (fold_left ?g (seq 1 nc) ?m0)] =>
      assert (first_col (1 + nl) (fold_left f (seq 1 nl) (fold_left g (seq 1 nc) m0)))
        as (Hs2 & Hrow2 & Hcol2 & Hrest2)
  end.
  { apply (fold_seq_inv _ first_col nl 1).
    { split_and!; [done| | |].
      - intros j Hj. apply Hrow; lia.
      - intros i Hi _. assert (i = 0) as -> by lia. apply Hrow; lia.
      - intros i j Hi Hj Hi1 Hij. apply Hrest; lia. }
    intros i m Hi (Hs & Hrow' & Hcol & Hrest'). split_and!.
    - by apply shape_set.
    - intros j Hj. rewrite matrix_get_set_ne by lia. by apply Hrow'.
    - intros i' Hi' Hnl. destruct (decide (i' = i)) as [->|Hne].
      + erewrite matrix_get_set_eq by (done || lia). rewrite Hcol by lia.
        destruct i as [|i'']; [lia|]. subst C. rewrite erp_cell_S_0.
        by replace (S i'' - 1) with i'' by lia.
      + rewrite matrix_get_set_ne by lia. apply Hcol; lia.
    - intros i' j Hi' Hj Hi1 Hij. rewrite matrix_get_set_ne by lia. apply Hrest'; lia. }
  clear Hs1 Hrow Hrest.
  (* the lines *)
  set (done_rows := λ i0 matrix,
         shape n k matrix ∧
         (∀ i j, i < i0 → i ≤ nl → j ≤ nc → matrix_get matrix i j = C i j) ∧
         (∀ i, i0 ≤ i → i ≤ nl → matrix_get matrix i 0 = C i 0) ∧
         (∀ i j, i0 ≤ i → i ≤ nl → 1 ≤ j → j ≤ nc → matrix_get matrix i j = PINF)).
  match goal with |- matrix_get ?m _ _ = _ => assert (done_rows (1 + nl) m) as Hinv end.
  { apply (fold_seq_inv _ done_rows nl 1).
    { split_and!; [done| | |].
      - intros i j Hi _ Hj. assert (i = 0) as -> by lia. by apply Hrow2.
      - intros i Hi Hnl. apply Hcol2; lia.
      - intros i j Hi Hnl Hj Hnc'. apply Hrest2; lia. }
    intros i m Hi (Hs & Hrows & Hcol & Hrest). cbn zeta.
    set (l := Z.to_nat (Z.max (Z.of_nat i - w) 1)).
    set (r := Z.to_nat (Z.min (Z.of_nat i + w + 1) (Z.of_nat nc + 1))).
    assert (1 ≤ l) as Hl by lia. assert (r ≤ nc + 1) as Hr by lia.
    set (line := λ j0 matrix,
           shape n k matrix ∧
           (∀ i' j, i' < i → i' ≤ nl → j ≤ nc → matrix_get matrix i' j = C i' j) ∧
           (∀ j, j < j0 → j ≤ nc → matrix_get matrix i j = C i j) ∧
           (∀ j, j0 ≤ j → j ≤ nc → matrix_get matrix i j = PINF) ∧
           (∀ i', i < i' → i' ≤ nl → matrix_get matrix i' 0 = C i' 0) ∧
           (∀ i' j, i < i' → i' ≤ nl → 1 ≤ j → j ≤ nc → matrix_get matrix i' j = PINF)).
    assert (∀ j, 1 ≤ j → j ≤ nc → ¬ (l ≤ j < r) → C i j = PINF) as Hout.
    { intros j Hj1 Hjn Hnot. destruct i as [|i']; [lia|]. destruct j as [|j']; [lia|].
      subst C. rewrite erp_cell_S_S. unfold in_band, erp_l, erp_r. fold l r.
      destruct (Nat.leb_spec l (S j')), (Nat.ltb_spec (S j') r); cbn [andb]; try done. lia. }
    match goal with
    | |- done_rows _ (fold_left ?f (seq l (r - l)) m) =>
        assert (line (l + (r - l)) (fold_left f (seq l (r - l)) m))
          as (Hs' & Hr' & Hc' & Hp' & Hf0 & Hf)
    end.
    { apply (fold_seq_inv _ line (r - l) l).
      { split_and!; [done|done| | | |].
        - intros j Hj Hjn. destruct j as [|j']; [apply Hcol; lia|].
          rewrite Hrest by lia. symmetry. apply Hout; lia.
        - intros j Hj Hjn. apply Hrest; lia.
        - intros i' Hi' Hnl. apply Hcol; lia.
        - intros i' j Hi' Hnl Hj Hjn. apply Hrest; lia. }
      intros j m' Hj (Hs' & Hr' & Hc' & Hp' & Hf0 & Hf). split_and!.
      - by apply shape_set.
      - intros i' j' Hi' Hnl Hj'. rewrite matrix_get_set_ne by lia. by apply Hr'.
      - intros j' Hj' Hjn. destruct (decide (j' = j)) as [->|Hne].
        + erewrite matrix_get_set_eq by (done || lia).
          rewrite Hc' by lia. rewrite !Hr' by lia.
          destruct i as [|i']; [lia|]. destruct j as [|j'']; [lia|].
          subst C. rewrite erp_cell_S_S. unfold in_band, erp_l, erp_r. fold l r.
          destruct (Nat.leb_spec l (S j'')); [|lia].
          destruct (Nat.ltb_spec (S j'') r); [|lia]. cbn [andb].
          by replace (S i' - 1) with i' by lia; replace (S j'' - 1) with j'' by lia.
        + rewrite matrix_get_set_ne by lia. apply Hc'; lia.
      - intros j' Hj' Hjn. rewrite matrix_get_set_ne by lia. apply Hp'; lia.
      - intros i' Hi' Hnl. rewrite matrix_get_set_ne by lia. by apply Hf0.
      - intros i' j' Hi' Hnl Hj' Hjn. rewrite matrix_get_set_ne by lia. by apply Hf. }
    split_and!; [done| | |].
    - intros i' j Hi' Hnl Hj. destruct (decide (i' = i)) as [->|Hne]; [|apply Hr'; lia].
      destruct (decide (j < l + (r - l))) as [Hlt|Hge]; [by apply Hc'|].
      rewrite Hp' by lia. symmetry. apply Hout; lia.
    - intros i' Hi' Hnl. apply Hf0; lia.
    - intros i' j Hi' Hnl Hj Hjn. apply Hf; lia. }
  destruct Hinv as (_ & Hrows & _). apply Hrows; lia.
Qed.

Lemma square_dist_sym (a b : F) : finite a → finite b → square_dist a b = square_dist b a.
Proof. intros Ha Hb. unfold square_dist. cbn zeta. by apply sq_sub_sym. Qed.

Lemma in_band_sym (w : Z) n i j :
  1 ≤ i ≤ n → 1 ≤ j ≤ n → in_band w n i j = in_band w n j i.
Proof.
  intros Hi Hj. unfold in_band, erp_l, erp_r.
  destruct (Nat.leb_spec (Z.to_nat (Z.max (Z.of_nat i - w) 1)) j),
    (Nat.ltb_spec j (Z.to_nat (Z.min (Z.of_nat i + w + 1) (Z.of_nat n + 1)))),
    (Nat.leb_spec (Z.to_nat (Z.max (Z.of_nat j - w) 1)) i),
    (Nat.ltb_spec i (Z.to_nat (Z.min (Z.of_nat j + w + 1) (Z.of_nat n + 1))));
    cbn [andb]; try done; lia.
Qed.

(** On a square matrix, exchanging the series transposes the cells. *)
Lemma erp_cell_sym s1 s2 gv (w : Z) n i j :
  Forall finite s1 → Forall finite s2 → finite gv → i ≤ n → j ≤ n →
  erp_cell s1 s2 gv w n i j = erp_cell s2 s1 gv w n j i.
Proof.
  intros Hs1 Hs2 Hg. revert j. induction i as [|i IHi]; intros j Hi Hj.
  - induction j as [|j IHj]; [done|].
    rewrite erp_cell_0_S, erp_cell_S_0, IHj by lia.
    by rewrite square_dist_sym by (done || by apply rd_finite).
  - induction j as [|j IHj].
    + rewrite erp_cell_S_0, erp_cell_0_S, IHi by lia.
      by rewrite square_dist_sym by (done || by apply rd_finite).
    + rewrite !erp_cell_S_S. rewrite (in_band_sym w n (S i) (S j)) by lia.
      destruct (in_band w n (S j) (S i)); [|done].
      rewrite IHj, !IHi by lia.
      rewrite (square_dist_sym gv (rd s2 j)), (square_dist_sym (rd s1 i) (rd s2 j)),
        (square_dist_sym (rd s1 i) gv) by (done || by apply rd_finite).
      apply std_min_rotate;
        (apply add_pos_or_zero;
         [apply pos_or_zero_nonneg; by apply erp_cell_pos_or_zero
         |apply square_dist_pos_or_zero; done || by apply rd_finite]).
Qed.

End ErpSymmetry.

(** The ERP reference is symmetric: on finite series and a finite gap
    value, exchanging the two series does not change the result of
    [erp_matrix], the very same floating point value, whatever their
    lengths and the window. *)
Theorem erp_matrix_symmetric `{FloatSymLaws F} (A B : list F) (gValue : F) (w : Z) :
  Forall finite A → Forall finite B → finite gValue →
  erp_matrix A B gValue w = erp_matrix B A gValue w.
Proof.
  intros HA HB Hg.
  destruct (decide (length A = length B)) as [Heq|Hne].
  - unfold erp_matrix. cbn zeta. rewrite <- Heq.
    destruct (Nat.eqb_spec (length A) 0) as [Hz|Hnz]; cbn [andb negb]; [done|].
    rewrite Nat.ltb_irrefl, Nat.max_id, Nat.min_id.
    set (w' := if (Z.of_nat (length A) <? w)%Z then Z.of_nat (length A) else w).
    destruct (w' <? Z.of_nat (length A) - Z.of_nat (length A))%Z; [done|].
    pose proof (erp_matrix_fill A B gValue w') as Hfill1.
    pose proof (erp_matrix_fill B A gValue w') as Hfill2.
    cbn zeta in Hfill1, Hfill2. rewrite <- Heq in Hfill1, Hfill2.
    rewrite Hfill1, Hfill2 by lia. by apply erp_cell_sym.
  - unfold erp_matrix. cbn zeta.
    rewrite (Nat.min_comm (length B)), (Nat.max_comm (length B)).
    destruct (Nat.eqb_spec (length A) 0), (Nat.eqb_spec (length B) 0); cbn [andb negb];
      try done.
    destruct (Nat.ltb_spec (length A) (length B)), (Nat.ltb_spec (length B) (length A));
      try lia; done.
Qed.

Lemma erp_matrix_symmetric_witness :
  erp_matrix [ZF.Fin 1; ZF.Fin 5; ZF.Fin 2] [ZF.Fin 3; ZF.Fin (-4); ZF.Fin 7] (ZF.Fin 1) 1
  = erp_matrix [ZF.Fin 3; ZF.Fin (-4); ZF.Fin 7] [ZF.Fin 1; ZF.Fin 5; ZF.Fin 2] (ZF.Fin 1) 1.
Proof.
  apply (erp_matrix_symmetric [ZF.Fin 1; ZF.Fin 5; ZF.Fin 2]
           [ZF.Fin 3; ZF.Fin (-4); ZF.Fin 7] (ZF.Fin 1) 1);
    repeat constructor.
Defined.
